(** * gracevisord: configuration validation, the per-app reconciliation
    loop, request routing and the status report.

    The development follows gracevisord/config.go and the file that declares
    [App] (the reconciliation loop, [reserveInstance], [ServeHTTP] and
    [Report]).  Go [int] and [uint32] values are integers in [Z]; strings are
    [string]; a nil pointer or nil [error] is [None]. *)

From Stdlib Require Import ZArith String Ascii Lia.
From stdpp Require Import base list gmap strings sorting.

Open Scope string_scope.
Open Scope Z_scope.
Open Scope list_scope.

(* ===================================================================== *)
(** * Part I: definitions                                                 *)
(* ===================================================================== *)

(** ** Errors *)

(** The package-level error values of config.go and of the App file.  Errors
    produced by the operating system ([os.MkdirAll], [user.Lookup]) are
    distinct from all of them and carry their message.  [PanicNilPointer] is
    not an error value of the program: it marks the run-time panic of a read
    through a nil pointer, where a [clean] method would do one. *)
Inductive error : Type :=
| ErrInvalidPortRange
| ErrNameRequired
| ErrCommandRequired
| ErrPortBadgeRequired
| ErrInvalidStopSignal
| ErrDuplicateExternalPort
| ErrNoActiveInstances
| ErrInstanceNotRunning
| ErrOS (msg : string)
| PanicNilPointer.

#[global] Instance error_eq_dec : EqDecision error.
Proof. solve_decision. Defined.

(** ** Constants of config.go *)

Definition configFile : string := "gracevisor.yaml".
Definition defaultPortFrom : Z := 10000.
Definition defaultPortTo : Z := 11000.
Definition defaultHost : string := "localhost".
Definition defaultRpcPort : Z := 9001.
Definition defaultExternalPort : Z := 8080.
Definition defaultStopSignal : string := "TERM".
Definition defaultMaxRetries : Z := 5.
Definition defaultLogFile : string := "/var/log/gracevisor/gracevisor.log".
Definition defaultLogDir : string := "/var/log/gracevisor".
Definition defaultMaxLogSize : Z := 500.

(** ** The standard library and the platform

    [os.Signal] values are signal numbers; [user.User] is the record of
    os/user.  What config.go calls but does not define is gathered in one
    interface: the [Signals] table (declared in another file of the package),
    the user database, the file system touched by [os.MkdirAll] (always
    called with [defaultLogFileMode]) and the pure helpers of package path. *)

Definition os_Signal : Type := Z.

Record user_User : Type := {
  Uid : string; Gid : string; Username : string; FullName : string; HomeDir : string
}.

Class Platform : Type := {
  OS : Type;
  Signals : string -> option os_Signal;
  user_Lookup : string -> OS -> user_User + string;
  os_MkdirAll : string -> OS -> option string * OS;
  path_Join : string -> string -> string;
  path_Dir : string -> string
}.

(** [strings.Contains s substr]: [substr] occurs in [s] at some offset. *)
Fixpoint strings_Contains (s substr : string) : bool :=
  String.prefix substr s
  || match s with
     | EmptyString => false
     | String _ s' => strings_Contains s' substr
     end.

(** ** Configuration records *)

Record UserConfig : Type := {
  UserName : string;
  user : option user_User
}.

Record InternalPortsConfig : Type := {
  From : Z;
  To : Z
}.

Record AppConfig : Type := {
  Name : string;
  Command : string;
  Environment : list string;
  HealthCheck : string;
  StopSignal : option os_Signal;
  StopSignalName : string;
  MaxRetries : Z;
  StartTimeout : Z;
  StopTimeout : Z;
  InternalHost : string;
  ExternalHost : string;
  ExternalPort : Z;
  StdoutLogFile : string;
  StderrLogFile : string;
  User : option UserConfig
}.

Record RpcConfig : Type := {
  Host : string;
  Port : Z
}.

Record LoggerConfig : Type := {
  ChildLogDir : string;
  LogFile : string;
  MaxLogSize : Z;
  MaxLogsKept : Z;
  MaxLogAge : Z
}.

Record Config : Type := {
  PortRange : option InternalPortsConfig;
  Apps : list AppConfig;
  Rpc : option RpcConfig;
  Logger : option LoggerConfig;
  GlobalUser : option UserConfig
}.

(** Field assignments [c.F = v] on an [AppConfig]. *)
Definition set_StopSignalName (v : string) (c : AppConfig) : AppConfig :=
  {| Name := Name c; Command := Command c; Environment := Environment c;
     HealthCheck := HealthCheck c; StopSignal := StopSignal c; StopSignalName := v;
     MaxRetries := MaxRetries c; StartTimeout := StartTimeout c; StopTimeout := StopTimeout c;
     InternalHost := InternalHost c; ExternalHost := ExternalHost c; ExternalPort := ExternalPort c;
     StdoutLogFile := StdoutLogFile c; StderrLogFile := StderrLogFile c; User := User c |}.

Definition set_StopSignal (v : option os_Signal) (c : AppConfig) : AppConfig :=
  {| Name := Name c; Command := Command c; Environment := Environment c;
     HealthCheck := HealthCheck c; StopSignal := v; StopSignalName := StopSignalName c;
     MaxRetries := MaxRetries c; StartTimeout := StartTimeout c; StopTimeout := StopTimeout c;
     InternalHost := InternalHost c; ExternalHost := ExternalHost c; ExternalPort := ExternalPort c;
     StdoutLogFile := StdoutLogFile c; StderrLogFile := StderrLogFile c; User := User c |}.

Definition set_MaxRetries (v : Z) (c : AppConfig) : AppConfig :=
  {| Name := Name c; Command := Command c; Environment := Environment c;
     HealthCheck := HealthCheck c; StopSignal := StopSignal c; StopSignalName := StopSignalName c;
     MaxRetries := v; StartTimeout := StartTimeout c; StopTimeout := StopTimeout c;
     InternalHost := InternalHost c; ExternalHost := ExternalHost c; ExternalPort := ExternalPort c;
     StdoutLogFile := StdoutLogFile c; StderrLogFile := StderrLogFile c; User := User c |}.

Definition set_InternalHost (v : string) (c : AppConfig) : AppConfig :=
  {| Name := Name c; Command := Command c; Environment := Environment c;
     HealthCheck := HealthCheck c; StopSignal := StopSignal c; StopSignalName := StopSignalName c;
     MaxRetries := MaxRetries c; StartTimeout := StartTimeout c; StopTimeout := StopTimeout c;
     InternalHost := v; ExternalHost := ExternalHost c; ExternalPort := ExternalPort c;
     StdoutLogFile := StdoutLogFile c; StderrLogFile := StderrLogFile c; User := User c |}.

Definition set_ExternalHost (v : string) (c : AppConfig) : AppConfig :=
  {| Name := Name c; Command := Command c; Environment := Environment c;
     HealthCheck := HealthCheck c; StopSignal := StopSignal c; StopSignalName := StopSignalName c;
     MaxRetries := MaxRetries c; StartTimeout := StartTimeout c; StopTimeout := StopTimeout c;
     InternalHost := InternalHost c; ExternalHost := v; ExternalPort := ExternalPort c;
     StdoutLogFile := StdoutLogFile c; StderrLogFile := StderrLogFile c; User := User c |}.

Definition set_ExternalPort (v : Z) (c : AppConfig) : AppConfig :=
  {| Name := Name c; Command := Command c; Environment := Environment c;
     HealthCheck := HealthCheck c; StopSignal := StopSignal c; StopSignalName := StopSignalName c;
     MaxRetries := MaxRetries c; StartTimeout := StartTimeout c; StopTimeout := StopTimeout c;
     InternalHost := InternalHost c; ExternalHost := ExternalHost c; ExternalPort := v;
     StdoutLogFile := StdoutLogFile c; StderrLogFile := StderrLogFile c; User := User c |}.

Definition set_StdoutLogFile (v : string) (c : AppConfig) : AppConfig :=
  {| Name := Name c; Command := Command c; Environment := Environment c;
     HealthCheck := HealthCheck c; StopSignal := StopSignal c; StopSignalName := StopSignalName c;
     MaxRetries := MaxRetries c; StartTimeout := StartTimeout c; StopTimeout := StopTimeout c;
     InternalHost := InternalHost c; ExternalHost := ExternalHost c; ExternalPort := ExternalPort c;
     StdoutLogFile := v; StderrLogFile := StderrLogFile c; User := User c |}.

Definition set_StderrLogFile (v : string) (c : AppConfig) : AppConfig :=
  {| Name := Name c; Command := Command c; Environment := Environment c;
     HealthCheck := HealthCheck c; StopSignal := StopSignal c; StopSignalName := StopSignalName c;
     MaxRetries := MaxRetries c; StartTimeout := StartTimeout c; StopTimeout := StopTimeout c;
     InternalHost := InternalHost c; ExternalHost := ExternalHost c; ExternalPort := ExternalPort c;
     StdoutLogFile := StdoutLogFile c; StderrLogFile := v; User := User c |}.

Definition set_User (v : option UserConfig) (c : AppConfig) : AppConfig :=
  {| Name := Name c; Command := Command c; Environment := Environment c;
     HealthCheck := HealthCheck c; StopSignal := StopSignal c; StopSignalName := StopSignalName c;
     MaxRetries := MaxRetries c; StartTimeout := StartTimeout c; StopTimeout := StopTimeout c;
     InternalHost := InternalHost c; ExternalHost := ExternalHost c; ExternalPort := ExternalPort c;
     StdoutLogFile := StdoutLogFile c; StderrLogFile := StderrLogFile c; User := v |}.

Definition set_Apps (v : list AppConfig) (c : Config) : Config :=
  {| PortRange := PortRange c; Apps := v; Rpc := Rpc c;
     Logger := Logger c; GlobalUser := GlobalUser c |}.

(** ** The [clean] methods

    Every [clean] mutates its receiver and returns an error; here it returns
    the receiver as it is left, the error ([None] for nil) and the state of
    the platform. *)

Section Clean.
Context `{Platform}.

Definition UserConfig_clean (c : UserConfig) (os : OS) : UserConfig * option error :=
  if String.eqb (UserName c) "" then (c, None)
  else match user_Lookup (UserName c) os with
       | inr msg => (c, Some (ErrOS msg))
       | inl u => ({| UserName := UserName c; user := Some u |}, None)
       end.

Definition InternalPortsConfig_clean (c : InternalPortsConfig)
  : InternalPortsConfig * option error :=
  let c := if (From c =? 0) && (To c =? 0)
           then {| From := defaultPortFrom; To := defaultPortTo |} else c in
  if From c >=? To c then (c, Some ErrInvalidPortRange) else (c, None).

(** [hasPortBadge] looks at the command only. *)
Definition hasPortBadge (c : AppConfig) : bool :=
  if strings_Contains (Command c) "{port}" then true else false.

Definition RpcConfig_clean (c : RpcConfig) : RpcConfig * option error :=
  let c := if String.eqb (Host c) "" then {| Host := defaultHost; Port := Port c |} else c in
  let c := if Port c =? 0 then {| Host := Host c; Port := defaultRpcPort |} else c in
  (c, None).

Definition LoggerConfig_clean (c : LoggerConfig) (os : OS)
  : LoggerConfig * option error * OS :=
  let c := if String.eqb (ChildLogDir c) ""
           then {| ChildLogDir := defaultLogDir; LogFile := LogFile c;
                   MaxLogSize := MaxLogSize c; MaxLogsKept := MaxLogsKept c;
                   MaxLogAge := MaxLogAge c |} else c in
  let c := if String.eqb (LogFile c) ""
           then {| ChildLogDir := ChildLogDir c; LogFile := defaultLogFile;
                   MaxLogSize := MaxLogSize c; MaxLogsKept := MaxLogsKept c;
                   MaxLogAge := MaxLogAge c |} else c in
  let c := if MaxLogSize c <=? 0
           then {| ChildLogDir := ChildLogDir c; LogFile := LogFile c;
                   MaxLogSize := defaultMaxLogSize; MaxLogsKept := MaxLogsKept c;
                   MaxLogAge := MaxLogAge c |} else c in
  match os_MkdirAll (path_Dir (LogFile c)) os with
  | (Some msg, os) => (c, Some (ErrOS msg), os)
  | (None, os) => (c, None, os)
  end.

(** The two log-file defaults of [AppConfig.clean]: an empty path becomes
    [path.Join(g.Logger.ChildLogDir, file)]; [None] is the dereference of a
    nil [g.Logger]. *)
Definition defaultLogPath (g : Config) (current file : string) : option string :=
  if String.eqb current "" then
    match Logger g with
    | None => None
    | Some logger => Some (path_Join (ChildLogDir logger) file)
    end
  else Some current.

(** [AppConfig.clean].  [g] is the enclosing configuration, whose [Logger]
    has been set by [Config.clean] before any app is cleaned.
    An app without a user of its own shares the global [*UserConfig]; the
    second [clean] of that shared object repeats the lookup already done for
    the global user, so the record is kept by value. *)
Definition AppConfig_clean (c : AppConfig) (g : Config) (os : OS)
  : AppConfig * option error * OS :=
  if String.eqb (Name c) "" then (c, Some ErrNameRequired, os) else
  if String.eqb (Command c) "" then (c, Some ErrCommandRequired, os) else
  if negb (hasPortBadge c) then (c, Some ErrPortBadgeRequired, os) else
  let c := if String.eqb (StopSignalName c) ""
           then set_StopSignalName defaultStopSignal c else c in
  match Signals (StopSignalName c) with
  | None => (c, Some ErrInvalidStopSignal, os)
  | Some signal =>
    let c := set_StopSignal (Some signal) c in
    let c := if MaxRetries c =? 0 then set_MaxRetries defaultMaxRetries c else c in
    let c := if String.eqb (InternalHost c) "" then set_InternalHost defaultHost c else c in
    let c := if String.eqb (ExternalHost c) "" then set_ExternalHost defaultHost c else c in
    let c := if ExternalPort c =? 0 then set_ExternalPort defaultExternalPort c else c in
    match defaultLogPath g (StdoutLogFile c) ("app_" +:+ Name c +:+ ".out"),
          defaultLogPath g (StderrLogFile c) ("app_" +:+ Name c +:+ ".err") with
    | None, _ | _, None => (c, Some PanicNilPointer, os)
    | Some out, Some err =>
      let c := set_StdoutLogFile out c in
      let c := set_StderrLogFile err c in
      match os_MkdirAll (path_Dir (StdoutLogFile c)) os with
      | (Some msg, os) => (c, Some (ErrOS msg), os)
      | (None, os) =>
        match os_MkdirAll (path_Dir (StderrLogFile c)) os with
        | (Some msg, os) => (c, Some (ErrOS msg), os)
        | (None, os) =>
          let c := match User c with
                   | None => set_User (GlobalUser g) c
                   | Some _ => c
                   end in
          match User c with
          | None => (c, None, os)
          | Some u =>
            match UserConfig_clean u os with
            | (u, Some err) => (set_User (Some u) c, Some err, os)
            | (u, None) => (set_User (Some u) c, None, os)
            end
          end
        end
      end
    end
  end.

(** The loop of [Config.clean] over [c.Apps], with the [usedPorts] map.  It
    returns the apps as they are left (those not reached are untouched). *)
Fixpoint cleanApps (apps : list AppConfig) (g : Config) (usedPorts : gmap Z bool)
    (os : OS) : list AppConfig * option error * OS :=
  match apps with
  | [] => ([], None, os)
  | app :: rest =>
    match AppConfig_clean app g os with
    | (app, Some err, os) => (app :: rest, Some err, os)
    | (app, None, os) =>
      match usedPorts !! ExternalPort app with
      | Some _ => (app :: rest, Some ErrDuplicateExternalPort, os)
      | None =>
        let usedPorts := <[ExternalPort app := true]> usedPorts in
        match cleanApps rest g usedPorts os with
        | (rest, err, os) => (app :: rest, err, os)
        end
      end
    end
  end.

Definition Config_clean (c : Config) (os : OS) : Config * option error * OS :=
  let portRange := default {| From := 0; To := 0 |} (PortRange c) in
  let rpc := default {| Host := ""; Port := 0 |} (Rpc c) in
  let logger := default {| ChildLogDir := ""; LogFile := ""; MaxLogSize := 0;
                           MaxLogsKept := 0; MaxLogAge := 0 |} (Logger c) in
  let mk pr r lg u apps :=
    {| PortRange := Some pr; Apps := apps; Rpc := Some r; Logger := Some lg;
       GlobalUser := u |} in
  match InternalPortsConfig_clean portRange with
  | (portRange, Some err) => (mk portRange rpc logger (GlobalUser c) (Apps c), Some err, os)
  | (portRange, None) =>
    match RpcConfig_clean rpc with
    | (rpc, Some err) => (mk portRange rpc logger (GlobalUser c) (Apps c), Some err, os)
    | (rpc, None) =>
      match LoggerConfig_clean logger os with
      | (logger, Some err, os) =>
        (mk portRange rpc logger (GlobalUser c) (Apps c), Some err, os)
      | (logger, None, os) =>
        match (match GlobalUser c with
               | None => (None, None)
               | Some u => let '(u, err) := UserConfig_clean u os in (Some u, err)
               end) with
        | (u, Some err) => (mk portRange rpc logger u (Apps c), Some err, os)
        | (u, None) =>
          let g := mk portRange rpc logger u (Apps c) in
          match cleanApps (Apps c) g ∅ os with
          | (apps, err, os) => (set_Apps apps g, err, os)
          end
        end
      end
    end
  end.

End Clean.

(** ** Instances

    An [*Instance] is an address; two pointers are the same instance when the
    addresses are equal. *)
Abbreviation ptr := nat (only parsing).

(** Modelled from the spec: the status constants, which are declared next
    to the [Instance] type and not in the App file.  The comparison in
    [InstanceStatusSort.Less] and its comment ("only bring serving, starting
    and stopping apps to display") fix that [Serving], [Starting] and
    [Stopping] are the codes up to [InstanceStatusStopping] and that the
    terminal states of the spec lie above it; the updater's
    [lastStatus := -1] fixes that no code is negative.  The codes are numbered
    from zero, the three live states in the order of that comment.  The
    general statements below depend on the codes only through
    [InstanceStatusStopping] and through the codes being distinct. *)
Definition InstanceStatusServing : Z := 0.
Definition InstanceStatusStarting : Z := 1.
Definition InstanceStatusStopping : Z := 2.
Definition InstanceStatusKilled : Z := 3.
Definition InstanceStatusFailed : Z := 4.
Definition InstanceStatusExited : Z := 5.
Definition InstanceStatusTimedOut : Z := 6.

(** How a call of the reverse proxy ends. *)
Inductive Outcome : Type := Returned | Panicked.

#[global] Instance Outcome_eq_dec : EqDecision Outcome.
Proof. solve_decision. Defined.

Record Request : Type := {
  URL_Scheme : string;
  URL_Host : string;
  RemoteAddr : string;
  Header : list (string * string)
}.

Record App : Type := {
  config : AppConfig;
  instances : list ptr;
  activeInstance : option ptr;
  instanceId : Z
}.

(** What the App file calls on an [Instance] and on its collaborators.
    [World] holds everything behind the pointers: the fields of every
    instance, the processes, the port pool, the connection of the request
    being served. *)
Class InstanceOps : Type := {
  World : Type;
  report_Instance : Type;
  Instance_status : ptr -> World -> Z;
  Instance_internalHostPort : ptr -> World -> string;
  Instance_UpdateStatus : ptr -> World -> Z * World;
  Instance_Stop : ptr -> World -> World;
  Instance_Serve : ptr -> World -> World;
  Instance_Done : ptr -> World -> World;
  Instance_Report : ptr -> World -> report_Instance;
  NewInstance : App -> Z -> World -> (ptr + error) * World;
  Body_Close : World -> option error * World;
  net_SplitHostPort : string -> string;
  rp_ServeHTTP : Request -> World -> Outcome * World
}.

Section AppModel.
Context `{InstanceOps}.

(** ** Observable steps

    Each effect of the App code on its collaborators or on the shared fields
    is recorded, together with [activeInstance] as it is once the step is
    done. *)
Inductive Event : Type :=
| CallUpdateStatus (i : ptr) (status : Z)
| ClearActive
| ResetRestartCount
| Lock
| Unlock
| SetActive (i : ptr)
| CallStop (i : ptr)
| IncRestartCount
| CallNewInstance (id : Z) (r : ptr + error)
| LogPrint (e : error)
| CallServe (i : ptr)
| CallDone (i : ptr)
| WriteHeader (code : Z)
| CallBodyClose
| CallProxy (target : string) (r : Outcome).

Record Step : Type := {
  ev : Event;
  activeAfter : option ptr
}.

Record Sys : Type := {
  app : App;
  world : World;
  trace : list Step
}.

Definition emit (e : Event) (s : Sys) : Sys :=
  {| app := app s; world := world s;
     trace := trace s ++ [{| ev := e; activeAfter := activeInstance (app s) |}] |}.

Definition setWorld (w : World) (s : Sys) : Sys :=
  {| app := app s; world := w; trace := trace s |}.

Definition setActiveInstance (v : option ptr) (s : Sys) : Sys :=
  {| app := {| config := config (app s); instances := instances (app s);
               activeInstance := v; instanceId := instanceId (app s) |};
     world := world s; trace := trace s |}.

Definition setInstances (v : list ptr) (s : Sys) : Sys :=
  {| app := {| config := config (app s); instances := v;
               activeInstance := activeInstance (app s);
               instanceId := instanceId (app s) |};
     world := world s; trace := trace s |}.

Definition setInstanceId (v : Z) (s : Sys) : Sys :=
  {| app := {| config := config (app s); instances := instances (app s);
               activeInstance := activeInstance (app s); instanceId := v |};
     world := world s; trace := trace s |}.

(** ** The instance updater

    The goroutine of [startInstanceUpdater] keeps [restartCount] across
    ticks; [lastStatus] is set afresh in every tick. *)
Record Updater : Type := {
  sys : Sys;
  restartCount : Z;
  lastStatus : Z
}.

(** The body of [for _, instance := range a.instances]. *)
Definition visit (instance : ptr) (u : Updater) : Updater :=
  let s := sys u in
  let '(status, w) := Instance_UpdateStatus instance (world s) in
  let s := emit (CallUpdateStatus instance status) (setWorld w s) in
  if decide (Some instance = activeInstance (app s)) then
    if decide (status <> InstanceStatusServing) then
      {| sys := emit ClearActive (setActiveInstance None s);
         restartCount := restartCount u; lastStatus := status |}
    else {| sys := s; restartCount := restartCount u; lastStatus := status |}
  else
    if decide (status = InstanceStatusServing) then
      let s := emit ResetRestartCount s in
      let s := emit Lock s in
      let currentActive := activeInstance (app s) in
      let s := emit (SetActive instance) (setActiveInstance (Some instance) s) in
      let s := emit Unlock s in
      let s := match currentActive with
               | Some c => emit (CallStop c) (setWorld (Instance_Stop c (world s)) s)
               | None => s
               end in
      {| sys := s; restartCount := 0; lastStatus := status |}
    else {| sys := s; restartCount := restartCount u; lastStatus := status |}.

Definition scan (l : list ptr) (u : Updater) : Updater :=
  fold_left (fun u instance => visit instance u) l u.

(** [atomic.AddUint32(&a.instanceId, 1)] wraps at 2^32. *)
Definition StartNewInstance (s : Sys) : option error * Sys :=
  let id := (instanceId (app s) + 1) mod 2 ^ 32 in
  let s := setInstanceId id s in
  let '(r, w) := NewInstance (app s) id (world s) in
  let s := emit (CallNewInstance id r) (setWorld w s) in
  match r with
  | inr err => (Some err, s)
  | inl newInstance => (None, setInstances (instances (app s) ++ [newInstance]) s)
  end.

Definition isRestartStatus (status : Z) : bool :=
  (status =? InstanceStatusExited) || (status =? InstanceStatusFailed)
  || (status =? InstanceStatusTimedOut).

(** What the updater does after the scan of one tick.  [restartCount] stays
    below [MaxRetries] before it is incremented, so the Go [int] addition
    never wraps. *)
Definition restartStep (u : Updater) : Updater :=
  if isRestartStatus (lastStatus u) then
    if restartCount u <? MaxRetries (config (app (sys u))) then
      let '(err, s) := StartNewInstance (emit IncRestartCount (sys u)) in
      let s := match err with
               | Some e => emit (LogPrint e) s
               | None => s
               end in
      {| sys := s; restartCount := restartCount u + 1; lastStatus := lastStatus u |}
    else u
  else u.

(** One turn of the [for] loop of the updater, up to the wait on the ticker. *)
Definition tick (u : Updater) : Updater :=
  let u := {| sys := sys u; restartCount := restartCount u; lastStatus := -1 |} in
  restartStep (scan (instances (app (sys u))) u).

(** The updater as [startInstanceUpdater] leaves it for its first tick. *)
Definition startInstanceUpdater (s : Sys) : Updater :=
  {| sys := s; restartCount := 0; lastStatus := -1 |}.

(** ** The request router *)

Definition reserveInstance (s : Sys) : option ptr * option error * Sys :=
  let s := emit Lock s in
  match activeInstance (app s) with
  | None => (None, Some ErrNoActiveInstances, emit Unlock s)
  | Some instance =>
    let s := emit (CallServe instance) (setWorld (Instance_Serve instance (world s)) s) in
    (Some instance, None, emit Unlock s)
  end.

(** The function deferred by [ServeHTTP]. *)
Definition ServeHTTP_deferred (instance : option ptr) (s : Sys) : Sys :=
  match instance with
  | Some i => emit (CallDone i) (setWorld (Instance_Done i (world s)) s)
  | None => s
  end.

Definition ServeHTTP (req : Request) (s : Sys) : Outcome * Sys :=
  let '(instance, err, s) := reserveInstance s in
  match err with
  | Some e =>
    let s := if decide (e = ErrNoActiveInstances) then
               let s := emit (WriteHeader 503) s in
               let '(cerr, w) := Body_Close (world s) in
               let s := emit CallBodyClose (setWorld w s) in
               match cerr with
               | Some ce => emit (LogPrint ce) s
               | None => s
               end
             else emit (LogPrint e) s in
    (Returned, ServeHTTP_deferred instance s)
  | None =>
    match instance with
    | None => (Panicked, ServeHTTP_deferred instance s)
    | Some i =>
      let target := Instance_internalHostPort i (world s) in
      let host := net_SplitHostPort (RemoteAddr req) in
      let req := {| URL_Scheme := "http"; URL_Host := target;
                    RemoteAddr := RemoteAddr req;
                    Header := Header req ++ [("X-Real-IP", host)] |} in
      let '(r, w) := rp_ServeHTTP req (world s) in
      let s := emit (CallProxy target r) (setWorld w s) in
      (r, ServeHTTP_deferred instance s)
    end
  end.

(** ** The status report *)

(** [InstanceStatusSort]: the three methods [sort.Stable] is given.  An
    index beyond the slice is a run-time panic in Go; [sort.Stable] asks for
    none, and [Swap] and [Less] answer such an index by doing nothing. *)
Definition InstanceStatusSort_Len (v : list ptr) : nat := length v.

Definition InstanceStatusSort_Swap (v : list ptr) (i j : nat) : list ptr :=
  match v !! i, v !! j with
  | Some vi, Some vj => <[i := vj]> (<[j := vi]> v)
  | _, _ => v
  end.

(** The comparison of [Less] on the two instances found at [i] and [j]. *)
Definition statusLess (w : World) (vi vj : ptr) : bool :=
  if (Instance_status vi w <=? InstanceStatusStopping)
     || (Instance_status vj w <=? InstanceStatusStopping)
  then Instance_status vi w >? Instance_status vj w
  else false.

Definition InstanceStatusSort_Less (w : World) (v : list ptr) (i j : nat) : bool :=
  match v !! i, v !! j with
  | Some vi, Some vj => statusLess w vi vj
  | _, _ => false
  end.

(** [sort.Stable] of the Go library, on the interface above.  Its insertion
    sort is [for i := a+1; i < b; i++ { for j := i; j > a && Less(j, j-1);
    j-- { Swap(j, j-1) } }].  The library runs it on blocks of twenty
    elements and merges the blocks, keeping equal elements in order; here it
    runs over the whole slice, which is the same for up to twenty instances
    and gives the same slice beyond, the order of [Less] and stability
    leaving one result only ([sort_Stable_determined]). *)
Fixpoint insertionSort_inner (w : World) (v : list ptr) (j : nat) : list ptr :=
  match j with
  | O => v
  | S j' => if InstanceStatusSort_Less w v j j'
            then insertionSort_inner w (InstanceStatusSort_Swap v j j') j'
            else v
  end.

Definition sort_Stable (w : World) (v : list ptr) : list ptr :=
  fold_left (insertionSort_inner w) (seq 1 (InstanceStatusSort_Len v - 1)) v.

Record report_App : Type := {
  report_Name : string;
  report_Host : string;
  report_Port : Z;
  report_Instances : list report_Instance
}.

(** The index [from] of [Report]; [len] is [len(a.instances)]. *)
Definition Report_from (len displayN : Z) : Z :=
  if len >? displayN then len - displayN else 0.

(** [a.instances[from:len(a.instances)]]; [None] when the bounds are out of
    range, which the run time answers with a panic.  A negative [displayN]
    puts [from] beyond [len] (or, once the subtraction wraps, below zero). *)
Definition Report_slice (v : list ptr) (from : Z) : option (list ptr) :=
  if (from <? 0) || (Z.of_nat (length v) <? from) then None
  else Some (drop (Z.to_nat from) v).

(** [Report]: the instances are sorted where they are, in [a.instances]. *)
Definition Report (displayN : Z) (s : Sys) : option report_App * Sys :=
  let a := app s in
  let from := Report_from (Z.of_nat (length (instances a))) displayN in
  let s := setInstances (sort_Stable (world s) (instances a)) s in
  match Report_slice (instances (app s)) from with
  | None => (None, s)
  | Some shown =>
    (Some {| report_Name := Name (config a);
             report_Host := ExternalHost (config a);
             report_Port := ExternalPort (config a);
             report_Instances := map (fun i => Instance_Report i (world s)) shown |}, s)
  end.

End AppModel.

(** The external port of an app once the zero value has been replaced by
    the default. *)
Definition defaultedPort (c : AppConfig) : Z :=
  if ExternalPort c =? 0 then defaultExternalPort else ExternalPort c.

(** Two apps of the list have the same external port once defaulted. *)
Definition portsCollide (apps : list AppConfig) : Prop :=
  exists (i j : nat) (a b : AppConfig),
    (i < j)%nat /\ apps !! i = Some a /\ apps !! j = Some b
    /\ defaultedPort a = defaultedPort b.

(** ** Concrete collaborators for running the definitions *)

(** A platform for concrete runs: every directory can be created and the
    only user is root; [Signals] knows the signals a supervisor sends; paths
    are joined with a slash and [path.Dir] answers with the log directory. *)
Definition testSignals (name : string) : option os_Signal :=
  if String.eqb name "TERM" then Some 15
  else if String.eqb name "KILL" then Some 9
  else if String.eqb name "INT" then Some 2
  else None.

Definition testPlatform : Platform :=
  {| OS := unit;
     Signals := testSignals;
     user_Lookup := fun name _ =>
       if String.eqb name "root"
       then inl {| Uid := "0"; Gid := "0"; Username := "root"; FullName := "root";
                   HomeDir := "/root" |}
       else inr ("user: unknown user " +:+ name);
     os_MkdirAll := fun _ os => (None, os);
     path_Join := fun dir file => dir +:+ "/" +:+ file;
     path_Dir := fun _ => "/var/log/gracevisor" |}.

(** An app entry as the YAML decoder leaves it when only name, command and
    environment are given. *)
Definition appEntry (name command : string) (environment : list string) : AppConfig :=
  {| Name := name; Command := command; Environment := environment; HealthCheck := "";
     StopSignal := None; StopSignalName := ""; MaxRetries := 0; StartTimeout := 0;
     StopTimeout := 0; InternalHost := ""; ExternalHost := ""; ExternalPort := 0;
     StdoutLogFile := ""; StderrLogFile := ""; User := None |}.

Definition configOf (apps : list AppConfig) : Config :=
  {| PortRange := None; Apps := apps; Rpc := None; Logger := None; GlobalUser := None |}.

(** The configuration [Config.clean] hands to the apps once the global
    sections are in place. *)
Definition cleanedGlobals : Config :=
  {| PortRange := Some {| From := 10000; To := 11000 |};
     Apps := [];
     Rpc := Some {| Host := "localhost"; Port := 9001 |};
     Logger := Some {| ChildLogDir := "/var/log/gracevisor";
                       LogFile := "/var/log/gracevisor/gracevisor.log";
                       MaxLogSize := 500; MaxLogsKept := 0; MaxLogAge := 0 |};
     GlobalUser := None |}.

(** A world for concrete runs: every process stays in the state the
    function gives, [UpdateStatus] reports that state, [Stop] moves an
    instance to [Stopping], a new instance has the address of its id and the
    state the function gives to that address, and proxying returns. *)
Definition testWorld : Type := ptr -> Z.

Definition testOps : InstanceOps :=
  {| World := testWorld;
     report_Instance := ptr * Z;
     Instance_status := fun i w => w i;
     Instance_internalHostPort := fun _ _ => "localhost:10000";
     Instance_UpdateStatus := fun i w => (w i, w);
     Instance_Stop := fun c w i => if Nat.eqb i c then InstanceStatusStopping else w i;
     Instance_Serve := fun _ w => w;
     Instance_Done := fun _ w => w;
     Instance_Report := fun i w => (i, w i);
     NewInstance := fun _ id w => (inl (Z.to_nat id), w);
     Body_Close := fun w => (None, w);
     net_SplitHostPort := fun addr => addr;
     rp_ServeHTTP := fun _ w => (Returned, w) |}.

Definition testApp (maxRetries : Z) (l : list ptr) (active : option ptr) : App :=
  {| config := set_MaxRetries maxRetries (appEntry "web" "run {port}" []);
     instances := l; activeInstance := active;
     instanceId := Z.of_nat (length l) |}.

Definition testSys (maxRetries : Z) (l : list ptr) (active : option ptr)
    (w : testWorld) : @Sys testOps :=
  @Build_Sys testOps (testApp maxRetries l active) w [].

(** The statuses of the example of the status report: instances 1 to 5 are
    [Exited, Serving, Failed, Starting, Exited]. *)
Definition exampleStatuses : testWorld := fun i =>
  match i with
  | 1%nat => InstanceStatusExited
  | 2%nat => InstanceStatusServing
  | 3%nat => InstanceStatusFailed
  | 4%nat => InstanceStatusStarting
  | _ => InstanceStatusExited
  end.

(** ** Vocabulary of the statements *)

Section Vocabulary.
Context `{InstanceOps}.

(** The insertion of [x] below a sorted prefix, the prefix being held from
    its last element back to its first: what the inner loop of the
    insertion sort computes. *)
Fixpoint sinkRev (w : World) (x : ptr) (before : list ptr) : list ptr :=
  match before with
  | [] => [x]
  | y :: before' =>
    if statusLess w x y then y :: sinkRev w x before' else x :: y :: before'
  end.

(** The status code cut at the first terminal code: [Less] orders two
    instances by this key, larger keys first. *)
Definition statusKey (w : World) (i : ptr) : Z :=
  Z.min (Instance_status i w) (InstanceStatusStopping + 1).

(** Terminal instances: the status lies above [InstanceStatusStopping]. *)
Definition terminal (w : World) (i : ptr) : Prop :=
  InstanceStatusStopping < Instance_status i w.

Definition live (w : World) (i : ptr) : Prop :=
  Instance_status i w <= InstanceStatusStopping.

#[global] Instance terminal_dec (w : World) (i : ptr) : Decision (terminal w i).
Proof. unfold terminal. apply _. Defined.

#[global] Instance live_dec (w : World) (i : ptr) : Decision (live w i).
Proof. unfold live. apply _. Defined.

(** Every live instance of [l] stands before every terminal one. *)
Definition liveFirst (w : World) (l : list ptr) : Prop :=
  forall (i j : nat) (x y : ptr),
    l !! i = Some x -> l !! j = Some y -> live w x -> terminal w y -> (i < j)%nat.

(** [l] is ordered as [Less] wants it: keys never increase. *)
Definition keySorted (w : World) (l : list ptr) : Prop :=
  StronglySorted (fun x y => statusKey w y <= statusKey w x) l.

(** The events of a trace. *)
Definition events (tr : list Step) : list Event := map ev tr.

(** Calls of [NewInstance] since the last promotion ([SetActive]) in a
    sequence of events, or since its beginning. *)
Definition countStart (n : nat) (e : Event) : nat :=
  match e with
  | SetActive _ => 0
  | CallNewInstance _ _ => S n
  | _ => n
  end.

Definition startsSincePromotion (es : list Event) : nat :=
  fold_left countStart es 0%nat.

(** At no moment of the run recorded in [es] have more than [maxRetries]
    instances (none, for a negative [maxRetries]) been started since the
    promotion before. *)
Definition startsBounded (maxRetries : Z) (es : list Event) : Prop :=
  forall pre, pre `prefix_of` es ->
    Z.of_nat (startsSincePromotion pre) <= Z.max 0 maxRetries.

(** What holds of the updater between two ticks: [restartCount] is the
    number of starts since the last promotion. *)
Definition updaterInv (cfg : AppConfig) (u : Updater) : Prop :=
  config (app (sys u)) = cfg
  /\ Z.of_nat (startsSincePromotion (events (trace (sys u)))) = restartCount u
  /\ restartCount u <= Z.max 0 (MaxRetries cfg)
  /\ startsBounded (MaxRetries cfg) (events (trace (sys u))).

(** The visit of [i] promotes it: it is not the active instance and
    [UpdateStatus] finds it serving. *)
Definition promotes (i : ptr) (u : Updater) : Prop :=
  Some i <> activeInstance (app (sys u))
  /\ fst (Instance_UpdateStatus i (world (sys u))) = InstanceStatusServing.

(** The steps a promotion of [i] adds when [old] was active. *)
Definition promotionSteps (i : ptr) (old : option ptr) : list Step :=
  [ {| ev := CallUpdateStatus i InstanceStatusServing; activeAfter := old |};
    {| ev := ResetRestartCount; activeAfter := old |};
    {| ev := Lock; activeAfter := old |};
    {| ev := SetActive i; activeAfter := Some i |};
    {| ev := Unlock; activeAfter := Some i |} ]
  ++ match old with
     | Some c => [ {| ev := CallStop c; activeAfter := Some i |} ]
     | None => []
     end.

(** The states the updater passes through: it starts with
    [startInstanceUpdater], runs ticks, and between two ticks the other
    goroutines (requests, the control interface, the status report) may
    change the App and the world they share with it; they reach neither
    [restartCount], nor the configuration, nor the record of the updater's
    own steps. *)
Inductive reachable (cfg : AppConfig) : Updater -> Prop :=
| reachable_start (s : Sys) :
    config (app s) = cfg -> trace s = [] -> reachable cfg (startInstanceUpdater s)
| reachable_tick (u : Updater) :
    reachable cfg u -> reachable cfg (tick u)
| reachable_others (u : Updater) (s : Sys) :
    reachable cfg u ->
    config (app s) = cfg ->
    trace s = trace (sys u) ->
    reachable cfg {| sys := s; restartCount := restartCount u; lastStatus := lastStatus u |}.

End Vocabulary.

(** ** The rest of the App file: the control interface, a new App *)

(** What [StopInstances] reads and calls on an [Instance] beyond the
    operations above: the field [id] and the method [Kill]. *)
Class InstanceControl `{InstanceOps} : Type := {
  Instance_id : ptr -> World -> Z;
  Instance_Kill : ptr -> World -> World
}.

Section Control.
Context `{InstanceControl}.

(** The calls [StopInstances] makes, in the order it makes them. *)
Inductive StopCall : Type :=
| StopCalled (i : ptr)
| KillCalled (i : ptr).

(** The body of the loop of [StopInstances]; the state is the flag
    [stopped], the calls made so far and the world.  [int(instance.id)] is
    the id itself, a [uint32] fitting the Go [int]. *)
Definition StopInstances_visit (instanceId : Z) (kill : bool) (instance : ptr)
    (st : bool * list StopCall * World) : bool * list StopCall * World :=
  let '(stopped, calls, w) := st in
  if (instanceId >? 0) && negb (Instance_id instance w =? instanceId) then st
  else if (Instance_status instance w =? InstanceStatusServing)
          || (Instance_status instance w =? InstanceStatusStarting)
  then if kill
       then (true, calls ++ [KillCalled instance], Instance_Kill instance w)
       else (true, calls ++ [StopCalled instance], Instance_Stop instance w)
  else st.

Definition StopInstances (instanceId : Z) (kill : bool) (s : Sys)
  : option error * list StopCall * Sys :=
  let '(stopped, calls, w) :=
    fold_left (fun st instance => StopInstances_visit instanceId kill instance st)
              (instances (app s)) (false, [], world s) in
  (if stopped then None else Some ErrInstanceNotRunning, calls, setWorld w s).

(** [NewApp]: no instance yet, no active instance, the id counter at zero,
    and the updater started.  The listen address, the reverse proxy and the
    logger of the App are objects the model does not hold. *)
Definition NewApp (config : AppConfig) (w : World) : Updater :=
  startInstanceUpdater
    {| app := {| config := config; instances := []; activeInstance := None;
                 instanceId := 0 |};
       world := w; trace := [] |}.

(** The instances [UpdateStatus] was called on, in the order of the calls. *)
Definition polled (es : list Event) : list ptr :=
  omap (fun e => match e with
                 | CallUpdateStatus i _ => Some i
                 | _ => None
                 end) es.

(** The lock of the App along a sequence of events: [Lock] needs it free,
    [Unlock] needs it held, the swap of [activeInstance] and [Serve] happen
    while it is held, every other step while it is free.  [None] when a
    step breaks this. *)
Definition lockStep (held : bool) (e : Event) : option bool :=
  match e with
  | Lock => if held then None else Some true
  | Unlock => if held then Some false else None
  | SetActive _ | CallServe _ => if held then Some true else None
  | _ => if held then None else Some false
  end.

Fixpoint lockRun (held : bool) (es : list Event) : option bool :=
  match es with
  | [] => Some held
  | e :: es' =>
    match lockStep held e with
    | Some held' => lockRun held' es'
    | None => None
    end
  end.

(** The instances [StopInstances] acts on in the world [w]: those it does
    not skip for their id and finds [Serving] or [Starting]. *)
Definition stoppable (instanceId : Z) (w : World) (i : ptr) : Prop :=
  (instanceId <= 0 \/ Instance_id i w = instanceId)
  /\ (Instance_status i w = InstanceStatusServing
      \/ Instance_status i w = InstanceStatusStarting).

#[global] Instance stoppable_dec (instanceId : Z) (w : World) (i : ptr) :
  Decision (stoppable instanceId w i).
Proof. unfold stoppable. apply _. Defined.

(** The call [StopInstances] makes on a stoppable instance. *)
Definition stopCall (kill : bool) (i : ptr) : StopCall :=
  if kill then KillCalled i else StopCalled i.

(** What a call of [StopInstances] does to the world, and what a sequence of
    its calls does, the first call first. *)
Definition StopCall_run (c : StopCall) (w : World) : World :=
  match c with
  | StopCalled i => Instance_Stop i w
  | KillCalled i => Instance_Kill i w
  end.

Definition StopCalls_run (calls : list StopCall) (w : World) : World :=
  fold_left (fun w c => StopCall_run c w) calls w.

(** [Stop] and [Kill] of one instance leave the id and the status of every
    other instance as they are. *)
Definition stopsOneInstance : Prop :=
  forall (i j : ptr) (w : World), i <> j ->
    Instance_id j (Instance_Stop i w) = Instance_id j w
    /\ Instance_status j (Instance_Stop i w) = Instance_status j w
    /\ Instance_id j (Instance_Kill i w) = Instance_id j w
    /\ Instance_status j (Instance_Kill i w) = Instance_status j w.

(** The ids [NewInstance] was called with, in the order of the calls. *)
Definition startedIds (es : list Event) : list Z :=
  omap (fun e => match e with
                 | CallNewInstance id _ => Some id
                 | _ => None
                 end) es.

(** The steps a tick adds to the trace. *)
Definition tickSteps (u : Updater) : list Step :=
  drop (length (trace (sys u))) (trace (sys (tick u))).

(** [n] calls of [StartNewInstance] in a row. *)
Definition startMany (n : nat) (s : Sys) : Sys :=
  Nat.iter n (fun t => snd (StartNewInstance t)) s.

End Control.

(** A control interface for concrete runs: the id of an instance is its
    address, [Kill] moves it to [Killed]. *)
Definition testControl : @InstanceControl testOps :=
  @Build_InstanceControl testOps
    (fun i _ => Z.of_nat i)
    (fun c (w : testWorld) i => if Nat.eqb i c then InstanceStatusKilled else w i).

(** ** [Config.clean] on the slice of pointers

    [c.Apps] is a [[]*AppConfig]: the YAML decoder leaves a nil pointer for
    an entry that is [null].  [cleanApps] above runs over the apps that are
    there; here the loop runs over the entries as the slice holds them,
    [None] for nil.  [app.clean(c)] on a nil entry reads [c.Name] through the
    nil pointer, the panic [PanicNilPointer]. *)

Section CleanEntries.
Context `{Platform}.

Fixpoint cleanAppEntries (apps : list (option AppConfig)) (g : Config)
    (usedPorts : gmap Z bool) (os : OS)
  : list (option AppConfig) * option error * OS :=
  match apps with
  | [] => ([], None, os)
  | None :: rest => (None :: rest, Some PanicNilPointer, os)
  | Some app :: rest =>
    match AppConfig_clean app g os with
    | (app, Some err, os) => (Some app :: rest, Some err, os)
    | (app, None, os) =>
      match usedPorts !! ExternalPort app with
      | Some _ => (Some app :: rest, Some ErrDuplicateExternalPort, os)
      | None =>
        let usedPorts := <[ExternalPort app := true]> usedPorts in
        match cleanAppEntries rest g usedPorts os with
        | (rest, err, os) => (Some app :: rest, err, os)
        end
      end
    end
  end.

(** [Config.clean] of the configuration whose sections are those of [c] and
    whose [Apps] slice is [entries]; the field [Apps] of the record [c],
    which no [clean] reads, stays as it is.  The result is the sections as
    they are left, the entries as they are left, the error and the
    platform. *)
Definition Config_clean_entries (c : Config) (entries : list (option AppConfig))
    (os : OS) : Config * list (option AppConfig) * option error * OS :=
  let portRange := default {| From := 0; To := 0 |} (PortRange c) in
  let rpc := default {| Host := ""; Port := 0 |} (Rpc c) in
  let logger := default {| ChildLogDir := ""; LogFile := ""; MaxLogSize := 0;
                           MaxLogsKept := 0; MaxLogAge := 0 |} (Logger c) in
  let mk pr r lg u :=
    {| PortRange := Some pr; Apps := Apps c; Rpc := Some r; Logger := Some lg;
       GlobalUser := u |} in
  match InternalPortsConfig_clean portRange with
  | (portRange, Some err) =>
    (mk portRange rpc logger (GlobalUser c), entries, Some err, os)
  | (portRange, None) =>
    match RpcConfig_clean rpc with
    | (rpc, Some err) => (mk portRange rpc logger (GlobalUser c), entries, Some err, os)
    | (rpc, None) =>
      match LoggerConfig_clean logger os with
      | (logger, Some err, os) =>
        (mk portRange rpc logger (GlobalUser c), entries, Some err, os)
      | (logger, None, os) =>
        match (match GlobalUser c with
               | None => (None, None)
               | Some u => let '(u, err) := UserConfig_clean u os in (Some u, err)
               end) with
        | (u, Some err) => (mk portRange rpc logger u, entries, Some err, os)
        | (u, None) =>
          let g := mk portRange rpc logger u in
          match cleanAppEntries entries g ∅ os with
          | (entries, err, os) => (g, entries, err, os)
          end
        end
      end
    end
  end.

End CleanEntries.

(** The entries up to the first nil one. *)
Fixpoint beforeNil (entries : list (option AppConfig)) : list AppConfig :=
  match entries with
  | Some app :: rest => app :: beforeNil rest
  | _ => []
  end.

(** ** More vocabulary for the configuration *)

(** [c] with the fields [AppConfig.clean] may assign replaced. *)
Definition cleanedApp (c : AppConfig) (stopSignalName : string)
    (stopSignal : option os_Signal) (maxRetries : Z)
    (internalHost externalHost : string) (externalPort : Z)
    (stdoutLogFile stderrLogFile : string) (u : option UserConfig) : AppConfig :=
  {| Name := Name c; Command := Command c; Environment := Environment c;
     HealthCheck := HealthCheck c; StopSignal := stopSignal;
     StopSignalName := stopSignalName; MaxRetries := maxRetries;
     StartTimeout := StartTimeout c; StopTimeout := StopTimeout c;
     InternalHost := internalHost; ExternalHost := externalHost;
     ExternalPort := externalPort; StdoutLogFile := stdoutLogFile;
     StderrLogFile := stderrLogFile; User := u |}.

(** A string, or the default when it is empty. *)
Definition orDefault (given default : string) : string :=
  if String.eqb given "" then default else given.

(** The sections of [c] as [Config.clean] takes them up: a section left out
    is the zero value of its type. *)
Definition givenPortRange (c : Config) : InternalPortsConfig :=
  default {| From := 0; To := 0 |} (PortRange c).

Definition givenRpc (c : Config) : RpcConfig :=
  default {| Host := ""; Port := 0 |} (Rpc c).

Definition givenLogger (c : Config) : LoggerConfig :=
  default {| ChildLogDir := ""; LogFile := ""; MaxLogSize := 0;
             MaxLogsKept := 0; MaxLogAge := 0 |} (Logger c).

(** What the supervisor can count on in an app of a validated
    configuration. *)
Definition appReady (a : AppConfig) : Prop :=
  Name a <> "" /\ Command a <> ""
  /\ strings_Contains (Command a) "{port}" = true
  /\ StopSignalName a <> "" /\ is_Some (StopSignal a)
  /\ MaxRetries a <> 0
  /\ InternalHost a <> "" /\ ExternalHost a <> "" /\ ExternalPort a <> 0.

(** The errors [Config.clean] can end with. *)
Definition configError (e : error) : Prop :=
  e = ErrInvalidPortRange \/ e = ErrNameRequired \/ e = ErrCommandRequired
  \/ e = ErrPortBadgeRequired \/ e = ErrInvalidStopSignal
  \/ e = ErrDuplicateExternalPort \/ exists msg, e = ErrOS msg.

(* ===================================================================== *)
(** * Part II: theorems                                                   *)
(* ===================================================================== *)

(** ** The insertion sort of [sort.Stable] *)

Section SortFacts.
Context `{InstanceOps}.
Implicit Types (w : World) (v l : list ptr) (x y : ptr).

Lemma insert_at_length (pre : list ptr) (a b : ptr) (post : list ptr) :
  <[length pre := a]> (pre ++ b :: post) = pre ++ a :: post.
Proof. induction pre as [|c pre IH]; simpl; [done|]. by rewrite IH. Qed.

Lemma insert_after_length (pre : list ptr) (a b c : ptr) (post : list ptr) :
  <[S (length pre) := a]> (pre ++ b :: c :: post) = pre ++ b :: a :: post.
Proof. induction pre as [|d pre IH]; simpl; [done|]. by rewrite IH. Qed.

Lemma statusLess_key w x y :
  statusLess w x y = true <-> statusKey w y < statusKey w x.
Proof.
  unfold statusLess, statusKey, InstanceStatusStopping.
  destruct (Instance_status x w <=? 2) eqn:Hx, (Instance_status y w <=? 2) eqn:Hy;
    simpl; rewrite ?Z.gtb_ltb, ?Z.ltb_lt; lia.
Qed.

Lemma sinkRev_length w x l : length (sinkRev w x l) = S (length l).
Proof.
  induction l as [|y l IH]; simpl; [done|].
  destruct (statusLess w x y); simpl; by rewrite ?IH.
Qed.

(** The inner loop started at the position of [x] leaves [x] where
    [sinkRev] puts it. *)
Lemma insertionSort_inner_sinkRev w x before rest :
  insertionSort_inner w (reverse before ++ x :: rest) (length before)
  = reverse (sinkRev w x before) ++ rest.
Proof.
  revert rest. induction before as [|y before IH]; intros rest; simpl; [done|].
  rewrite reverse_cons, <- app_assoc. simpl.
  assert (Hx : (reverse before ++ y :: x :: rest) !! S (length before) = Some x).
  { rewrite lookup_app_r; rewrite length_reverse; [|lia].
    by replace (S (length before) - length before)%nat with 1%nat by lia. }
  assert (Hy : (reverse before ++ y :: x :: rest) !! length before = Some y).
  { rewrite lookup_app_r; rewrite length_reverse; [|lia].
    by rewrite Nat.sub_diag. }
  unfold InstanceStatusSort_Less, InstanceStatusSort_Swap.
  rewrite Hx, Hy.
  destruct (statusLess w x y) eqn:Hless.
  - replace (<[S (length before):=y]>
               (<[length before:=x]> (reverse before ++ y :: x :: rest)))
      with (reverse before ++ x :: y :: rest).
    + rewrite IH, reverse_cons. by rewrite <- app_assoc.
    + rewrite <- (length_reverse before).
      by rewrite insert_at_length, insert_after_length.
  - by rewrite !reverse_cons, <- !app_assoc.
Qed.

Lemma insertionSort_outer w before rest :
  fold_left (insertionSort_inner w) (seq (length before) (length rest))
            (reverse before ++ rest)
  = reverse (fold_left (fun acc x => sinkRev w x acc) rest before).
Proof.
  revert before. induction rest as [|x rest IH]; intros before; simpl.
  - by rewrite app_nil_r.
  - rewrite insertionSort_inner_sinkRev.
    rewrite <- (sinkRev_length w x before). apply IH.
Qed.

(** [sort.Stable] on the three methods is the insertion sort on the list. *)
Lemma sort_Stable_sinkRev w v :
  sort_Stable w v = reverse (fold_left (fun acc x => sinkRev w x acc) v []).
Proof.
  unfold sort_Stable, InstanceStatusSort_Len. destruct v as [|x v]; [done|].
  simpl. rewrite Nat.sub_0_r.
  apply (insertionSort_outer w [x] v).
Qed.

Lemma sinkRev_perm w x l : sinkRev w x l ≡ₚ x :: l.
Proof.
  induction l as [|y l IH]; simpl; [done|].
  destruct (statusLess w x y); [|done].
  rewrite IH. apply Permutation_swap.
Qed.

Lemma fold_sinkRev_perm w v acc :
  fold_left (fun acc x => sinkRev w x acc) v acc ≡ₚ v ++ acc.
Proof.
  revert acc. induction v as [|x v IH]; intros acc; simpl; [done|].
  rewrite IH, sinkRev_perm. by rewrite Permutation_middle.
Qed.

Lemma sort_Stable_perm w v : sort_Stable w v ≡ₚ v.
Proof.
  rewrite sort_Stable_sinkRev, reverse_Permutation, fold_sinkRev_perm.
  by rewrite app_nil_r.
Qed.

Lemma sort_Stable_length w v : length (sort_Stable w v) = length v.
Proof. by rewrite (sort_Stable_perm w v). Qed.

(** Stability: [x] never passes an instance of its own key. *)
Lemma sinkRev_filter w k x l :
  filter (fun i => statusKey w i = k) (sinkRev w x l)
  = filter (fun i => statusKey w i = k) (x :: l).
Proof.
  induction l as [|y l IH]; simpl; [done|].
  destruct (statusLess w x y) eqn:Hless; [|done].
  apply statusLess_key in Hless.
  rewrite (filter_cons _ y), IH, !filter_cons.
  repeat case_decide; try done; lia.
Qed.

Lemma fold_sinkRev_filter w k v acc :
  filter (fun i => statusKey w i = k) (fold_left (fun acc x => sinkRev w x acc) v acc)
  = filter (fun i => statusKey w i = k) (reverse v ++ acc).
Proof.
  revert acc. induction v as [|x v IH]; intros acc; simpl; [done|].
  rewrite IH, reverse_cons, <- app_assoc. simpl.
  by rewrite !filter_app, sinkRev_filter.
Qed.

Lemma sort_Stable_stable w k v :
  filter (fun i => statusKey w i = k) (sort_Stable w v)
  = filter (fun i => statusKey w i = k) v.
Proof.
  rewrite sort_Stable_sinkRev, filter_reverse, fold_sinkRev_filter.
  by rewrite app_nil_r, filter_reverse, reverse_involutive.
Qed.

(** Order: the prefix, read backwards, has keys that never decrease. *)
Lemma sinkRev_sorted w x l :
  StronglySorted (fun a b => statusKey w a <= statusKey w b) l ->
  StronglySorted (fun a b => statusKey w a <= statusKey w b) (sinkRev w x l).
Proof.
  induction l as [|y l IH]; simpl; intros Hs.
  - repeat constructor.
  - apply StronglySorted_inv in Hs as [Hl Hy].
    destruct (statusLess w x y) eqn:Hless.
    + apply statusLess_key in Hless. constructor; [by apply IH|].
      rewrite sinkRev_perm. constructor; [lia|done].
    + assert (statusKey w x <= statusKey w y).
      { destruct (decide (statusKey w y < statusKey w x)) as [Hlt|]; [|lia].
        apply statusLess_key in Hlt. congruence. }
      constructor; [by constructor|].
      constructor; [done|].
      eapply Forall_impl; [exact Hy|]. simpl. intros; lia.
Qed.

Lemma fold_sinkRev_sorted w v acc :
  StronglySorted (fun a b => statusKey w a <= statusKey w b) acc ->
  StronglySorted (fun a b => statusKey w a <= statusKey w b)
                 (fold_left (fun acc x => sinkRev w x acc) v acc).
Proof.
  revert acc. induction v as [|x v IH]; intros acc Hs; simpl; [done|].
  by apply IH, sinkRev_sorted.
Qed.

Lemma StronglySorted_reverse_flip (R : ptr -> ptr -> Prop) l :
  StronglySorted R l -> StronglySorted (fun a b => R b a) (reverse l).
Proof.
  induction 1 as [|x l Hl IH Hx]; [constructor|].
  rewrite reverse_cons. apply StronglySorted_app. split_and!.
  - intros a b Ha Hb. apply list_elem_of_singleton in Hb as ->.
    rewrite elem_of_reverse in Ha. rewrite Forall_forall in Hx. by apply Hx.
  - done.
  - repeat constructor.
Qed.

Lemma sort_Stable_sorted w v : keySorted w (sort_Stable w v).
Proof.
  unfold keySorted. rewrite sort_Stable_sinkRev.
  apply (StronglySorted_reverse_flip (fun a b => statusKey w a <= statusKey w b)).
  apply fold_sinkRev_sorted. constructor.
Qed.

Lemma terminal_key w i : terminal w i <-> statusKey w i = InstanceStatusStopping + 1.
Proof. unfold terminal, statusKey. lia. Qed.

Lemma live_key w i : live w i <-> statusKey w i <= InstanceStatusStopping.
Proof. unfold live, statusKey. lia. Qed.

Lemma live_status_key w i : live w i -> statusKey w i = Instance_status i w.
Proof. unfold live, statusKey. lia. Qed.

Lemma live_not_terminal w i : live w i <-> ~ terminal w i.
Proof. unfold live, terminal. lia. Qed.

Lemma filter_all (P : ptr -> Prop) `{forall i, Decision (P i)} l :
  Forall P l -> filter P l = l.
Proof.
  induction 1 as [|x l Hx Hl IH]; [done|].
  by rewrite filter_cons_True, IH.
Qed.

Lemma filter_none (P : ptr -> Prop) `{forall i, Decision (P i)} l :
  Forall (fun i => ~ P i) l -> filter P l = [].
Proof.
  induction 1 as [|x l Hx Hl IH]; [done|].
  by rewrite filter_cons_False.
Qed.

(** In a list ordered by key the terminal instances come first. *)
Lemma keySorted_split w l :
  keySorted w l -> l = filter (terminal w) l ++ filter (live w) l.
Proof.
  induction 1 as [|x l Hl IH Hx]; [done|].
  destruct (decide (terminal w x)) as [Ht|Hn].
  - rewrite filter_cons_True by done.
    rewrite (filter_cons_False (live w)) by (unfold live, terminal in *; lia).
    simpl. by rewrite <- IH.
  - assert (Hall : Forall (live w) l).
    { eapply Forall_impl; [exact Hx|]. simpl. intros y Hy.
      unfold live, terminal, statusKey in *. lia. }
    rewrite filter_cons_False by done.
    rewrite filter_none.
    + simpl. rewrite filter_cons_True by (unfold live, terminal in *; lia).
      by rewrite filter_all.
    + eapply Forall_impl; [exact Hall|]. intros y. unfold live, terminal. lia.
Qed.

(** Two lists ordered by key that agree key by key are the same list: the
    order of [Less] and stability fix the result of a sort. *)
Lemma keySorted_unique w l1 l2 :
  keySorted w l1 -> keySorted w l2 ->
  (forall k, filter (fun i => statusKey w i = k) l1
             = filter (fun i => statusKey w i = k) l2) ->
  l1 = l2.
Proof.
  intros Hs1. revert l2.
  induction Hs1 as [|x l1 Hl1 IH Hx]; intros l2 Hs2 Heq.
  - destruct l2 as [|y l2]; [done|].
    specialize (Heq (statusKey w y)). by rewrite filter_cons_True in Heq.
  - destruct Hs2 as [|y l2 Hl2 Hy].
    { specialize (Heq (statusKey w x)). by rewrite filter_cons_True in Heq. }
    assert (Hxy : statusKey w x <= statusKey w y).
    { assert (Hin : x ∈ filter (fun i => statusKey w i = statusKey w x) (y :: l2)).
      { rewrite <- Heq, filter_cons_True by done. left. }
      apply list_elem_of_filter in Hin as [_ Hin].
      apply elem_of_cons in Hin as [->|Hin]; [lia|].
      rewrite Forall_forall in Hy. by apply Hy. }
    assert (Hyx : statusKey w y <= statusKey w x).
    { assert (Hin : y ∈ filter (fun i => statusKey w i = statusKey w y) (x :: l1)).
      { rewrite Heq, filter_cons_True by done. left. }
      apply list_elem_of_filter in Hin as [_ Hin].
      apply elem_of_cons in Hin as [->|Hin]; [lia|].
      rewrite Forall_forall in Hx. by apply Hx. }
    assert (Hk : statusKey w x = statusKey w y) by lia.
    pose proof (Heq (statusKey w x)) as Hhd.
    rewrite !filter_cons_True in Hhd by done.
    injection Hhd as -> Htl. f_equal.
    apply IH; [done|]. intros k.
    destruct (decide (statusKey w y = k)) as [<-|Hne]; [done|].
    specialize (Heq k). by rewrite !filter_cons_False in Heq.
Qed.

(** [keySorted] is the order of [Less]: no instance is [Less] than one
    that stands before it. *)
Lemma keySorted_Less w l :
  keySorted w l <-> StronglySorted (fun x y => statusLess w y x = false) l.
Proof.
  unfold keySorted. split; intros Hs.
  - induction Hs as [|x l Hl IH Hx]; constructor; [done|].
    eapply Forall_impl; [exact Hx|]. simpl. intros y Hy.
    destruct (statusLess w y x) eqn:Hless; [|done].
    apply statusLess_key in Hless. lia.
  - induction Hs as [|x l Hl IH Hx]; constructor; [done|].
    eapply Forall_impl; [exact Hx|]. simpl. intros y Hy.
    destruct (decide (statusKey w x < statusKey w y)) as [Hlt|]; [|lia].
    apply statusLess_key in Hlt. congruence.
Qed.

(** Whatever is ordered by [Less] and keeps the instances of each key in
    the order they have in [v] is the result of [sort.Stable] on [v]. *)
Lemma sort_Stable_determined w v l :
  keySorted w l ->
  (forall k, filter (fun i => statusKey w i = k) l
             = filter (fun i => statusKey w i = k) v) ->
  l = sort_Stable w v.
Proof.
  intros Hs Hk. apply (keySorted_unique w); [done|apply sort_Stable_sorted|].
  intros k. by rewrite Hk, sort_Stable_stable.
Qed.

(** A list that is already ordered is left as it is, and only such a list. *)
Lemma sort_Stable_fixed w v : sort_Stable w v = v <-> keySorted w v.
Proof.
  split.
  - intros <-. apply sort_Stable_sorted.
  - intros Hs. apply (keySorted_unique w); [apply sort_Stable_sorted|done|].
    intros k. apply sort_Stable_stable.
Qed.

Lemma sort_Stable_terminal w v :
  filter (terminal w) (sort_Stable w v) = filter (terminal w) v.
Proof.
  rewrite !(list_filter_iff (terminal w)
              (fun i => statusKey w i = InstanceStatusStopping + 1))
    by apply terminal_key.
  apply sort_Stable_stable.
Qed.

Lemma filter_status_key w k l :
  k <= InstanceStatusStopping ->
  filter (fun i => Instance_status i w = k) l = filter (fun i => statusKey w i = k) l.
Proof.
  intros Hk. apply list_filter_iff. intros i. unfold statusKey. lia.
Qed.

(** Stability in terms of the status itself. *)
Lemma sort_Stable_status w k v :
  filter (fun i => Instance_status i w = k) (sort_Stable w v)
  = filter (fun i => Instance_status i w = k) v.
Proof.
  destruct (decide (k <= InstanceStatusStopping)) as [Hk|Hk].
  - rewrite !filter_status_key by done. apply sort_Stable_stable.
  - rewrite (keySorted_split w (sort_Stable w v)) at 1 by apply sort_Stable_sorted.
    rewrite filter_app, sort_Stable_terminal.
    rewrite (filter_none _ (filter (live w) _)).
    + rewrite app_nil_r.
      apply list_filter_filter_l. intros i. unfold terminal. lia.
    + apply Forall_forall. intros i Hi. apply list_elem_of_filter in Hi as [Hi _].
      unfold live in Hi. lia.
Qed.

Lemma sort_Stable_live_sorted w v :
  StronglySorted (fun i j => Instance_status j w <= Instance_status i w)
                 (filter (live w) (sort_Stable w v)).
Proof.
  pose proof (sort_Stable_sorted w v) as Hs. unfold keySorted in Hs.
  induction Hs as [|x l Hl IH Hx]; [constructor|].
  rewrite filter_cons. case_decide as Hlive; [|done].
  constructor; [done|].
  apply Forall_forall. intros y Hy. apply list_elem_of_filter in Hy as [Hy Hin].
  rewrite Forall_forall in Hx. specialize (Hx y Hin).
  by rewrite <- !live_status_key.
Qed.

End SortFacts.

(** ** The status report *)

Section ReportFacts.
Context `{InstanceOps}.
Implicit Types (w : World) (v l : list ptr) (s : Sys).

Lemma Report_instances displayN s :
  instances (app (snd (Report displayN s))) = sort_Stable (world s) (instances (app s)).
Proof.
  unfold Report. simpl.
  by destruct (Report_slice _ _).
Qed.

Lemma Report_world displayN s : world (snd (Report displayN s)) = world s.
Proof. unfold Report. simpl. by destruct (Report_slice _ _). Qed.

Lemma Report_result displayN s :
  report_Instances <$> fst (Report displayN s)
  = map (fun i => Instance_Report i (world s))
    <$> Report_slice (sort_Stable (world s) (instances (app s)))
                     (Report_from (Z.of_nat (length (instances (app s)))) displayN).
Proof. unfold Report. simpl. by destruct (Report_slice _ _). Qed.

Lemma Report_from_nat (n : nat) displayN :
  0 <= displayN ->
  Z.to_nat (Report_from (Z.of_nat n) displayN) = (n - Z.to_nat displayN)%nat.
Proof.
  intros Hd. unfold Report_from.
  destruct (Z.of_nat n >? displayN) eqn:Hgt; rewrite Z.gtb_ltb in Hgt.
  - apply Z.ltb_lt in Hgt. lia.
  - apply Z.ltb_ge in Hgt. lia.
Qed.

Lemma Report_slice_nonneg v (n : nat) displayN :
  0 <= displayN -> length v = n ->
  Report_slice v (Report_from (Z.of_nat n) displayN)
  = Some (drop (n - Z.to_nat displayN) v).
Proof.
  intros Hd Hn. unfold Report_slice. rewrite <- (Report_from_nat n displayN Hd).
  assert (Hr : 0 <= Report_from (Z.of_nat n) displayN <= Z.of_nat n).
  { unfold Report_from. destruct (Z.of_nat n >? displayN) eqn:Hgt; [|lia].
    rewrite Z.gtb_ltb in Hgt. apply Z.ltb_lt in Hgt. lia. }
  rewrite Hn.
  destruct (Report_from (Z.of_nat n) displayN <? 0) eqn:H1;
    [apply Z.ltb_lt in H1; lia|].
  destruct (Z.of_nat n <? Report_from (Z.of_nat n) displayN) eqn:H2;
    [apply Z.ltb_lt in H2; lia|].
  done.
Qed.

(** A negative [displayN] puts [from] beyond the end of the slice. *)
Lemma Report_negative displayN s :
  displayN < 0 -> fst (Report displayN s) = None.
Proof.
  intros Hd. unfold Report, Report_slice, Report_from. simpl.
  rewrite sort_Stable_length.
  set (n := Z.of_nat (length (instances (app s)))).
  assert (Hgt : (n >? displayN) = true) by (rewrite Z.gtb_ltb; apply Z.ltb_lt; lia).
  rewrite Hgt.
  assert (Hlt : (n <? n - displayN) = true) by (apply Z.ltb_lt; lia).
  rewrite Hlt. by rewrite orb_true_r.
Qed.

(** The order [Report] gives to the instances of the App. *)
Lemma Report_order_general displayN s :
  let w := world s in
  let v := instances (app s) in
  let sorted := instances (app (snd (Report displayN s))) in
  sorted = filter (terminal w) v ++ filter (live w) sorted
  /\ filter (live w) sorted ≡ₚ filter (live w) v
  /\ StronglySorted (fun i j => Instance_status j w <= Instance_status i w)
                    (filter (live w) sorted)
  /\ (forall k, filter (fun i => Instance_status i w = k) sorted
                = filter (fun i => Instance_status i w = k) v)
  /\ report_Instances <$> fst (Report displayN s)
     = map (fun i => Instance_Report i w)
       <$> Report_slice sorted (Report_from (Z.of_nat (length v)) displayN).
Proof.
  intros w v sorted. subst sorted. rewrite Report_instances. fold w v.
  split_and!.
  - rewrite <- sort_Stable_terminal. apply keySorted_split, sort_Stable_sorted.
  - by rewrite sort_Stable_perm.
  - apply sort_Stable_live_sorted.
  - intros k. apply sort_Stable_status.
  - apply Report_result.
Qed.

End ReportFacts.

(** C6 (amended).  The ordering of the Status Reporter puts every terminal
    instance (status above [Stopping]) before every instance that is
    [Serving], [Starting] or [Stopping]: the terminal instances come first, in
    their original relative order, and the others follow, ordered by
    descending status code, instances of equal status in their original
    relative order; the report lists the tail of that sequence.  For the
    statuses [Exited, Serving, Failed, Starting, Exited] the order is
    [Exited, Failed, Exited, Starting, Serving]. *)
Theorem C6_Report_order :
  (forall (ops : InstanceOps) (displayN : Z) (s : Sys),
     let w := world s in
     let v := instances (app s) in
     let sorted := instances (app (snd (Report displayN s))) in
     sorted = filter (terminal w) v ++ filter (live w) sorted
     /\ filter (live w) sorted ≡ₚ filter (live w) v
     /\ StronglySorted (fun i j => Instance_status j w <= Instance_status i w)
                       (filter (live w) sorted)
     /\ (forall k, filter (fun i => Instance_status i w = k) sorted
                   = filter (fun i => Instance_status i w = k) v)
     /\ report_Instances <$> fst (Report displayN s)
        = map (fun i => Instance_Report i w)
          <$> Report_slice sorted (Report_from (Z.of_nat (length v)) displayN))
  /\ report_Instances
     <$> fst (Report 5 (testSys 5 [1; 2; 3; 4; 5]%nat None exampleStatuses))
     = Some [(1%nat, InstanceStatusExited); (3%nat, InstanceStatusFailed);
             (5%nat, InstanceStatusExited); (4%nat, InstanceStatusStarting);
             (2%nat, InstanceStatusServing)].
Proof.
  split.
  - intros ops displayN s. apply Report_order_general.
  - reflexivity.
Qed.

(** C6, as the specification words it, does not hold: in the report of the
    example the terminal instances stand before [Starting] and [Serving]. *)
Lemma C6_counterexample :
  exists r,
    fst (Report 5 (testSys 5 [1; 2; 3; 4; 5]%nat None exampleStatuses)) = Some r
    /\ map fst (report_Instances r) = [1; 3; 5; 4; 2]%nat
    /\ ~ @liveFirst testOps exampleStatuses (map fst (report_Instances r)).
Proof.
  eexists. split; [reflexivity|]. split; [reflexivity|].
  intros Hfirst.
  specialize (Hfirst 4%nat 0%nat 2%nat 1%nat eq_refl eq_refl).
  unfold live, terminal in Hfirst. simpl in Hfirst.
  unfold InstanceStatusServing, InstanceStatusStopping, InstanceStatusExited in Hfirst.
  lia.
Qed.

(** C7 (amended).  [Report] leaves the configuration, [activeInstance], the
    id counter and the world as they were, and the instance sequence holds
    the same instances afterwards, but in the order of the status sort: the
    sequence is the one from before the call exactly when that one was
    already ordered by status key (terminal instances first, the others by
    descending status code). *)
Theorem C7_Report_frame (ops : InstanceOps) (displayN : Z) (s : Sys) :
  let s' := snd (Report displayN s) in
  instances (app s') = sort_Stable (world s) (instances (app s))
  /\ instances (app s') ≡ₚ instances (app s)
  /\ (instances (app s') = instances (app s) <-> keySorted (world s) (instances (app s)))
  /\ config (app s') = config (app s)
  /\ activeInstance (app s') = activeInstance (app s)
  /\ instanceId (app s') = instanceId (app s)
  /\ world s' = world s
  /\ trace s' = trace s.
Proof.
  intros s'. subst s'. rewrite Report_instances. split_and!.
  - done.
  - apply sort_Stable_perm.
  - apply sort_Stable_fixed.
  - unfold Report. simpl. by destruct (Report_slice _ _).
  - unfold Report. simpl. by destruct (Report_slice _ _).
  - unfold Report. simpl. by destruct (Report_slice _ _).
  - apply Report_world.
  - unfold Report. simpl. by destruct (Report_slice _ _).
Qed.

(** C7 at an App whose only instance has exited: the sequence is ordered, so
    the report leaves it alone. *)
Lemma C7_Report_frame_witness :
  @keySorted testOps exampleStatuses [1%nat]
  /\ instances (app (snd (Report 1 (testSys 5 [1%nat] None exampleStatuses)))) = [1%nat].
Proof.
  assert (Hs : @keySorted testOps exampleStatuses [1%nat]) by repeat constructor.
  split; [exact Hs|].
  pose proof (C7_Report_frame testOps 1 (testSys 5 [1%nat] None exampleStatuses)) as Hc.
  simpl in Hc. destruct Hc as (_ & _ & Hiff & _).
  apply Hiff. exact Hs.
Defined.

(** C7, as the specification words it, does not hold: after the report of the
    example the sequence 1, 2, 3, 4, 5 of the App has become 1, 3, 5, 4, 2. *)
Lemma C7_counterexample :
  instances (app (testSys 5 [1; 2; 3; 4; 5]%nat None exampleStatuses))
  = [1; 2; 3; 4; 5]%nat
  /\ instances (app (snd (Report 5 (testSys 5 [1; 2; 3; 4; 5]%nat None exampleStatuses))))
     = [1; 3; 5; 4; 2]%nat
  /\ instances (app (snd (Report 5 (testSys 5 [1; 2; 3; 4; 5]%nat None exampleStatuses))))
     <> instances (app (testSys 5 [1; 2; 3; 4; 5]%nat None exampleStatuses)).
Proof. split; [reflexivity|]. split; [reflexivity|]. discriminate. Qed.

Section ReportTail.
Context `{InstanceOps}.

Lemma drop_keeps_tail (front back : list ptr) (k : nat) :
  (k <= length front)%nat -> forall i, i ∈ back -> i ∈ drop k (front ++ back).
Proof.
  intros Hk i Hi. rewrite drop_app_le by done. apply elem_of_app. by right.
Qed.

(** What [Report] shows for a [displayN] that is not negative. *)
Lemma Report_tail_general (displayN : Z) (s : Sys) :
  0 <= displayN ->
  let w := world s in
  let v := instances (app s) in
  let shown := drop (length v - Z.to_nat displayN) (sort_Stable w v) in
  (exists r, fst (Report displayN s) = Some r
             /\ report_Instances r = map (fun i => Instance_Report i w) shown)
  /\ (Z.of_nat (length v) <= displayN -> shown = sort_Stable w v /\ shown ≡ₚ v)
  /\ (displayN < Z.of_nat (length v) -> length shown = Z.to_nat displayN)
  /\ ((length (filter (live w) v) <= Z.to_nat displayN)%nat ->
      forall i, i ∈ v -> live w i -> i ∈ shown).
Proof.
  intros Hd w v shown. split_and!.
  - unfold Report. simpl. fold w v.
    rewrite (Report_slice_nonneg _ (length v) displayN Hd (sort_Stable_length w v)).
    eexists. split; reflexivity.
  - intros Hle. subst shown.
    replace (length v - Z.to_nat displayN)%nat with 0%nat by lia.
    rewrite drop_0. split; [done|apply sort_Stable_perm].
  - intros Hlt. subst shown. rewrite length_drop, sort_Stable_length. lia.
  - intros Hlive i Hi Hl. subst shown.
    rewrite (keySorted_split w (sort_Stable w v)) by apply sort_Stable_sorted.
    apply drop_keeps_tail.
    + pose proof (keySorted_split w (sort_Stable w v) (sort_Stable_sorted w v)) as Hsplit.
      apply (f_equal length) in Hsplit.
      rewrite length_app, sort_Stable_length in Hsplit.
      rewrite (sort_Stable_perm w v) in Hsplit at 2. lia.
    + apply list_elem_of_filter. split; [done|]. by rewrite sort_Stable_perm.
Qed.

End ReportTail.

(** C8 (amended).  For a [displayN] that is not negative, the instances whose
    summaries appear in [Report(displayN)] are the last [displayN] entries
    of the status-sorted sequence (terminal instances first, then the others),
    not of the creation order: when the App has more than [displayN]
    instances exactly [displayN] are shown, and every instance that is
    [Serving], [Starting] or [Stopping] is among them as long as there are at
    most [displayN] of those; when the App has at most [displayN] instances
    all of them appear. *)
Theorem C8_Report_tail (ops : InstanceOps) (displayN : Z) (s : Sys) :
  0 <= displayN ->
  let w := world s in
  let v := instances (app s) in
  let shown := drop (length v - Z.to_nat displayN) (sort_Stable w v) in
  (exists r, fst (Report displayN s) = Some r
             /\ report_Instances r = map (fun i => Instance_Report i w) shown)
  /\ (Z.of_nat (length v) <= displayN -> shown = sort_Stable w v /\ shown ≡ₚ v)
  /\ (displayN < Z.of_nat (length v) -> length shown = Z.to_nat displayN)
  /\ ((length (filter (live w) v) <= Z.to_nat displayN)%nat ->
      forall i, i ∈ v -> live w i -> i ∈ shown).
Proof. apply Report_tail_general. Qed.

(** C8 on the example with room for two summaries: the two shown are
    instances 4 and 2, the ones still alive. *)
Lemma C8_Report_tail_witness :
  0 <= 2
  /\ exists r,
       fst (Report 2 (testSys 5 [1; 2; 3; 4; 5]%nat None exampleStatuses)) = Some r
       /\ report_Instances r
          = map (fun i => @Instance_Report testOps i exampleStatuses)
                (drop 3 (@sort_Stable testOps exampleStatuses [1; 2; 3; 4; 5]%nat)).
Proof.
  split; [lia|].
  destruct (C8_Report_tail testOps 2
              (testSys 5 [1; 2; 3; 4; 5]%nat None exampleStatuses)) as [Hr _]; [lia|].
  exact Hr.
Defined.

(** C8, as the specification words it, does not hold: of a serving instance 1
    and a newer, exited instance 2, [Report(1)] shows instance 1, not the most
    recently created one. *)
Lemma C8_counterexample :
  let w : testWorld := fun i => if Nat.eqb i 1 then InstanceStatusServing
                                else InstanceStatusExited in
  exists r,
    fst (Report 1 (testSys 5 [1; 2]%nat (Some 1%nat) w)) = Some r
    /\ map fst (report_Instances r) = [1%nat]
    /\ drop (2 - 1) [1; 2]%nat = [2%nat]
    /\ ~ (map fst (report_Instances r) ≡ₚ drop (2 - 1) [1; 2]%nat).
Proof.
  intros w. eexists. split; [reflexivity|]. split; [reflexivity|].
  split; [reflexivity|].
  simpl. intros Hp. apply Permutation_singleton_inj in Hp. discriminate.
Qed.

(** ** Configuration *)

Section StringFacts.

Lemma append_cons (a : ascii) (p q : string) :
  String a p +:+ q = String a (p +:+ q).
Proof. reflexivity. Qed.

Lemma append_nil (q : string) : "" +:+ q = q.
Proof. reflexivity. Qed.

Lemma prefix_app (p s : string) :
  String.prefix p s = true <-> exists post, s = p +:+ post.
Proof.
  revert s. induction p as [|a p IH]; intros [|b s]; simpl.
  - split; [intros _; by exists ""|done].
  - split; [intros _; by exists (String b s)|done].
  - split; [done|]. by intros [post Hpost].
  - destruct (Ascii.ascii_dec a b) as [->|Hne].
    + rewrite IH. split; intros [post Hpost]; exists post;
        rewrite append_cons in *; congruence.
    + split; [done|]. intros [post Hpost]. rewrite append_cons in Hpost. congruence.
Qed.

(** [strings_Contains] finds exactly the occurrences of [substr]. *)
Lemma strings_Contains_spec (s substr : string) :
  strings_Contains s substr = true <-> exists pre post, s = pre +:+ substr +:+ post.
Proof.
  induction s as [|a s IH].
  - cbn [strings_Contains]. rewrite orb_false_r, prefix_app. split.
    + intros [post Hpost]. by exists "", post.
    + intros (pre & post & Heq). destruct pre; [by exists post|].
      by rewrite append_cons in Heq.
  - cbn [strings_Contains]. rewrite orb_true_iff, prefix_app, IH. split.
    + intros [[post Hpost]|(pre & post & Heq)].
      * by exists "", post.
      * exists (String a pre), post. by rewrite append_cons, Heq.
    + intros (pre & post & Heq). destruct pre as [|b pre].
      * left. by exists post.
      * right. exists pre, post. rewrite append_cons in Heq. congruence.
Qed.

End StringFacts.

Section CleanFacts.
Context `{Platform}.

(** One [let] of a definition at a time: the bound value gets a name. *)
Ltac step_let H c' :=
  match type of H with
  | (let x := ?v in @?body x) = ?r =>
    set (c' := v) in H; change (body c' = r) in H; cbv beta in H
  end.

(** [c1] is [c0] with some field other than [MaxRetries] and [ExternalPort]
    possibly assigned. *)
Ltac frame_step c1 c0 Hm Hp :=
  assert (Hm : MaxRetries c1 = MaxRetries c0) by (subst c1; by repeat case_match);
  assert (Hp : ExternalPort c1 = ExternalPort c0) by (subst c1; by repeat case_match);
  clearbody c1.

Lemma hasPortBadge_Contains c :
  hasPortBadge c = strings_Contains (Command c) "{port}".
Proof. unfold hasPortBadge. by case_match. Qed.

(** Every way [AppConfig.clean] can end. *)
Lemma AppConfig_clean_cases c g os c' err os' :
  AppConfig_clean c g os = (c', err, os') ->
  (Name c = "" /\ err = Some ErrNameRequired)
  \/ (Name c <> "" /\ Command c = "" /\ err = Some ErrCommandRequired)
  \/ (Name c <> "" /\ Command c <> ""
      /\ strings_Contains (Command c) "{port}" = false
      /\ err = Some ErrPortBadgeRequired)
  \/ (Name c <> "" /\ Command c <> ""
      /\ strings_Contains (Command c) "{port}" = true
      /\ (err = Some ErrInvalidStopSignal
          \/ ((err = None \/ err = Some PanicNilPointer \/ exists msg, err = Some (ErrOS msg))
              /\ MaxRetries c'
                 = (if MaxRetries c =? 0 then defaultMaxRetries else MaxRetries c)
              /\ ExternalPort c' = defaultedPort c))).
Proof.
  intros Hclean. unfold defaultedPort.
  cbv delta [AppConfig_clean] in Hclean. cbv beta in Hclean.
  destruct (String.eqb (Name c) "") eqn:Hn.
  { apply String.eqb_eq in Hn. left. by simplify_eq. }
  apply String.eqb_neq in Hn.
  destruct (String.eqb (Command c) "") eqn:Hc.
  { apply String.eqb_eq in Hc. right; left. by simplify_eq. }
  apply String.eqb_neq in Hc.
  destruct (hasPortBadge c) eqn:Hb; rewrite hasPortBadge_Contains in Hb;
    cbv beta iota delta [negb] in Hclean.
  2: { right; right; left. by simplify_eq. }
  right; right; right. split_and!; try done.
  step_let Hclean c1. frame_step c1 c Hm1 Hp1.
  destruct (Signals (StopSignalName c1)) as [signal|] eqn:Hsig.
  2: { left. by simplify_eq. }
  right.
  step_let Hclean c2. frame_step c2 c1 Hm2 Hp2.
  step_let Hclean c3.
  assert (Hm3 : MaxRetries c3
                = if MaxRetries c2 =? 0 then defaultMaxRetries else MaxRetries c2)
    by (subst c3; destruct (MaxRetries c2 =? 0); reflexivity).
  assert (Hp3 : ExternalPort c3 = ExternalPort c2)
    by (subst c3; destruct (MaxRetries c2 =? 0); reflexivity).
  clearbody c3.
  step_let Hclean c4. frame_step c4 c3 Hm4 Hp4.
  step_let Hclean c5. frame_step c5 c4 Hm5 Hp5.
  step_let Hclean c6.
  assert (Hm6 : MaxRetries c6 = MaxRetries c5)
    by (subst c6; destruct (ExternalPort c5 =? 0); reflexivity).
  assert (Hp6 : ExternalPort c6
                = if ExternalPort c5 =? 0 then defaultExternalPort else ExternalPort c5)
    by (subst c6; destruct (ExternalPort c5 =? 0); reflexivity).
  clearbody c6.
  rewrite Hm5, Hm4, Hm3, Hm2, Hm1 in Hm6.
  rewrite Hp5, Hp4, Hp3, Hp2, Hp1 in Hp6.
  clear - Hclean Hm6 Hp6.
  destruct (defaultLogPath g (StdoutLogFile c6) _) as [out|].
  2: { simplify_eq. split_and!; eauto. }
  destruct (defaultLogPath g (StderrLogFile c6) _) as [err'|].
  2: { simplify_eq. split_and!; eauto. }
  step_let Hclean c7. frame_step c7 c6 Hm7 Hp7.
  step_let Hclean c8. frame_step c8 c7 Hm8 Hp8.
  rewrite Hm7 in Hm8. rewrite Hp7 in Hp8. rewrite Hm6 in Hm8. rewrite Hp6 in Hp8.
  clear - Hclean Hm8 Hp8.
  destruct (os_MkdirAll (path_Dir (StdoutLogFile c8)) os) as [[msg|] os1].
  { simplify_eq. split_and!; eauto. }
  destruct (os_MkdirAll (path_Dir (StderrLogFile c8)) os1) as [[msg|] os2].
  { simplify_eq. split_and!; eauto. }
  step_let Hclean c9. frame_step c9 c8 Hm9 Hp9.
  rewrite Hm8 in Hm9. rewrite Hp8 in Hp9.
  clear - Hclean Hm9 Hp9.
  destruct (User c9) as [u|].
  2: { simplify_eq. split_and!; eauto. }
  destruct (UserConfig_clean u os2) as [u0 [e|]] eqn:Hu.
  - simplify_eq. split_and!; [|done..].
    unfold UserConfig_clean in Hu. repeat case_match; simplify_eq; eauto.
  - simplify_eq. split_and!; [eauto|done..].
Qed.

(** What a successful [AppConfig.clean] has checked and set. *)
Lemma AppConfig_clean_ok c g os c' os' :
  AppConfig_clean c g os = (c', None, os') ->
  Name c <> "" /\ Command c <> ""
  /\ strings_Contains (Command c) "{port}" = true
  /\ MaxRetries c' = (if MaxRetries c =? 0 then defaultMaxRetries else MaxRetries c)
  /\ ExternalPort c' = defaultedPort c.
Proof.
  intros Hclean. apply AppConfig_clean_cases in Hclean.
  destruct Hclean as [[_ ?]|[(_ & _ & ?)|[(_ & _ & _ & ?)|(Hn & Hc & Hb & Hrest)]]];
    try done.
  destruct Hrest as [?|(_ & Hm & Hp)]; done.
Qed.

(** [AppConfig.clean] never answers with the error of [Config.clean]. *)
Lemma AppConfig_clean_not_duplicate c g os c' os' :
  AppConfig_clean c g os <> (c', Some ErrDuplicateExternalPort, os').
Proof.
  intros Hclean. apply AppConfig_clean_cases in Hclean.
  destruct Hclean as [[_ ?]|[(_ & _ & ?)|[(_ & _ & _ & ?)|(_ & _ & _ & Hrest)]]];
    try done.
  destruct Hrest as [?|([?|[?|[msg ?]]] & _)]; done.
Qed.

(** [AppConfig.clean] answers [ErrPortBadgeRequired] exactly when the command
    lacks the placeholder; the environment is not consulted. *)
Lemma AppConfig_clean_port_badge c g os :
  Name c <> "" -> Command c <> "" ->
  (snd (fst (AppConfig_clean c g os)) = Some ErrPortBadgeRequired
   <-> strings_Contains (Command c) "{port}" = false).
Proof.
  intros Hn Hc.
  destruct (AppConfig_clean c g os) as [[c' err] os'] eqn:Hclean. simpl.
  apply AppConfig_clean_cases in Hclean.
  destruct Hclean as [[? _]|[(_ & ? & _)|[(_ & _ & Hb & ->)|(_ & _ & Hb & Hrest)]]];
    try done.
  rewrite Hb. split; [|done]. intros ->.
  destruct Hrest as [?|([?|[?|[msg ?]]] & _)]; done.
Qed.

(** The loop over the apps, for any [usedPorts] it starts with. *)
Lemma cleanApps_spec apps g (m : gmap Z bool) os apps' err os' :
  cleanApps apps g m os = (apps', err, os') ->
  (err = Some ErrDuplicateExternalPort ->
   exists j b, apps !! j = Some b
     /\ (is_Some (m !! defaultedPort b)
         \/ exists i a, (i < j)%nat /\ apps !! i = Some a
                        /\ defaultedPort a = defaultedPort b))
  /\ (err = None ->
      NoDup (defaultedPort <$> apps)
      /\ Forall (fun a => m !! defaultedPort a = None) apps).
Proof.
  revert m os apps' err os'.
  induction apps as [|app rest IH]; intros m os apps' err os' Hrun; simpl in Hrun.
  - simplify_eq. split; [done|]. intros _. split; constructor.
  - destruct (AppConfig_clean app g os) as [[app1 [e|]] os1] eqn:Hclean.
    { simplify_eq. split; [|done]. intros [= ->].
      by apply AppConfig_clean_not_duplicate in Hclean. }
    apply AppConfig_clean_ok in Hclean as (_ & _ & _ & _ & Hport).
    rewrite Hport in Hrun.
    destruct (m !! defaultedPort app) as [used|] eqn:Hused.
    { simplify_eq. split; [|done]. intros _.
      exists 0%nat, app. split; [done|]. left. by rewrite Hused. }
    destruct (cleanApps rest g (<[defaultedPort app:=true]> m) os1)
      as [[rest' err1] os2] eqn:Hrest.
    simplify_eq. apply IH in Hrest as [Hdup Hnone]. split.
    + intros Herr. destruct (Hdup Herr) as (j & b & Hb & Hwhy).
      exists (S j), b. split; [done|].
      destruct Hwhy as [Hin|(i & a & Hij & Ha & Heq)].
      * destruct (decide (defaultedPort app = defaultedPort b)) as [Heq|Hne].
        -- right. exists 0%nat, app. split; [lia|]. by split.
        -- left. by rewrite lookup_insert_ne in Hin.
      * right. exists (S i), a. split; [lia|]. by split.
    + intros Herr. destruct (Hnone Herr) as [Hnd Hall]. split.
      * rewrite fmap_cons. constructor; [|done].
        intros Hin. apply list_elem_of_fmap in Hin as (b & Heq & Hb).
        rewrite Forall_forall in Hall. specialize (Hall b Hb).
        rewrite <- Heq, lookup_insert_eq in Hall. done.
      * constructor; [done|].
        eapply Forall_impl; [exact Hall|]. simpl. intros b Hb.
        apply lookup_insert_None in Hb. tauto.
Qed.

(** The errors of the global sections are not the duplicate-port error, so
    [Config.clean] answers with it, or with nil, only out of the loop. *)
Lemma Config_clean_from_loop c os :
  let err := snd (fst (Config_clean c os)) in
  err = None \/ err = Some ErrDuplicateExternalPort ->
  exists g os1 apps' os2,
    cleanApps (Apps c) g ∅ os1 = (apps', err, os2).
Proof.
  intros err. subst err. unfold Config_clean.
  unfold InternalPortsConfig_clean, RpcConfig_clean, LoggerConfig_clean, UserConfig_clean.
  repeat (case_match; simplify_eq/=; try (intros [?|?]; done)).
  all: intros _; eauto.
Qed.

End CleanFacts.

(** C5.  An app with name and command whose environment holds the
    placeholder but whose command does not is refused by [AppConfig.clean]
    with [ErrPortBadgeRequired]: [hasPortBadge] reads the command only, while
    the message of that error speaks of command or environment. *)
Theorem C5_environment_badge_refused :
  let c := appEntry "web" "run" ["PORT={port}"] in
  Name c <> "" /\ Command c <> ""
  /\ existsb (fun e => strings_Contains e "{port}") (Environment c) = true
  /\ strings_Contains (Command c) "{port}" = false
  /\ snd (fst (@AppConfig_clean testPlatform c (configOf []) tt))
     = Some ErrPortBadgeRequired.
Proof. intros c. split_and!; [done|done|..]; vm_compute; reflexivity. Qed.

(** C9 (amended).  For every AppConfig that passes validation, the resulting
    [MaxRetries] is not zero: [AppConfig.clean] replaces the value 0 (also the
    one of an omitted [max_retries]) by the default 5 and leaves any other
    value as it is, negative ones included; the result is at least 1 whenever
    the configured value is not negative. *)
Theorem C9_MaxRetries_default (P : Platform) (c : AppConfig) (g : Config) (os : OS)
    (c' : AppConfig) (os' : OS) :
  AppConfig_clean c g os = (c', None, os') ->
  MaxRetries c' = (if MaxRetries c =? 0 then 5 else MaxRetries c)
  /\ MaxRetries c' <> 0
  /\ (0 <= MaxRetries c -> 1 <= MaxRetries c').
Proof.
  intros Hclean. apply AppConfig_clean_ok in Hclean as (_ & _ & _ & Hm & _).
  unfold defaultMaxRetries in Hm. rewrite Hm.
  destruct (MaxRetries c =? 0) eqn:Hz.
  - split_and!; [done|lia|lia].
  - apply Z.eqb_neq in Hz. split_and!; [done|done|lia].
Qed.

(** C9 at an app that omits [max_retries]: it is given five retries. *)
Lemma C9_MaxRetries_default_witness :
  let c := appEntry "web" "run {port}" [] in
  let r := @AppConfig_clean testPlatform c cleanedGlobals tt in
  r = (fst (fst r), None, tt)
  /\ 0 <= MaxRetries c
  /\ MaxRetries (fst (fst r)) = 5
  /\ 1 <= MaxRetries (fst (fst r)).
Proof.
  intros c r.
  assert (Hrun : r = (fst (fst r), None, tt)) by (vm_compute; reflexivity).
  assert (Hc : 0 <= MaxRetries c) by (vm_compute; discriminate).
  destruct (C9_MaxRetries_default testPlatform c cleanedGlobals tt _ _ Hrun)
    as (Hm & _ & Hge).
  split_and!; [exact Hrun|exact Hc|exact Hm|exact (Hge Hc)].
Defined.

(** C9, as the specification words it, does not hold: [max_retries: -1] passes
    validation and stays -1, which is below 1. *)
Lemma C9_counterexample :
  let r := @AppConfig_clean testPlatform
             (set_MaxRetries (-1) (appEntry "web" "run {port}" [])) cleanedGlobals tt in
  snd (fst r) = None
  /\ MaxRetries (fst (fst r)) = -1
  /\ ~ (1 <= MaxRetries (fst (fst r))).
Proof.
  intros r. assert (Hm : MaxRetries (fst (fst r)) = -1) by (vm_compute; reflexivity).
  split; [vm_compute; reflexivity|]. split; [exact Hm|]. rewrite Hm. lia.
Qed.

Section DuplicatePorts.
Context `{Platform}.

Lemma portsCollide_NoDup apps :
  NoDup (defaultedPort <$> apps) -> ~ portsCollide apps.
Proof.
  intros Hnd (i & j & a & b & Hij & Ha & Hb & Heq).
  assert (i = j); [|lia].
  eapply NoDup_lookup; [exact Hnd| |].
  - rewrite list_lookup_fmap, Ha. reflexivity.
  - rewrite list_lookup_fmap, Hb. simpl. by rewrite Heq.
Qed.

Lemma Config_clean_duplicate c os :
  snd (fst (Config_clean c os)) = Some ErrDuplicateExternalPort ->
  portsCollide (Apps c).
Proof.
  intros Herr.
  destruct (Config_clean_from_loop c os) as (g & os1 & apps' & os2 & Hloop);
    [by right|].
  apply cleanApps_spec in Hloop as [Hdup _].
  destruct (Hdup Herr) as (j & b & Hb & [Hin|(i & a & Hij & Ha & Heq)]).
  - rewrite lookup_empty in Hin. by destruct Hin.
  - by exists i, j, a, b.
Qed.

Lemma Config_clean_nil c os :
  snd (fst (Config_clean c os)) = None -> NoDup (defaultedPort <$> Apps c).
Proof.
  intros Herr.
  destruct (Config_clean_from_loop c os) as (g & os1 & apps' & os2 & Hloop);
    [by left|].
  apply cleanApps_spec in Hloop as [_ Hnone]. by apply Hnone.
Qed.

End DuplicatePorts.

(** C10 (amended).  [Config.clean] returns the first validation error it
    meets.  Whenever that leaves it to return either nil or
    [ErrDuplicateExternalPort], it returns [ErrDuplicateExternalPort] if and
    only if two apps have equal external ports once a zero is replaced by the
    default 8080; a returned [ErrDuplicateExternalPort] always means two such
    apps, and a configuration of two or more apps that all omit
    [external_port] is never accepted. *)
Theorem C10_duplicate_ports (P : Platform) (c : Config) (os : OS) :
  let err := snd (fst (Config_clean c os)) in
  (err = Some ErrDuplicateExternalPort -> portsCollide (Apps c))
  /\ (err = None -> ~ portsCollide (Apps c))
  /\ (err = None \/ err = Some ErrDuplicateExternalPort ->
      (err = Some ErrDuplicateExternalPort <-> portsCollide (Apps c)))
  /\ ((2 <= length (Apps c))%nat ->
      Forall (fun a => ExternalPort a = 0) (Apps c) ->
      err <> None).
Proof.
  intros err.
  assert (Hdup : err = Some ErrDuplicateExternalPort -> portsCollide (Apps c))
    by apply Config_clean_duplicate.
  assert (Hnil : err = None -> ~ portsCollide (Apps c)).
  { intros Herr. by apply portsCollide_NoDup, (Config_clean_nil c os). }
  split_and!; [done|done| |].
  - intros Hor. split; [exact Hdup|]. intros Hcol.
    destruct Hor as [Herr|Herr]; [by destruct (Hnil Herr)|done].
  - intros Hlen Hzero Herr. apply (Hnil Herr).
    destruct (Apps c) as [|a [|b rest]]; simpl in Hlen; [lia|lia|].
    exists 0%nat, 1%nat, a, b. split_and!; [lia|done|done|].
    apply Forall_cons in Hzero as [Ha Hzero]. apply Forall_cons in Hzero as [Hb _].
    unfold defaultedPort. by rewrite Ha, Hb.
Qed.

(** C10 on two apps that both omit [external_port]: both default to 8080
    and the configuration is refused with [ErrDuplicateExternalPort]. *)
Lemma C10_duplicate_ports_witness :
  let c := configOf [appEntry "web" "run {port}" []; appEntry "api" "serve {port}" []] in
  snd (fst (@Config_clean testPlatform c tt)) = Some ErrDuplicateExternalPort
  /\ portsCollide (Apps c).
Proof.
  intros c.
  assert (Herr : snd (fst (@Config_clean testPlatform c tt))
                 = Some ErrDuplicateExternalPort) by (vm_compute; reflexivity).
  split; [exact Herr|].
  destruct (C10_duplicate_ports testPlatform c tt) as (Hdup & _).
  exact (Hdup Herr).
Defined.

(** C10, as the specification words it, does not hold: with a port range that
    is refused, two apps on the same external port 9000 get
    [ErrInvalidPortRange], not [ErrDuplicateExternalPort]. *)
Lemma C10_counterexample :
  let c := {| PortRange := Some {| From := 7; To := 7 |};
              Apps := [set_ExternalPort 9000 (appEntry "web" "run {port}" []);
                       set_ExternalPort 9000 (appEntry "api" "serve {port}" [])];
              Rpc := None; Logger := None; GlobalUser := None |} in
  portsCollide (Apps c)
  /\ ExternalPort <$> Apps (fst (fst (@Config_clean testPlatform c tt))) = [9000; 9000]
  /\ snd (fst (@Config_clean testPlatform c tt)) = Some ErrInvalidPortRange
  /\ snd (fst (@Config_clean testPlatform c tt)) <> Some ErrDuplicateExternalPort.
Proof.
  intros c.
  assert (Herr : snd (fst (@Config_clean testPlatform c tt)) = Some ErrInvalidPortRange)
    by (vm_compute; reflexivity).
  split_and!.
  - exists 0%nat, 1%nat, (set_ExternalPort 9000 (appEntry "web" "run {port}" [])),
      (set_ExternalPort 9000 (appEntry "api" "serve {port}" [])).
    split_and!; [lia|done|done|done].
  - vm_compute. reflexivity.
  - exact Herr.
  - rewrite Herr. discriminate.
Qed.

(** ** The request router *)

(** The events of a run written out. *)
Ltac trace_out :=
  unfold events, emit, setWorld, setActiveInstance, setInstances, setInstanceId;
  simpl; rewrite ?map_app; simpl; rewrite <- ?app_assoc; simpl.

Section RouterFacts.
Context `{InstanceOps}.
Implicit Types (s : Sys) (i : ptr).

Lemma events_emit e s : events (trace (emit e s)) = events (trace s) ++ [e].
Proof. unfold events, emit. simpl. by rewrite map_app. Qed.

Lemma events_setWorld w s : events (trace (setWorld w s)) = events (trace s).
Proof. done. Qed.

Lemma reserveInstance_active s i :
  activeInstance (app s) = Some i ->
  fst (reserveInstance s) = (Some i, None)
  /\ events (trace (snd (reserveInstance s)))
     = events (trace s) ++ [Lock; CallServe i; Unlock].
Proof.
  intros Hactive. unfold reserveInstance. simpl. rewrite Hactive.
  split; [done|]. by trace_out.
Qed.

Lemma reserveInstance_none s :
  activeInstance (app s) = None ->
  fst (reserveInstance s) = (None, Some ErrNoActiveInstances)
  /\ events (trace (snd (reserveInstance s))) = events (trace s) ++ [Lock; Unlock].
Proof.
  intros Hactive. unfold reserveInstance. simpl. rewrite Hactive.
  split; [done|]. by trace_out.
Qed.

Lemma ServeHTTP_active req s i :
  activeInstance (app s) = Some i ->
  exists target,
    events (trace (snd (ServeHTTP req s)))
    = events (trace s)
      ++ [Lock; CallServe i; Unlock; CallProxy target (fst (ServeHTTP req s)); CallDone i].
Proof.
  intros Hactive. unfold ServeHTTP, reserveInstance. simpl. rewrite Hactive. simpl.
  destruct (rp_ServeHTTP _ _) as [r w] eqn:Hproxy.
  eexists. by trace_out.
Qed.

Lemma ServeHTTP_none req s :
  activeInstance (app s) = None ->
  fst (ServeHTTP req s) = Returned
  /\ exists logged,
       events (trace (snd (ServeHTTP req s)))
       = events (trace s) ++ [Lock; Unlock; WriteHeader 503; CallBodyClose] ++ logged
       /\ (logged = [] \/ exists e, logged = [LogPrint e]).
Proof.
  intros Hactive. unfold ServeHTTP, reserveInstance. simpl. rewrite Hactive. simpl.
  destruct (Body_Close _) as [[ce|] w] eqn:Hclose; simpl; (split; [done|]).
  - exists [LogPrint ce]. split; [by trace_out|]. right. by exists ce.
  - exists []. split; [by trace_out|]. by left.
Qed.

(** The request as [ServeHTTP] hands it to the reverse proxy. *)
Lemma ServeHTTP_active_run req s i :
  activeInstance (app s) = Some i ->
  let served := Instance_Serve i (world s) in
  let target := Instance_internalHostPort i served in
  let proxied :=
    rp_ServeHTTP {| URL_Scheme := "http"; URL_Host := target;
                    RemoteAddr := RemoteAddr req;
                    Header := Header req
                              ++ [("X-Real-IP", net_SplitHostPort (RemoteAddr req))] |}
                 served in
  world (snd (reserveInstance s)) = served
  /\ fst (ServeHTTP req s) = fst proxied
  /\ events (trace (snd (ServeHTTP req s)))
     = events (trace s)
       ++ [Lock; CallServe i; Unlock; CallProxy target (fst proxied); CallDone i]
  /\ world (snd (ServeHTTP req s)) = Instance_Done i (snd proxied).
Proof.
  intros Hactive. unfold ServeHTTP, reserveInstance. simpl. rewrite Hactive. simpl.
  destruct (rp_ServeHTTP _ _) as [r w] eqn:Hproxy. simpl.
  split_and!; [done|done|by trace_out|done].
Qed.

Lemma ServeHTTP_none_world req s :
  activeInstance (app s) = None ->
  world (snd (reserveInstance s)) = world s
  /\ world (snd (ServeHTTP req s)) = snd (Body_Close (world s)).
Proof.
  intros Hactive. unfold ServeHTTP, reserveInstance. simpl. rewrite Hactive. simpl.
  by destruct (Body_Close _) as [[ce|] w].
Qed.

End RouterFacts.

(** C4.  When [reserveInstance] succeeds, which it does exactly when there is
    an active instance, [Serve] is called once on the instance it returns,
    between taking and releasing the lock, and [ServeHTTP] calls [Done] once
    on that same instance as its last step, whether the proxy returns or
    panics: the world [reserveInstance] leaves is the one [Serve] on that
    instance makes, the reverse proxy is given the request, addressed to
    the instance, in that world, and the world [ServeHTTP] leaves is the one
    [Done] on that instance makes of the proxy's.  When [reserveInstance]
    fails with [ErrNoActiveInstances], neither [Serve] nor [Done] is called:
    [reserveInstance] leaves the world as it is and [ServeHTTP] leaves it as
    closing the body of the request makes it. *)
Theorem C4_Serve_and_Done_once (ops : InstanceOps) (req : Request) (s : Sys) :
  (forall i, activeInstance (app s) = Some i ->
     let served := Instance_Serve i (world s) in
     let target := Instance_internalHostPort i served in
     let proxied :=
       rp_ServeHTTP {| URL_Scheme := "http"; URL_Host := target;
                       RemoteAddr := RemoteAddr req;
                       Header := Header req
                                 ++ [("X-Real-IP", net_SplitHostPort (RemoteAddr req))] |}
                    served in
     fst (reserveInstance s) = (Some i, None)
     /\ events (trace (snd (reserveInstance s)))
        = events (trace s) ++ [Lock; CallServe i; Unlock]
     /\ world (snd (reserveInstance s)) = served
     /\ fst (ServeHTTP req s) = fst proxied
     /\ events (trace (snd (ServeHTTP req s)))
        = events (trace s)
          ++ [Lock; CallServe i; Unlock; CallProxy target (fst proxied); CallDone i]
     /\ world (snd (ServeHTTP req s)) = Instance_Done i (snd proxied))
  /\ (activeInstance (app s) = None ->
      fst (reserveInstance s) = (None, Some ErrNoActiveInstances)
      /\ world (snd (reserveInstance s)) = world s
      /\ world (snd (ServeHTTP req s)) = snd (Body_Close (world s))
      /\ exists logged,
           events (trace (snd (ServeHTTP req s)))
           = events (trace s) ++ [Lock; Unlock; WriteHeader 503; CallBodyClose] ++ logged
           /\ (logged = [] \/ exists e, logged = [LogPrint e])).
Proof.
  split.
  - intros i Hactive served target proxied.
    destruct (reserveInstance_active s i Hactive) as [Hres Hev].
    destruct (ServeHTTP_active_run req s i Hactive) as (Hserved & Hr & Hevs & Hdone).
    by split_and!.
  - intros Hnone.
    destruct (reserveInstance_none s Hnone) as [Hres _].
    destruct (ServeHTTP_none_world req s Hnone) as [Hw1 Hw2].
    split_and!; [done|done|done|].
    by destruct (ServeHTTP_none req s Hnone) as [_ Hev].
Qed.

(** C4 on a request that finds instance 1 active. *)
Lemma C4_Serve_and_Done_once_witness :
  let s := testSys 5 [1; 2]%nat (Some 1%nat) (fun _ => InstanceStatusServing) in
  let req := {| URL_Scheme := ""; URL_Host := ""; RemoteAddr := "192.0.2.7:4711";
                Header := [] |} in
  activeInstance (app s) = Some 1%nat
  /\ events (trace (snd (ServeHTTP req s)))
     = events (trace s)
       ++ [Lock; CallServe 1; Unlock; CallProxy "localhost:10000" Returned;
           CallDone 1].
Proof.
  intros s req. split; [reflexivity|].
  destruct (C4_Serve_and_Done_once testOps req s) as [Hsome _].
  destruct (Hsome 1%nat eq_refl) as (_ & _ & _ & _ & Hev & _). exact Hev.
Defined.

(** ** The instance updater *)

Section UpdaterFacts.
Context `{InstanceOps}.
Implicit Types (u : Updater) (i : ptr) (l : list ptr).



Lemma scan_app l1 l2 u : scan (l1 ++ l2) u = scan l2 (scan l1 u).
Proof. unfold scan. apply fold_left_app. Qed.

Lemma visit_lastStatus i u :
  lastStatus (visit i u) = fst (Instance_UpdateStatus i (world (sys u))).
Proof.
  unfold visit. destruct (Instance_UpdateStatus _ _) as [status w].
  by repeat case_decide.
Qed.

(** A visit only adds to the trace, and what it adds starts no instance. *)
Lemma visit_trace i u :
  exists new,
    trace (sys (visit i u)) = trace (sys u) ++ new
    /\ Forall (fun st => forall id r, ev st <> CallNewInstance id r) new.
Proof.
  unfold visit. destruct (Instance_UpdateStatus _ _) as [status w].
  repeat case_decide; simpl; try destruct (activeInstance (app (sys u))); simpl;
    rewrite <- ?app_assoc; simpl; eexists; (split; [reflexivity|]);
    repeat constructor; done.
Qed.

Lemma scan_trace l u :
  exists new,
    trace (sys (scan l u)) = trace (sys u) ++ new
    /\ Forall (fun st => forall id r, ev st <> CallNewInstance id r) new.
Proof.
  revert u. induction l as [|i l IH]; intros u; simpl.
  - exists []. by rewrite app_nil_r.
  - destruct (IH (visit i u)) as (new2 & -> & Hnew2).
    destruct (visit_trace i u) as (new1 & -> & Hnew1).
    exists (new1 ++ new2). rewrite app_assoc. split; [done|].
    by apply Forall_app.
Qed.

(** The promotion, step by step. *)
Lemma visit_promotes i u :
  promotes i u ->
  trace (sys (visit i u))
  = trace (sys u) ++ promotionSteps i (activeInstance (app (sys u)))
  /\ activeInstance (app (sys (visit i u))) = Some i
  /\ restartCount (visit i u) = 0.
Proof.
  intros [Hne Hserving]. unfold visit, promotionSteps.
  destruct (Instance_UpdateStatus _ _) as [status w]. simpl in Hserving. subst status.
  case_decide as Hd; [simpl in Hd; done|]. case_decide; [|done]. simpl.
  destruct (activeInstance (app (sys u))) as [c|] eqn:Hold; simpl;
    rewrite ?Hold; simpl; rewrite <- ?app_assoc; simpl; split_and!; done.
Qed.

(** The promotion in the world: the status update of the promoted instance,
    then [Stop] on the instance that was active. *)
Lemma visit_promotes_world i u :
  promotes i u ->
  world (sys (visit i u))
  = match activeInstance (app (sys u)) with
    | Some c => Instance_Stop c (snd (Instance_UpdateStatus i (world (sys u))))
    | None => snd (Instance_UpdateStatus i (world (sys u)))
    end.
Proof.
  intros [Hne Hserving]. unfold visit.
  destruct (Instance_UpdateStatus _ _) as [status w]. simpl in Hserving. subst status.
  case_decide as Hd; [simpl in Hd; done|]. case_decide; [|done]. simpl.
  by destruct (activeInstance (app (sys u))).
Qed.

Lemma visit_keeps_count i u :
  ~ promotes i u -> restartCount (visit i u) = restartCount u.
Proof.
  intros Hnot. unfold visit, promotes in *.
  destruct (Instance_UpdateStatus _ _) as [status w]. simpl in *.
  repeat case_decide; simpl; try done. tauto.
Qed.


Lemma restartStep_idle u :
  isRestartStatus (lastStatus u) = false
  \/ MaxRetries (config (app (sys u))) <= restartCount u ->
  restartStep u = u.
Proof.
  intros [Hlast|Hcount]; unfold restartStep.
  - by rewrite Hlast.
  - apply Z.ltb_ge in Hcount. rewrite Hcount. by destruct (isRestartStatus _).
Qed.

End UpdaterFacts.

Section UpdaterInvariant.
Context `{InstanceOps}.
Implicit Types (u : Updater) (i : ptr) (l : list ptr) (es : list Event).

Lemma startsSince_snoc es e :
  startsSincePromotion (es ++ [e]) = countStart (startsSincePromotion es) e.
Proof. unfold startsSincePromotion. by rewrite fold_left_app. Qed.

Lemma prefix_snoc_cases (pre es : list Event) (e : Event) :
  pre `prefix_of` es ++ [e] -> pre `prefix_of` es \/ pre = es ++ [e].
Proof.
  intros [k Hk]. destruct k as [|x k _] using rev_ind.
  - right. by rewrite app_nil_r in Hk.
  - left. rewrite app_assoc in Hk. apply app_inj_tail in Hk as [-> _].
    by exists k.
Qed.

Lemma startsBounded_nil M : startsBounded M [].
Proof.
  intros pre Hpre. apply prefix_nil_inv in Hpre as ->.
  unfold startsSincePromotion. simpl. lia.
Qed.

Lemma startsBounded_snoc M es e :
  startsBounded M es ->
  Z.of_nat (countStart (startsSincePromotion es) e) <= Z.max 0 M ->
  startsBounded M (es ++ [e]).
Proof.
  intros Hes He pre Hpre.
  apply prefix_snoc_cases in Hpre as [Hpre| ->]; [by apply Hes|].
  by rewrite startsSince_snoc.
Qed.

(** The invariant goes through the steps one event at a time. *)
Ltac bounded_steps Hb :=
  repeat (apply startsBounded_snoc;
          [|rewrite ?startsSince_snoc; simpl; lia]);
  exact Hb.

Lemma visit_inv cfg i u : updaterInv cfg u -> updaterInv cfg (visit i u).
Proof.
  intros (Hcfg & Hn & Hrc & Hb).
  assert (Hn0 : 0 <= restartCount u) by lia.
  unfold updaterInv, visit.
  destruct (Instance_UpdateStatus _ _) as [status w].
  repeat case_decide; simpl; try destruct (activeInstance (app (sys u)));
    unfold events in *; simpl; rewrite ?map_app; simpl;
    (split_and!; [done|rewrite ?startsSince_snoc; simpl; lia|lia|bounded_steps Hb]).
Qed.

Lemma scan_inv cfg l u : updaterInv cfg u -> updaterInv cfg (scan l u).
Proof.
  revert u. induction l as [|i l IH]; intros u Hu; simpl; [done|].
  by apply IH, visit_inv.
Qed.

Lemma restartStep_inv cfg u : updaterInv cfg u -> updaterInv cfg (restartStep u).
Proof.
  intros (Hcfg & Hn & Hrc & Hb).
  unfold restartStep.
  destruct (isRestartStatus (lastStatus u)); [|done].
  destruct (restartCount u <? MaxRetries (config (app (sys u)))) eqn:Hlt; [|done].
  apply Z.ltb_lt in Hlt. rewrite Hcfg in Hlt.
  unfold updaterInv, StartNewInstance. simpl.
  destruct (NewInstance _ _ _) as [[new|e] w]; simpl;
    unfold events in *; simpl; rewrite ?map_app; simpl;
    (split_and!; [done|rewrite ?startsSince_snoc; simpl; lia|lia|bounded_steps Hb]).
Qed.

Lemma tick_inv cfg u : updaterInv cfg u -> updaterInv cfg (tick u).
Proof.
  intros Hu. unfold tick. apply restartStep_inv, scan_inv.
  destruct Hu as (Hcfg & Hn & Hrc & Hb). by split_and!.
Qed.

Lemma reachable_inv cfg u : reachable cfg u -> updaterInv cfg u.
Proof.
  induction 1 as [s Hcfg Htrace|u Hreach IH|u s Hreach IH Hcfg Htrace].
  - unfold updaterInv, startInstanceUpdater. simpl. rewrite Htrace.
    split_and!; [done|done|lia|apply startsBounded_nil].
  - by apply tick_inv.
  - destruct IH as (_ & Hn & Hrc & Hb).
    unfold updaterInv. simpl. rewrite Htrace. by split_and!.
Qed.

Lemma restartStep_trace u :
  exists post, trace (sys (restartStep u)) = trace (sys u) ++ post.
Proof.
  unfold restartStep.
  destruct (isRestartStatus (lastStatus u)); [|exists []; by rewrite app_nil_r].
  destruct (restartCount u <? MaxRetries (config (app (sys u))));
    [|exists []; by rewrite app_nil_r].
  unfold StartNewInstance. simpl.
  destruct (NewInstance _ _ _) as [[new|e] w]; simpl;
    rewrite <- ?app_assoc; by eexists.
Qed.

Lemma restartStep_count u :
  restartCount (restartStep u) = restartCount u
  \/ restartCount (restartStep u) = restartCount u + 1.
Proof.
  unfold restartStep.
  destruct (isRestartStatus (lastStatus u)); [|by left].
  destruct (restartCount u <? MaxRetries (config (app (sys u)))); [|by left].
  destruct (StartNewInstance _) as [err s]. by right.
Qed.

End UpdaterInvariant.




(** C2.  In a tick in which an instance that is not the active one is found
    [Serving], the updater takes the lock, makes that instance the active
    one, releases the lock, and only then calls [Stop] on the instance that
    was active before, if there was one; from the step that finds the
    instance serving to the call of [Stop], [activeInstance] is never nil
    when it was not nil before.  The visit leaves the world as the status
    update of the promoted instance and then [Stop] of the instance that
    was active make it, and as the status update alone makes it when no
    instance was active. *)
Theorem C2_promote_then_stop (ops : InstanceOps) (u : Updater)
    (front : list ptr) (i : ptr) (back : list ptr) :
  instances (app (sys u)) = front ++ i :: back ->
  let before := scan front {| sys := sys u; restartCount := restartCount u;
                              lastStatus := -1 |} in
  promotes i before ->
  let old := activeInstance (app (sys before)) in
  (exists rest,
     trace (sys (tick u))
     = trace (sys before)
       ++ [ {| ev := CallUpdateStatus i InstanceStatusServing; activeAfter := old |};
            {| ev := ResetRestartCount; activeAfter := old |};
            {| ev := Lock; activeAfter := old |};
            {| ev := SetActive i; activeAfter := Some i |};
            {| ev := Unlock; activeAfter := Some i |} ]
       ++ match old with
          | Some c => [ {| ev := CallStop c; activeAfter := Some i |} ]
          | None => []
          end
       ++ rest)
  /\ activeInstance (app (sys (visit i before))) = Some i
  /\ (is_Some old -> Forall (fun st => is_Some (activeAfter st)) (promotionSteps i old))
  /\ world (sys (visit i before))
     = match old with
       | Some c => Instance_Stop c (snd (Instance_UpdateStatus i (world (sys before))))
       | None => snd (Instance_UpdateStatus i (world (sys before)))
       end.
Proof.
  intros Hinst before Hprom old.
  destruct (visit_promotes i before Hprom) as (Htrace & Hactive & _).
  split_and!.
  - unfold tick. simpl. rewrite Hinst, scan_app. simpl. fold before.
    destruct (restartStep_trace (scan back (visit i before))) as (post & ->).
    destruct (scan_trace back (visit i before)) as (mid & -> & _).
    rewrite Htrace. exists (mid ++ post). unfold promotionSteps. fold old.
    by rewrite <- !app_assoc.
  - exact Hactive.
  - intros [c Hc]. rewrite Hc. unfold promotionSteps. repeat constructor; by eexists.
  - by apply visit_promotes_world.
Qed.

(** C2 on a rollover: instance 1 is active, instance 2 is found serving. *)
Lemma C2_promote_then_stop_witness :
  let u := @startInstanceUpdater testOps
             (testSys 5 [1; 2]%nat (Some 1%nat) (fun _ => InstanceStatusServing)) in
  instances (app (sys u)) = [1%nat] ++ 2%nat :: []
  /\ promotes 2%nat (scan [1%nat] u)
  /\ activeInstance (app (sys (visit 2%nat (scan [1%nat] u)))) = Some 2%nat
  /\ events (trace (sys (tick u)))
     = [CallUpdateStatus 1 InstanceStatusServing;
        CallUpdateStatus 2 InstanceStatusServing; ResetRestartCount; Lock;
        SetActive 2; Unlock; CallStop 1]
  /\ world (sys (visit 2%nat (scan [1%nat] u))) 1%nat = InstanceStatusStopping.
Proof.
  intros u.
  assert (Hinst : instances (app (sys u)) = [1%nat] ++ 2%nat :: []) by reflexivity.
  assert (Hprom : promotes 2%nat (scan [1%nat] u)).
  { split; [vm_compute; discriminate|vm_compute; reflexivity]. }
  destruct (C2_promote_then_stop testOps u [1%nat] 2%nat [] Hinst Hprom)
    as (_ & Hactive & _ & Hworld).
  split_and!; [exact Hinst|exact Hprom|exact Hactive|vm_compute; reflexivity|].
  exact (eq_trans (f_equal (fun w : testWorld => w 1%nat) Hworld) eq_refl).
Defined.

(** C3 (amended).  The restart counter is set to zero exactly by the visit
    that promotes an instance that is not active and is found [Serving]; no
    other visit changes it, and the step after the scan leaves it or adds
    one.  Consequently, at every moment of a run of the updater, the
    instances started since the last promotion number at most the larger of
    zero and [MaxRetries]: at most [MaxRetries] when [MaxRetries] is not
    negative, and none at all when it is. *)
Theorem C3_reset_on_promotion_only (ops : InstanceOps) :
  (forall (i : ptr) (u : Updater),
     (promotes i u ->
      restartCount (visit i u) = 0
      /\ activeInstance (app (sys (visit i u))) = Some i)
     /\ (~ promotes i u -> restartCount (visit i u) = restartCount u))
  /\ (forall u : Updater,
        restartCount (restartStep u) = restartCount u
        \/ restartCount (restartStep u) = restartCount u + 1)
  /\ (forall (cfg : AppConfig) (u : Updater),
        reachable cfg u ->
        Z.of_nat (startsSincePromotion (events (trace (sys u)))) = restartCount u
        /\ forall pre, pre `prefix_of` events (trace (sys u)) ->
             Z.of_nat (startsSincePromotion pre) <= Z.max 0 (MaxRetries cfg)
             /\ (0 <= MaxRetries cfg ->
                 Z.of_nat (startsSincePromotion pre) <= MaxRetries cfg)).
Proof.
  split_and!.
  - intros i u. split.
    + intros Hprom. by destruct (visit_promotes i u Hprom) as (_ & ? & ?).
    + apply visit_keeps_count.
  - apply restartStep_count.
  - intros cfg u Hreach.
    destruct (reachable_inv cfg u Hreach) as (_ & Hn & _ & Hb).
    split; [done|]. intros pre Hpre. specialize (Hb pre Hpre). lia.
Qed.

(** C3 on an App with [MaxRetries] 2 whose instances all fail: after five
    ticks two replacements have been started, and no more. *)
Lemma C3_reset_on_promotion_only_witness :
  let s := testSys 2 [1%nat] None (fun _ => InstanceStatusFailed) in
  let u := tick (tick (tick (tick (tick (@startInstanceUpdater testOps s))))) in
  reachable (config (app s)) u
  /\ restartCount u = 2
  /\ instances (app (sys u)) = [1; 2; 3]%nat
  /\ 0 <= MaxRetries (config (app s))
  /\ Z.of_nat (startsSincePromotion (events (trace (sys u))))
     <= MaxRetries (config (app s)).
Proof.
  intros s u.
  assert (Hreach : reachable (config (app s)) u).
  { do 5 apply reachable_tick. by apply reachable_start. }
  destruct (C3_reset_on_promotion_only testOps) as (_ & _ & Hbound).
  destruct (Hbound (config (app s)) u Hreach) as (_ & Hpre).
  assert (Hmax : 0 <= MaxRetries (config (app s))) by (vm_compute; discriminate).
  split_and!; [exact Hreach|vm_compute; reflexivity|vm_compute; reflexivity|exact Hmax|].
  apply Hpre; [reflexivity|exact Hmax].
Defined.

(** C3, as the specification words it, does not hold: [max_retries: -1]
    passes validation and stays -1; the updater of such an app, whose only
    instance has failed, starts no instance, and none is more than -1. *)
Lemma C3_counterexample :
  let r := @AppConfig_clean testPlatform
             (set_MaxRetries (-1) (appEntry "web" "run {port}" [])) cleanedGlobals tt in
  let cfg := fst (fst r) in
  let s := @Build_Sys testOps
             {| config := cfg; instances := [1%nat]; activeInstance := None;
                instanceId := 1 |}
             (fun _ => InstanceStatusFailed) [] in
  let u := tick (tick (startInstanceUpdater s)) in
  snd (fst r) = None
  /\ MaxRetries cfg = -1
  /\ reachable cfg u
  /\ startsSincePromotion (events (trace (sys u))) = 0%nat
  /\ ~ (Z.of_nat (startsSincePromotion (events (trace (sys u)))) <= MaxRetries cfg).
Proof.
  intros r cfg s u.
  assert (Hm : MaxRetries cfg = -1) by (vm_compute; reflexivity).
  assert (Hn : startsSincePromotion (events (trace (sys u))) = 0%nat)
    by (vm_compute; reflexivity).
  split_and!; [vm_compute; reflexivity|exact Hm| |exact Hn|rewrite Hn, Hm; lia].
  do 2 apply reachable_tick. by apply reachable_start.
Qed.

(* ===================================================================== *)
(** * Part III: further properties of the code                            *)
(* ===================================================================== *)

(** ** The sections of the configuration *)

(** X1.  [InternalPortsConfig.clean]: a range left out (from and to both 0)
    becomes 10000 to 11000 and is accepted; any other range is kept as it is
    given and is accepted exactly when from lies below to, so a range that
    gives only [from] is refused; an accepted range is never empty. *)
Theorem X1_port_range (c : InternalPortsConfig) :
  let c' := fst (InternalPortsConfig_clean c) in
  let err := snd (InternalPortsConfig_clean c) in
  (From c = 0 /\ To c = 0 ->
   c' = {| From := 10000; To := 11000 |} /\ err = None)
  /\ (~ (From c = 0 /\ To c = 0) ->
      c' = c
      /\ (err = None <-> From c < To c)
      /\ (err = Some ErrInvalidPortRange <-> To c <= From c))
  /\ (0 < From c -> To c = 0 -> err = Some ErrInvalidPortRange)
  /\ (err = None -> From c' < To c')
  /\ (err = None \/ err = Some ErrInvalidPortRange).
Proof.
  intros c' err. subst c' err. unfold InternalPortsConfig_clean.
  destruct (From c =? 0) eqn:Hf, (To c =? 0) eqn:Ht; simpl;
    try (destruct (From c >=? To c) eqn:Hge; rewrite Z.geb_leb in Hge; simpl);
    rewrite ?Z.eqb_eq, ?Z.eqb_neq in Hf, Ht;
    try rewrite ?Z.leb_le, ?Z.leb_gt in Hge;
    (split_and!; [intros [??]|intros ?|intros ??|intros ?|]); simpl in *;
    repeat split; intros; simplify_eq; try lia; try done; try tauto;
    try (by left); try (by right).
Qed.

(** X1 on a range that gives only [from]. *)
Lemma X1_port_range_witness :
  0 < From {| From := 20000; To := 0 |}
  /\ To {| From := 20000; To := 0 |} = 0
  /\ snd (InternalPortsConfig_clean {| From := 20000; To := 0 |})
     = Some ErrInvalidPortRange.
Proof.
  split; [reflexivity|]. split; [reflexivity|].
  destruct (X1_port_range {| From := 20000; To := 0 |}) as (_ & _ & Honly & _).
  apply Honly; reflexivity.
Defined.

(** X2.  [RpcConfig.clean] never fails; it leaves a host and a port that
    were given as they are, puts localhost and 9001 where they were left
    out, so that the result has a host and a port that is not zero, and
    cleaning twice is cleaning once. *)
Theorem X2_rpc_defaults (c : RpcConfig) :
  let c' := fst (RpcConfig_clean c) in
  snd (RpcConfig_clean c) = None
  /\ Host c' = orDefault (Host c) "localhost"
  /\ Port c' = (if Port c =? 0 then 9001 else Port c)
  /\ Host c' <> "" /\ Port c' <> 0
  /\ RpcConfig_clean c' = (c', None).
Proof.
  intros c'. subst c'. unfold RpcConfig_clean, orDefault.
  destruct c as [host port]. simpl.
  destruct (String.eqb host "") eqn:Hh; destruct (port =? 0) eqn:Hp; simpl;
    rewrite ?Hh, ?Hp; simpl; rewrite ?Hh, ?Hp; simpl;
    split_and!; try done;
    first [by apply String.eqb_neq | by apply Z.eqb_neq | by rewrite Hp].
Qed.

Section SectionFacts.
Context `{Platform}.

(** X3.  [LoggerConfig.clean] fills in the log directory and the log file
    when they are empty and replaces a maximal log size that is zero or
    negative by 500, also when it then fails; it leaves the two retention
    settings alone, makes exactly one call of [os.MkdirAll], for the
    directory of the log file, and fails exactly when that call does. *)
Theorem X3_logger_defaults (c : LoggerConfig) (os : OS) :
  let c' := {| ChildLogDir := orDefault (ChildLogDir c) "/var/log/gracevisor";
               LogFile := orDefault (LogFile c) "/var/log/gracevisor/gracevisor.log";
               MaxLogSize := (if MaxLogSize c <=? 0 then 500 else MaxLogSize c);
               MaxLogsKept := MaxLogsKept c;
               MaxLogAge := MaxLogAge c |} in
  let made := os_MkdirAll (path_Dir (LogFile c')) os in
  LoggerConfig_clean c os = (c', ErrOS <$> fst made, snd made)
  /\ ChildLogDir c' <> "" /\ LogFile c' <> "" /\ 0 < MaxLogSize c'.
Proof.
  intros c' made. subst made c'.
  unfold LoggerConfig_clean, orDefault, defaultMaxLogSize, defaultLogDir, defaultLogFile.
  destruct c as [dir file size kept age]. simpl.
  destruct (String.eqb dir "") eqn:Hd; destruct (String.eqb file "") eqn:Hf;
    destruct (size <=? 0) eqn:Hs; simpl;
    repeat (rewrite ?Hd, ?Hf, ?Hs; simpl);
    rewrite ?Z.leb_gt in Hs;
    (split_and!;
     [by destruct (os_MkdirAll _ os) as [[msg|] os1]
     |first [by apply String.eqb_neq | discriminate]
     |first [by apply String.eqb_neq | discriminate]
     |lia]).
Qed.

End SectionFacts.

(** ** [AppConfig.clean] from end to end *)

(** One [let] of a definition at a time: the bound value gets a name. *)
Ltac bind_let H c' :=
  match type of H with
  | (let x := ?v in @?body x) = ?r =>
    set (c' := v) in H; change (body c' = r) in H; cbv beta in H
  end.

Section CleanRuns.
Context `{Platform}.

Lemma cleanedApp_self c :
  c = cleanedApp c (StopSignalName c) (StopSignal c) (MaxRetries c) (InternalHost c)
        (ExternalHost c) (ExternalPort c) (StdoutLogFile c) (StderrLogFile c) (User c).
Proof. by destruct c. Qed.

(** The app a run of [AppConfig.clean] has in hand once the stop signal is
    resolved and the defaults up to the external port are in. *)
Lemma AppConfig_clean_stages c g os c' err os' :
  AppConfig_clean c g os = (c', err, os') ->
  Name c <> "" -> Command c <> "" ->
  strings_Contains (Command c) "{port}" = true ->
  let name := orDefault (StopSignalName c) "TERM" in
  (Signals name = None
   /\ err = Some ErrInvalidStopSignal /\ os' = os
   /\ c' = cleanedApp c name (StopSignal c) (MaxRetries c) (InternalHost c)
             (ExternalHost c) (ExternalPort c) (StdoutLogFile c) (StderrLogFile c)
             (User c))
  \/ exists signal,
       Signals name = Some signal
       /\ let staged out errf u :=
            cleanedApp c name (Some signal)
              (if MaxRetries c =? 0 then 5 else MaxRetries c)
              (orDefault (InternalHost c) "localhost")
              (orDefault (ExternalHost c) "localhost")
              (defaultedPort c) out errf u in
          let wantOut := defaultLogPath g (StdoutLogFile c) ("app_" +:+ Name c +:+ ".out") in
          let wantErr := defaultLogPath g (StderrLogFile c) ("app_" +:+ Name c +:+ ".err") in
          ((wantOut = None \/ wantErr = None)
           /\ err = Some PanicNilPointer /\ os' = os
           /\ c' = staged (StdoutLogFile c) (StderrLogFile c) (User c))
          \/ exists out errf,
               wantOut = Some out /\ wantErr = Some errf
               /\ ((exists msg, os_MkdirAll (path_Dir out) os = (Some msg, os')
                                /\ err = Some (ErrOS msg)
                                /\ c' = staged out errf (User c))
                   \/ exists os1,
                        os_MkdirAll (path_Dir out) os = (None, os1)
                        /\ ((exists msg, os_MkdirAll (path_Dir errf) os1 = (Some msg, os')
                                         /\ err = Some (ErrOS msg)
                                         /\ c' = staged out errf (User c))
                            \/ (os_MkdirAll (path_Dir errf) os1 = (None, os')
                                /\ match (match User c with
                                          | None => GlobalUser g
                                          | Some u => Some u
                                          end) with
                                   | None => err = None /\ c' = staged out errf None
                                   | Some u =>
                                     err = snd (UserConfig_clean u os')
                                     /\ c' = staged out errf
                                               (Some (fst (UserConfig_clean u os')))
                                   end))).
Proof.
  intros Hclean Hn Hc Hb name.
  cbv delta [AppConfig_clean] in Hclean. cbv beta in Hclean.
  apply String.eqb_neq in Hn. apply String.eqb_neq in Hc.
  rewrite Hn, Hc, hasPortBadge_Contains, Hb in Hclean.
  cbv beta iota delta [negb] in Hclean.
  bind_let Hclean c1.
  assert (E1 : c1 = cleanedApp c name (StopSignal c) (MaxRetries c) (InternalHost c)
                      (ExternalHost c) (ExternalPort c) (StdoutLogFile c)
                      (StderrLogFile c) (User c)).
  { subst c1 name. unfold orDefault, defaultStopSignal.
    destruct (String.eqb (StopSignalName c) ""); by destruct c. }
  clearbody c1.
  assert (Hname : StopSignalName c1 = name) by (by rewrite E1).
  rewrite Hname in Hclean.
  destruct (Signals name) as [signal|] eqn:Hsig.
  2: { left. by simplify_eq. }
  right. exists signal. split; [done|]. intros staged wantOut wantErr.
  bind_let Hclean c2.
  assert (E2 : c2 = cleanedApp c name (Some signal) (MaxRetries c) (InternalHost c)
                      (ExternalHost c) (ExternalPort c) (StdoutLogFile c)
                      (StderrLogFile c) (User c)).
  { subst c2. by rewrite E1. }
  clearbody c2. clear E1 Hname c1.
  bind_let Hclean c3.
  assert (E3 : c3 = cleanedApp c name (Some signal)
                      (if MaxRetries c =? 0 then 5 else MaxRetries c) (InternalHost c)
                      (ExternalHost c) (ExternalPort c) (StdoutLogFile c)
                      (StderrLogFile c) (User c)).
  { subst c3. rewrite E2. simpl. by destruct (MaxRetries c =? 0). }
  clearbody c3. clear E2 c2.
  bind_let Hclean c4.
  assert (E4 : c4 = cleanedApp c name (Some signal)
                      (if MaxRetries c =? 0 then 5 else MaxRetries c)
                      (orDefault (InternalHost c) "localhost")
                      (ExternalHost c) (ExternalPort c) (StdoutLogFile c)
                      (StderrLogFile c) (User c)).
  { subst c4. rewrite E3. unfold orDefault. simpl.
    by destruct (String.eqb (InternalHost c) ""). }
  clearbody c4. clear E3 c3.
  bind_let Hclean c5.
  assert (E5 : c5 = cleanedApp c name (Some signal)
                      (if MaxRetries c =? 0 then 5 else MaxRetries c)
                      (orDefault (InternalHost c) "localhost")
                      (orDefault (ExternalHost c) "localhost")
                      (ExternalPort c) (StdoutLogFile c)
                      (StderrLogFile c) (User c)).
  { subst c5. rewrite E4. unfold orDefault. simpl.
    by destruct (String.eqb (ExternalHost c) ""). }
  clearbody c5. clear E4 c4.
  bind_let Hclean c6.
  assert (E6 : c6 = staged (StdoutLogFile c) (StderrLogFile c) (User c)).
  { subst c6 staged. rewrite E5. unfold defaultedPort. simpl.
    by destruct (ExternalPort c =? 0). }
  clearbody c6. clear E5 c5.
  assert (Ho : defaultLogPath g (StdoutLogFile c6) ("app_" +:+ Name c6 +:+ ".out")
               = wantOut) by (by rewrite E6).
  assert (He : defaultLogPath g (StderrLogFile c6) ("app_" +:+ Name c6 +:+ ".err")
               = wantErr) by (by rewrite E6).
  rewrite Ho, He in Hclean. clear Ho He.
  destruct wantOut as [out|] eqn:Hout.
  2: { left. simplify_eq. split_and!; auto. }
  destruct wantErr as [errf|] eqn:Herrf.
  2: { left. simplify_eq. split_and!; auto. }
  right. exists out, errf. split; [done|]. split; [done|].
  bind_let Hclean c7.
  assert (E7 : c7 = staged out (StderrLogFile c) (User c)) by (subst c7; by rewrite E6).
  clearbody c7. clear E6 c6.
  bind_let Hclean c8.
  assert (E8 : c8 = staged out errf (User c)) by (subst c8; by rewrite E7).
  clearbody c8. clear E7 c7.
  assert (Hdo : StdoutLogFile c8 = out) by (by rewrite E8).
  assert (Hde : StderrLogFile c8 = errf) by (by rewrite E8).
  rewrite Hdo, Hde in Hclean. clear Hdo Hde.
  destruct (os_MkdirAll (path_Dir out) os) as [[msg|] os1] eqn:Hmk1.
  { left. exists msg. by simplify_eq. }
  right. exists os1. split; [done|].
  destruct (os_MkdirAll (path_Dir errf) os1) as [[msg|] os2] eqn:Hmk2.
  { left. exists msg. by simplify_eq. }
  right.
  bind_let Hclean c9.
  assert (Hu : User c8 = User c) by (by rewrite E8).
  assert (E9 : c9 = staged out errf (match User c with
                                     | None => GlobalUser g
                                     | Some u => Some u
                                     end)).
  { subst c9. rewrite Hu, E8. by destruct (User c). }
  clearbody c9. clear Hu.
  assert (Hu9 : User c9 = match User c with
                          | None => GlobalUser g
                          | Some u => Some u
                          end) by (by rewrite E9).
  rewrite Hu9 in Hclean.
  destruct (match User c with None => GlobalUser g | Some u => Some u end) as [u|].
  - destruct (UserConfig_clean u os2) as [u0 [e|]] eqn:Hclu;
      simplify_eq; rewrite Hclu; by split.
  - by simplify_eq.
Qed.

End CleanRuns.

Section CleanProperties.
Context `{Platform}.

Lemma UserConfig_clean_result (u : UserConfig) (os : OS) :
  (UserName u = "" /\ UserConfig_clean u os = (u, None))
  \/ (UserName u <> ""
      /\ ((exists x, user_Lookup (UserName u) os = inl x
                     /\ UserConfig_clean u os
                        = ({| UserName := UserName u; user := Some x |}, None))
          \/ (exists msg, user_Lookup (UserName u) os = inr msg
                          /\ UserConfig_clean u os = (u, Some (ErrOS msg))))).
Proof.
  unfold UserConfig_clean.
  destruct (String.eqb (UserName u) "") eqn:Hn.
  - left. by apply String.eqb_eq in Hn.
  - right. apply String.eqb_neq in Hn. split; [done|].
    destruct (user_Lookup (UserName u) os) as [x|msg]; [left|right]; by eexists.
Qed.

(** X4.  [AppConfig.clean] checks the name, then the command, then the
    port placeholder of the command, then the stop signal.  An app refused
    by one of the first three checks is left exactly as it was given, and an
    app refused by any of the four has cost no call of the platform: no
    directory is created and no user looked up. *)
Theorem X4_validation_before_effects (c : AppConfig) (g : Config) (os : OS) :
  (Name c = "" -> AppConfig_clean c g os = (c, Some ErrNameRequired, os))
  /\ (Name c <> "" -> Command c = "" ->
      AppConfig_clean c g os = (c, Some ErrCommandRequired, os))
  /\ (Name c <> "" -> Command c <> "" ->
      strings_Contains (Command c) "{port}" = false ->
      AppConfig_clean c g os = (c, Some ErrPortBadgeRequired, os))
  /\ (snd (fst (AppConfig_clean c g os)) = Some ErrInvalidStopSignal ->
      snd (AppConfig_clean c g os) = os).
Proof.
  split_and!.
  - intros Hn. unfold AppConfig_clean. by rewrite Hn.
  - intros Hn Hc. apply String.eqb_neq in Hn.
    unfold AppConfig_clean. by rewrite Hn, Hc.
  - intros Hn Hc Hb. apply String.eqb_neq in Hn. apply String.eqb_neq in Hc.
    unfold AppConfig_clean. by rewrite Hn, Hc, hasPortBadge_Contains, Hb.
  - destruct (AppConfig_clean c g os) as [[c' err] os'] eqn:Hclean. simpl.
    intros ->.
    pose proof Hclean as Hcases. apply AppConfig_clean_cases in Hcases.
    destruct Hcases as [[_ ?]|[(_ & _ & ?)|[(_ & _ & _ & ?)|(Hn & Hc & Hb & _)]]];
      try done.
    destruct (AppConfig_clean_stages c g os c' _ os' Hclean Hn Hc Hb)
      as [(_ & _ & Hos & _)|(signal & _ & Hrest)]; [done|].
    destruct Hrest as [(_ & ? & _)|(out & errf & _ & _ & Hrest)]; [done|].
    destruct Hrest as [(msg & _ & ? & _)|(os1 & _ & Hrest)]; [done|].
    destruct Hrest as [(msg & _ & ? & _)|(_ & Hrest)]; [done|].
    destruct (match User c with None => GlobalUser g | Some u => Some u end) as [u|];
      [|by destruct Hrest].
    destruct Hrest as [Herr _].
    destruct (UserConfig_clean_result u os')
      as [[_ Hr]|(_ & [(x & _ & Hr)|(msg & _ & Hr)])]; by rewrite Hr in Herr.
Qed.

(** X5.  For an app with a name, a command and the placeholder in the
    command: a stop signal left out stands for TERM; the app is refused with
    [ErrInvalidStopSignal] exactly when the [Signals] table has no entry for
    the name; and an app that passes carries the name and the entry of the
    table for it. *)
Theorem X5_stop_signal (c : AppConfig) (g : Config) (os : OS) :
  Name c <> "" -> Command c <> "" ->
  strings_Contains (Command c) "{port}" = true ->
  let name := orDefault (StopSignalName c) "TERM" in
  let c' := fst (fst (AppConfig_clean c g os)) in
  let err := snd (fst (AppConfig_clean c g os)) in
  (err = Some ErrInvalidStopSignal <-> Signals name = None)
  /\ (err = None ->
      StopSignalName c' = name /\ StopSignal c' = Signals name
      /\ is_Some (StopSignal c')).
Proof.
  intros Hn Hc Hb name c' err. subst c' err.
  destruct (AppConfig_clean c g os) as [[c' err] os'] eqn:Hclean. simpl.
  destruct (AppConfig_clean_stages c g os c' err os' Hclean Hn Hc Hb)
    as [(Hsig & -> & _ & _)|(signal & Hsig & Hrest)]; fold name in Hsig |- *.
  { split; [done|]. done. }
  rewrite Hsig. split.
  - split; [|done]. intros ->.
    destruct Hrest as [(_ & ? & _)|(out & errf & _ & _ & Hrest)]; [done|].
    destruct Hrest as [(msg & _ & ? & _)|(os1 & _ & Hrest)]; [done|].
    destruct Hrest as [(msg & _ & ? & _)|(_ & Hrest)]; [done|].
    destruct (match User c with None => GlobalUser g | Some u => Some u end) as [u|];
      [|by destruct Hrest].
    destruct Hrest as [Herr _].
    destruct (UserConfig_clean_result u os')
      as [[_ Hr]|(_ & [(x & _ & Hr)|(msg & _ & Hr)])]; by rewrite Hr in Herr.
  - intros ->.
    destruct Hrest as [(_ & ? & _)|(out & errf & _ & _ & Hrest)]; [done|].
    destruct Hrest as [(msg & _ & ? & _)|(os1 & _ & Hrest)]; [done|].
    destruct Hrest as [(msg & _ & ? & _)|(_ & Hrest)]; [done|].
    destruct (match User c with None => GlobalUser g | Some u => Some u end) as [u|];
      destruct Hrest as [_ ->]; simpl; by split_and!.
Qed.

(** X6.  An app that passes [AppConfig.clean] keeps its name, command,
    environment, health check and both timeouts as given (a timeout of 0
    stays 0); its hosts are the given ones or localhost; its external port
    is not zero; its log files are the given ones or, when left out,
    app_NAME.out and app_NAME.err in the child log directory of the logger;
    and the platform is left as the creation of the two log directories, in
    that order, leaves it. *)
Theorem X6_app_success (c : AppConfig) (g : Config) (os : OS)
    (c' : AppConfig) (os' : OS) :
  AppConfig_clean c g os = (c', None, os') ->
  Name c' = Name c /\ Command c' = Command c /\ Environment c' = Environment c
  /\ HealthCheck c' = HealthCheck c
  /\ StartTimeout c' = StartTimeout c /\ StopTimeout c' = StopTimeout c
  /\ InternalHost c' = orDefault (InternalHost c) "localhost"
  /\ ExternalHost c' = orDefault (ExternalHost c) "localhost"
  /\ InternalHost c' <> "" /\ ExternalHost c' <> "" /\ ExternalPort c' <> 0
  /\ defaultLogPath g (StdoutLogFile c) ("app_" +:+ Name c +:+ ".out")
     = Some (StdoutLogFile c')
  /\ defaultLogPath g (StderrLogFile c) ("app_" +:+ Name c +:+ ".err")
     = Some (StderrLogFile c')
  /\ exists os1,
       os_MkdirAll (path_Dir (StdoutLogFile c')) os = (None, os1)
       /\ os_MkdirAll (path_Dir (StderrLogFile c')) os1 = (None, os').
Proof.
  intros Hclean.
  destruct (AppConfig_clean_ok c g os c' os' Hclean) as (Hn & Hc & Hb & _ & _).
  destruct (AppConfig_clean_stages c g os c' None os' Hclean Hn Hc Hb)
    as [(_ & ? & _)|(signal & Hsig & Hrest)]; [done|].
  destruct Hrest as [(_ & ? & _)|(out & errf & Hout & Herrf & Hrest)]; [done|].
  destruct Hrest as [(msg & _ & ? & _)|(os1 & Hmk1 & Hrest)]; [done|].
  destruct Hrest as [(msg & _ & ? & _)|(Hmk2 & Hrest)]; [done|].
  assert (Hhost : forall s, orDefault s "localhost" <> "").
  { intros s. unfold orDefault. destruct (String.eqb s "") eqn:Hs; [done|].
    by apply String.eqb_neq. }
  assert (Hport : defaultedPort c <> 0).
  { unfold defaultedPort, defaultExternalPort.
    destruct (ExternalPort c =? 0) eqn:Hp; [done|]. by apply Z.eqb_neq. }
  destruct (match User c with None => GlobalUser g | Some u => Some u end) as [u|];
    destruct Hrest as [_ ->]; simpl; split_and!; try done; by exists os1.
Qed.

(** X7.  The user of an app that passes [AppConfig.clean]: an app with a
    user of its own keeps it and the global user is not consulted; an app
    without one takes the global user, and has none when there is no global
    user either.  A user with an empty name is left as it is; for any other
    the system user is looked up, on the platform as the two log directories
    left it, and stored. *)
Theorem X7_app_user (c : AppConfig) (g : Config) (os : OS)
    (c' : AppConfig) (os' : OS) :
  AppConfig_clean c g os = (c', None, os') ->
  match (match User c with None => GlobalUser g | Some u => Some u end) with
  | None => User c' = None
  | Some u =>
    exists u', User c' = Some u' /\ UserName u' = UserName u
               /\ (UserName u = "" -> u' = u)
               /\ (UserName u <> "" ->
                   exists x, user_Lookup (UserName u) os' = inl x /\ user u' = Some x)
  end.
Proof.
  intros Hclean.
  destruct (AppConfig_clean_ok c g os c' os' Hclean) as (Hn & Hc & Hb & _ & _).
  destruct (AppConfig_clean_stages c g os c' None os' Hclean Hn Hc Hb)
    as [(_ & ? & _)|(signal & Hsig & Hrest)]; [done|].
  destruct Hrest as [(_ & ? & _)|(out & errf & Hout & Herrf & Hrest)]; [done|].
  destruct Hrest as [(msg & _ & ? & _)|(os1 & Hmk1 & Hrest)]; [done|].
  destruct Hrest as [(msg & _ & ? & _)|(Hmk2 & Hrest)]; [done|].
  destruct (match User c with None => GlobalUser g | Some u => Some u end) as [u|].
  - destruct Hrest as [Herr ->]. simpl.
    destruct (UserConfig_clean_result u os')
      as [[Hempty Hr]|(Hname & [(x & Hlook & Hr)|(msg & _ & Hr)])];
      rewrite Hr in Herr |- *; simpl; [| |done].
    + exists u. by split_and!.
    + eexists. split_and!; [done|done|done|]. intros _. by exists x.
  - by destruct Hrest as [_ ->].
Qed.

End CleanProperties.

(** X4 on an app without a name and one without a command. *)
Lemma X4_validation_before_effects_witness :
  @AppConfig_clean testPlatform (appEntry "" "" []) cleanedGlobals tt
  = (appEntry "" "" [], Some ErrNameRequired, tt : @OS testPlatform)
  /\ @AppConfig_clean testPlatform (appEntry "web" "" ["PORT={port}"]) cleanedGlobals tt
     = (appEntry "web" "" ["PORT={port}"], Some ErrCommandRequired,
        tt : @OS testPlatform).
Proof.
  split.
  - apply (@X4_validation_before_effects testPlatform (appEntry "" "" [])
             cleanedGlobals tt).
    reflexivity.
  - apply (@X4_validation_before_effects testPlatform
             (appEntry "web" "" ["PORT={port}"]) cleanedGlobals tt);
      [discriminate|reflexivity].
Defined.

(** X5 on an app that asks for a signal the table does not know. *)
Lemma X5_stop_signal_witness :
  let c := set_StopSignalName "WINCH" (appEntry "web" "run {port}" []) in
  Name c <> "" /\ Command c <> ""
  /\ strings_Contains (Command c) "{port}" = true
  /\ @Signals testPlatform (orDefault (StopSignalName c) "TERM") = None
  /\ snd (fst (@AppConfig_clean testPlatform c cleanedGlobals tt))
     = Some ErrInvalidStopSignal.
Proof.
  intros c.
  assert (Hn : Name c <> "") by discriminate.
  assert (Hc : Command c <> "") by discriminate.
  assert (Hb : strings_Contains (Command c) "{port}" = true) by (vm_compute; reflexivity).
  assert (Hs : @Signals testPlatform (orDefault (StopSignalName c) "TERM") = None)
    by (vm_compute; reflexivity).
  split_and!; [exact Hn|exact Hc|exact Hb|exact Hs|].
  destruct (@X5_stop_signal testPlatform c cleanedGlobals tt Hn Hc Hb) as [Hiff _].
  apply Hiff. exact Hs.
Defined.

(** X6 on an app that gives name and command only. *)
Lemma X6_app_success_witness :
  let c := appEntry "web" "run {port}" [] in
  let r := @AppConfig_clean testPlatform c cleanedGlobals tt in
  r = (fst (fst r), None, tt : @OS testPlatform)
  /\ StdoutLogFile (fst (fst r)) = "/var/log/gracevisor/app_web.out"
  /\ InternalHost (fst (fst r)) = "localhost"
  /\ StartTimeout (fst (fst r)) = 0.
Proof.
  intros c r.
  assert (Hrun : r = (fst (fst r), None, tt : @OS testPlatform))
    by (vm_compute; reflexivity).
  destruct (@X6_app_success testPlatform c cleanedGlobals tt _ _ Hrun)
    as (_ & _ & _ & _ & Hstart & _ & Hih & _).
  split_and!; [exact Hrun|vm_compute; reflexivity|exact Hih|exact Hstart].
Defined.

(** X7 on an app without a user under a global user root. *)
Lemma X7_app_user_witness :
  let g := {| PortRange := PortRange cleanedGlobals; Apps := [];
              Rpc := Rpc cleanedGlobals; Logger := Logger cleanedGlobals;
              GlobalUser := Some {| UserName := "root"; user := None |} |} in
  let r := @AppConfig_clean testPlatform (appEntry "web" "run {port}" []) g tt in
  r = (fst (fst r), None, tt : @OS testPlatform)
  /\ exists u', User (fst (fst r)) = Some u' /\ UserName u' = "root".
Proof.
  intros g r.
  assert (Hrun : r = (fst (fst r), None, tt : @OS testPlatform))
    by (vm_compute; reflexivity).
  split; [exact Hrun|].
  pose proof (@X7_app_user testPlatform _ g tt _ _ Hrun) as Huser.
  simpl in Huser. destruct Huser as (u' & Hu & Hname & _).
  exists u'. split; [exact Hu|exact Hname].
Defined.


(** ** [Config.clean] from end to end *)

Section ConfigRuns.
Context `{Platform}.

(** How a run of [Config.clean] goes: it ends in the port range, in the
    logger, in the global user, or it reaches the loop over the apps with
    the three sections cleaned. *)
Lemma Config_clean_run c os :
  let ports := InternalPortsConfig_clean (givenPortRange c) in
  let rpc := fst (RpcConfig_clean (givenRpc c)) in
  let logged := LoggerConfig_clean (givenLogger c) os in
  let looked := match GlobalUser c with
                | None => (None, None)
                | Some u => (Some (fst (UserConfig_clean u (snd logged))),
                             snd (UserConfig_clean u (snd logged)))
                end in
  let g := {| PortRange := Some (fst ports); Apps := Apps c; Rpc := Some rpc;
              Logger := Some (fst (fst logged)); GlobalUser := fst looked |} in
  match snd ports with
  | Some e =>
    snd (fst (Config_clean c os)) = Some e /\ snd (Config_clean c os) = os
    /\ Apps (fst (fst (Config_clean c os))) = Apps c
  | None =>
    match snd (fst logged) with
    | Some e =>
      snd (fst (Config_clean c os)) = Some e
      /\ snd (Config_clean c os) = snd logged
      /\ Apps (fst (fst (Config_clean c os))) = Apps c
    | None =>
      match snd looked with
      | Some e =>
        snd (fst (Config_clean c os)) = Some e
        /\ snd (Config_clean c os) = snd logged
        /\ Apps (fst (fst (Config_clean c os))) = Apps c
      | None =>
        let loop := cleanApps (Apps c) g ∅ (snd logged) in
        Config_clean c os = (set_Apps (fst (fst loop)) g, snd (fst loop), snd loop)
      end
    end
  end.
Proof.
  intros ports rpc logged looked g. subst g looked rpc ports logged.
  unfold Config_clean, givenPortRange, givenRpc, givenLogger.
  destruct (InternalPortsConfig_clean _) as [pr [e|]]; simpl; [done|].
  destruct (LoggerConfig_clean _ os) as [[lg [e|]] os1]; simpl; [done|].
  destruct (GlobalUser c) as [u|]; simpl.
  - destruct (UserConfig_clean u os1) as [u' [e|]]; simpl; [done|].
    by destruct (cleanApps _ _ _ _) as [[apps' err] os2].
  - by destruct (cleanApps _ _ _ _) as [[apps' err] os2].
Qed.

(** The apps of a loop that went through. *)
Lemma cleanApps_passed apps g (m : gmap Z bool) os apps' os' :
  cleanApps apps g m os = (apps', None, os') ->
  Forall2 (fun a a' => exists o o', AppConfig_clean a g o = (a', None, o')) apps apps'.
Proof.
  revert m os apps' os'.
  induction apps as [|app rest IH]; intros m os apps' os' Hrun; simpl in Hrun.
  - simplify_eq. constructor.
  - destruct (AppConfig_clean app g os) as [[app1 [e|]] os1] eqn:Hclean; [done|].
    destruct (m !! ExternalPort app1); [done|].
    destruct (cleanApps rest g _ os1) as [[rest' err1] os2] eqn:Hrest.
    simplify_eq. constructor; [by eauto|]. by eapply IH.
Qed.

Lemma cleanApps_length apps g (m : gmap Z bool) os :
  length (fst (fst (cleanApps apps g m os))) = length apps.
Proof.
  revert m os. induction apps as [|app rest IH]; intros m os; simpl; [done|].
  destruct (AppConfig_clean app g os) as [[app1 [e|]] os1]; [done|].
  destruct (m !! ExternalPort app1); [done|].
  specialize (IH (<[ExternalPort app1:=true]> m) os1).
  destruct (cleanApps rest g _ os1) as [[rest' err1] os2]. simpl in *. by rewrite IH.
Qed.

(** What an app that passed has become. *)
Lemma AppConfig_clean_passed c g os c' os' :
  AppConfig_clean c g os = (c', None, os') ->
  exists signal out errf u,
    Signals (orDefault (StopSignalName c) "TERM") = Some signal
    /\ c' = cleanedApp c (orDefault (StopSignalName c) "TERM") (Some signal)
              (if MaxRetries c =? 0 then 5 else MaxRetries c)
              (orDefault (InternalHost c) "localhost")
              (orDefault (ExternalHost c) "localhost")
              (defaultedPort c) out errf u.
Proof.
  intros Hclean.
  destruct (AppConfig_clean_ok c g os c' os' Hclean) as (Hn & Hc & Hb & _ & _).
  destruct (AppConfig_clean_stages c g os c' None os' Hclean Hn Hc Hb)
    as [(_ & ? & _)|(signal & Hsig & Hrest)]; [done|].
  destruct Hrest as [(_ & ? & _)|(out & errf & Hout & Herrf & Hrest)]; [done|].
  destruct Hrest as [(msg & _ & ? & _)|(os1 & Hmk1 & Hrest)]; [done|].
  destruct Hrest as [(msg & _ & ? & _)|(Hmk2 & Hrest)]; [done|].
  exists signal, out, errf.
  destruct (match User c with None => GlobalUser g | Some u => Some u end) as [u|];
    destruct Hrest as [_ ->]; by eexists.
Qed.

Lemma orDefault_nonempty (s d : string) : d <> "" -> orDefault s d <> "".
Proof.
  intros Hd. unfold orDefault. destruct (String.eqb s "") eqn:Hs; [done|].
  by apply String.eqb_neq.
Qed.

Lemma AppConfig_clean_ready c g os c' os' :
  AppConfig_clean c g os = (c', None, os') ->
  appReady c' /\ Name c' = Name c /\ ExternalPort c' = defaultedPort c.
Proof.
  intros Hclean.
  destruct (AppConfig_clean_ok c g os c' os' Hclean) as (Hn & Hc & Hb & _ & _).
  destruct (AppConfig_clean_passed c g os c' os' Hclean)
    as (signal & out & errf & u & Hsig & ->).
  unfold appReady. simpl. split_and!; try done.
  - by apply orDefault_nonempty.
  - destruct (MaxRetries c =? 0) eqn:Hm; [done|]. by apply Z.eqb_neq.
  - by apply orDefault_nonempty.
  - by apply orDefault_nonempty.
  - unfold defaultedPort, defaultExternalPort.
    destruct (ExternalPort c =? 0) eqn:Hp; [done|]. by apply Z.eqb_neq.
Qed.

(** The errors of the loop over the apps, when the logger is there. *)
Lemma cleanApps_errors apps g (m : gmap Z bool) os e :
  Logger g <> None ->
  snd (fst (cleanApps apps g m os)) = Some e -> configError e.
Proof.
  intros Hlogger. revert m os.
  induction apps as [|app rest IH]; intros m os; simpl; [done|].
  destruct (AppConfig_clean app g os) as [[app1 [e1|]] os1] eqn:Hclean; simpl.
  - intros [= ->]. unfold configError.
    pose proof Hclean as Hcases. apply AppConfig_clean_cases in Hcases.
    destruct Hcases as [[_ ?]|[(_ & _ & ?)|[(_ & _ & _ & ?)|(Hn & Hc & Hb & _)]]];
      simplify_eq; [tauto..|].
    destruct (AppConfig_clean_stages app g os app1 _ os1 Hclean Hn Hc Hb)
      as [(_ & ? & _)|(signal & _ & Hrest)]; [simplify_eq; tauto|].
    destruct Hrest as [(Hnil & _)|(out & errf & _ & _ & Hrest)].
    { unfold defaultLogPath in Hnil. destruct (Logger g); [|done].
      destruct Hnil as [Hnil|Hnil]; by repeat case_match. }
    destruct Hrest as [(msg & _ & ? & _)|(os2 & _ & Hrest)];
      [simplify_eq; repeat right; by eexists|].
    destruct Hrest as [(msg & _ & ? & _)|(_ & Hrest)];
      [simplify_eq; repeat right; by eexists|].
    destruct (match User app with None => GlobalUser g | Some u => Some u end) as [u|];
      [|by destruct Hrest].
    destruct Hrest as [Herr _].
    destruct (UserConfig_clean_result u os1)
      as [[_ Hr]|(_ & [(x & _ & Hr)|(msg & _ & Hr)])]; rewrite Hr in Herr;
      simpl in Herr; simplify_eq. repeat right; by eexists.
  - destruct (m !! ExternalPort app1); simpl.
    { intros [= <-]. unfold configError. tauto. }
    specialize (IH (<[ExternalPort app1:=true]> m) os1).
    by destruct (cleanApps rest g _ os1) as [[rest' err1] os2].
Qed.

End ConfigRuns.

Section EntriesFacts.
Context `{Platform}.

(** [AppConfig.clean] reads the logger and the global user of the enclosing
    configuration, and nothing else of it. *)
Lemma AppConfig_clean_reads c g g' os :
  Logger g = Logger g' -> GlobalUser g = GlobalUser g' ->
  AppConfig_clean c g os = AppConfig_clean c g' os.
Proof.
  intros Hl Hu. unfold AppConfig_clean, defaultLogPath. by rewrite Hl, Hu.
Qed.

Lemma cleanApps_reads apps g g' (m : gmap Z bool) os :
  Logger g = Logger g' -> GlobalUser g = GlobalUser g' ->
  cleanApps apps g m os = cleanApps apps g' m os.
Proof.
  intros Hl Hu. revert m os. induction apps as [|app rest IH]; intros m os; simpl; [done|].
  rewrite (AppConfig_clean_reads app g g' os Hl Hu).
  destruct (AppConfig_clean app g' os) as [[app1 [e|]] os1]; [done|].
  destruct (m !! ExternalPort app1); [done|]. by rewrite IH.
Qed.

Lemma beforeNil_split (entries : list (option AppConfig)) :
  (Some <$> beforeNil entries) ++ drop (length (beforeNil entries)) entries = entries.
Proof.
  induction entries as [|[app|] rest IH]; simpl; [done| |done].
  f_equal. exact IH.
Qed.

Lemma beforeNil_Some (apps : list AppConfig) : beforeNil (Some <$> apps) = apps.
Proof. induction apps as [|app rest IH]; simpl; [done|]. f_equal. exact IH. Qed.

(** What is left of the slice after the entries before the first nil one:
    nothing when no entry is nil, and else the nil entry and what follows. *)
Lemma beforeNil_rest (entries : list (option AppConfig)) :
  ((None ∉ entries) /\ drop (length (beforeNil entries)) entries = [])
  \/ (None ∈ entries
      /\ exists tl, drop (length (beforeNil entries)) entries = None :: tl).
Proof.
  induction entries as [|[app|] rest IH]; simpl.
  - left. split; [apply not_elem_of_nil|done].
  - destruct IH as [[Hno ->]|(Hin & tl & ->)].
    + left. split; [|done]. apply not_elem_of_cons. by split.
    + right. split; [by right|]. by exists tl.
  - right. split; [by left|]. by exists rest.
Qed.

(** The loop over the entries is the loop over the apps before the first
    nil entry, followed by the panic when there is a nil entry. *)
Lemma cleanAppEntries_spec entries g (m : gmap Z bool) os :
  let loop := cleanApps (beforeNil entries) g m os in
  let rest := drop (length (beforeNil entries)) entries in
  cleanAppEntries entries g m os
  = ((Some <$> fst (fst loop)) ++ rest,
     match snd (fst loop) with
     | Some e => Some e
     | None => match rest with [] => None | _ => Some PanicNilPointer end
     end,
     snd loop).
Proof.
  revert m os. induction entries as [|[app|] rest IH]; intros m os; simpl; [done| |done].
  destruct (AppConfig_clean app g os) as [[app1 [e|]] os1]; simpl.
  { by rewrite beforeNil_split. }
  destruct (m !! ExternalPort app1); simpl.
  { by rewrite beforeNil_split. }
  rewrite IH.
  by destruct (cleanApps (beforeNil rest) g _ os1) as [[rest' err1] os2].
Qed.

Lemma Config_clean_entries_spec c entries os :
  let run := Config_clean (set_Apps (beforeNil entries) c) os in
  let rest := drop (length (beforeNil entries)) entries in
  Config_clean_entries c entries os
  = (set_Apps (Apps c) (fst (fst run)),
     (Some <$> Apps (fst (fst run))) ++ rest,
     match snd (fst run) with
     | Some e => Some e
     | None => match rest with [] => None | _ => Some PanicNilPointer end
     end,
     snd run).
Proof.
  unfold Config_clean_entries, Config_clean. simpl.
  destruct (InternalPortsConfig_clean _) as [pr [e|]]; simpl.
  { by rewrite beforeNil_split. }
  destruct (LoggerConfig_clean _ os) as [[lg [e|]] os1]; simpl.
  { by rewrite beforeNil_split. }
  destruct (match GlobalUser c with
            | None => (None, None)
            | Some u => let '(u0, err) := UserConfig_clean u os1 in (Some u0, err)
            end) as [u [e|]]; simpl.
  { by rewrite beforeNil_split. }
  rewrite cleanAppEntries_spec. cbv zeta.
  match goal with
  | |- context [cleanApps (beforeNil entries) ?g1 ∅ ?o] =>
    match goal with
    | |- context [cleanApps (beforeNil entries) ?g2 ∅ o] =>
      assert_fails (constr_eq g1 g2);
      rewrite (cleanApps_reads (beforeNil entries) g1 g2 ∅ o eq_refl eq_refl)
    end
  end.
  by destruct (cleanApps _ _ _ _) as [[apps' err] os2].
Qed.

End EntriesFacts.

Section ConfigProperties.
Context `{Platform}.

Lemma ports_clean_error (c : InternalPortsConfig) e :
  snd (InternalPortsConfig_clean c) = Some e -> e = ErrInvalidPortRange.
Proof.
  unfold InternalPortsConfig_clean. simpl.
  destruct (_ >=? _); simpl; [by intros [= <-]|done].
Qed.

Lemma ports_clean_valid (c : InternalPortsConfig) :
  snd (InternalPortsConfig_clean c) = None ->
  From (fst (InternalPortsConfig_clean c)) < To (fst (InternalPortsConfig_clean c)).
Proof.
  unfold InternalPortsConfig_clean. simpl.
  destruct (_ >=? _) eqn:Hge; simpl; [done|]. intros _.
  rewrite Z.geb_leb in Hge. by apply Z.leb_gt in Hge.
Qed.

Lemma rpc_clean_filled (c : RpcConfig) :
  Host (fst (RpcConfig_clean c)) <> "" /\ Port (fst (RpcConfig_clean c)) <> 0.
Proof.
  unfold RpcConfig_clean. destruct c as [host port]. simpl.
  destruct (String.eqb host "") eqn:Hh; destruct (port =? 0) eqn:Hp; simpl;
    rewrite ?Hp; simpl; split; try done;
    first [by apply String.eqb_neq | by apply Z.eqb_neq].
Qed.

Lemma logger_clean_filled (c : LoggerConfig) (os : OS) :
  let c' := fst (fst (LoggerConfig_clean c os)) in
  ChildLogDir c' <> "" /\ LogFile c' <> "" /\ 0 < MaxLogSize c'.
Proof.
  unfold LoggerConfig_clean, defaultMaxLogSize, defaultLogDir, defaultLogFile.
  destruct c as [dir file size kept age]. simpl.
  destruct (String.eqb dir "") eqn:Hd; destruct (String.eqb file "") eqn:Hf;
    destruct (size <=? 0) eqn:Hs; simpl;
    repeat (rewrite ?Hd, ?Hf, ?Hs; simpl);
    rewrite ?Z.leb_gt in Hs;
    destruct (os_MkdirAll _ os) as [[msg|] os1]; simpl;
    (split_and!;
     [first [by apply String.eqb_neq | discriminate]
     |first [by apply String.eqb_neq | discriminate]
     |lia]).
Qed.

Lemma logger_clean_error (c : LoggerConfig) (os : OS) e :
  snd (fst (LoggerConfig_clean c os)) = Some e -> exists msg, e = ErrOS msg.
Proof.
  unfold LoggerConfig_clean.
  destruct (os_MkdirAll _ os) as [[msg|] os1]; simpl; [|done].
  intros [= <-]. by eexists.
Qed.

(** X8.  A configuration that passes [Config.clean] has a port range that
    is not empty, an RPC host and port, a logger with both paths and a
    positive maximal log size, and as many apps as were given, each carrying
    the name it was given, a command with the placeholder, a resolved stop
    signal, retries and an external port that are not zero, and both hosts;
    the external ports of the apps are pairwise distinct. *)
Theorem X8_validated_config (c : Config) (os : OS) (c' : Config) (os' : OS) :
  Config_clean c os = (c', None, os') ->
  (exists pr, PortRange c' = Some pr /\ From pr < To pr)
  /\ (exists rpc, Rpc c' = Some rpc /\ Host rpc <> "" /\ Port rpc <> 0)
  /\ (exists lg, Logger c' = Some lg /\ ChildLogDir lg <> "" /\ LogFile lg <> ""
                 /\ 0 < MaxLogSize lg)
  /\ Forall appReady (Apps c')
  /\ Forall2 (fun a a' => Name a' = Name a /\ ExternalPort a' = defaultedPort a)
             (Apps c) (Apps c')
  /\ NoDup (ExternalPort <$> Apps c').
Proof.
  intros Hclean.
  pose proof (Config_clean_run c os) as Hrun. cbv zeta in Hrun.
  rewrite Hclean in Hrun. simpl in Hrun.
  destruct (snd (InternalPortsConfig_clean (givenPortRange c))) as [e|] eqn:Hports;
    [by destruct Hrun|].
  destruct (snd (fst (LoggerConfig_clean (givenLogger c) os))) as [e|] eqn:Hlog;
    [by destruct Hrun|].
  set (looked := match GlobalUser c with
                 | None => (None, None)
                 | Some u => _
                 end) in Hrun.
  destruct (snd looked) as [e|] eqn:Hlook; [by destruct Hrun|].
  set (g := {| PortRange := _; Apps := Apps c; Rpc := _; Logger := _;
               GlobalUser := fst looked |}) in Hrun.
  destruct (cleanApps (Apps c) g ∅ _) as [[apps' err] os2] eqn:Hloop.
  simpl in Hrun. injection Hrun as -> <- <-.
  apply cleanApps_passed in Hloop.
  assert (Hpairs : Forall2 (fun a a' => appReady a' /\ Name a' = Name a
                                        /\ ExternalPort a' = defaultedPort a)
                           (Apps c) apps').
  { eapply Forall2_impl; [exact Hloop|]. simpl. intros a a' (o & o' & Ha).
    by apply AppConfig_clean_ready in Ha. }
  simpl. split_and!.
  - eexists. split; [done|]. by apply ports_clean_valid.
  - eexists. split; [done|]. apply rpc_clean_filled.
  - eexists. split; [done|]. apply logger_clean_filled.
  - clear -Hpairs. induction Hpairs as [|a a' l l' [Hr _] _ IH]; by constructor.
  - eapply Forall2_impl; [exact Hpairs|]. simpl. tauto.
  - assert (Heq : ExternalPort <$> apps' = defaultedPort <$> Apps c).
    { clear -Hpairs. induction Hpairs as [|a a' l l' (_ & _ & Hp) _ IH]; [done|].
      by rewrite !fmap_cons, Hp, IH. }
    rewrite Heq. apply (Config_clean_nil c os). by rewrite Hclean.
Qed.

(** The errors of [Config.clean] on apps that are all there. *)
Lemma Config_clean_errors (c : Config) (os : OS) (e : error) :
  snd (fst (Config_clean c os)) = Some e -> configError e.
Proof.
  intros Herr.
  pose proof (Config_clean_run c os) as Hrun. cbv zeta in Hrun.
  destruct (snd (InternalPortsConfig_clean (givenPortRange c))) as [e1|] eqn:Hports.
  { destruct Hrun as (He & _). rewrite He in Herr. simplify_eq.
    apply ports_clean_error in Hports as ->. unfold configError. tauto. }
  destruct (snd (fst (LoggerConfig_clean (givenLogger c) os))) as [e1|] eqn:Hlog.
  { destruct Hrun as (He & _). rewrite He in Herr. simplify_eq.
    apply logger_clean_error in Hlog as [msg ->]. unfold configError.
    repeat right. by eexists. }
  destruct (GlobalUser c) as [u|] eqn:Hu; simpl in Hrun.
  - destruct (UserConfig_clean_result u (snd (LoggerConfig_clean (givenLogger c) os)))
      as [[_ Hr]|(_ & [(x & _ & Hr)|(msg & _ & Hr)])]; rewrite Hr in Hrun;
      simpl in Hrun.
    + rewrite Hrun in Herr. simpl in Herr. eapply cleanApps_errors; [|exact Herr]. done.
    + rewrite Hrun in Herr. simpl in Herr. eapply cleanApps_errors; [|exact Herr]. done.
    + destruct Hrun as (He & _). rewrite He in Herr. simplify_eq.
      unfold configError. repeat right. by eexists.
  - rewrite Hrun in Herr. simpl in Herr. eapply cleanApps_errors; [|exact Herr]. done.
Qed.

Lemma configError_not_panic (e : error) : configError e -> e <> PanicNilPointer.
Proof.
  intros Hc ->. unfold configError in Hc.
  destruct Hc as [?|[?|[?|[?|[?|[?|[msg ?]]]]]]]; done.
Qed.

(** X9.  [Config.clean] over the slice of app pointers ends with nil, with
    one of the six errors of the configuration, with an error of the
    platform, or in the panic of a nil pointer.  It panics exactly when the
    slice has a nil entry and the sections and every app before the first
    nil entry pass: the panic is [app.clean] reading the name of the nil
    entry.  A slice without a nil entry is cleaned as the apps it points to
    are, and never ends in the panic: the read of [g.Logger.ChildLogDir]
    never goes through a nil pointer, the logger section being put in place
    before the first app is cleaned. *)
Theorem X9_config_errors (c : Config) (entries : list (option AppConfig)) (os : OS) :
  let r := Config_clean_entries c entries os in
  let err := snd (fst r) in
  let before := Config_clean (set_Apps (beforeNil entries) c) os in
  (forall e, err = Some e -> configError e \/ e = PanicNilPointer)
  /\ (err = Some PanicNilPointer
      <-> None ∈ entries /\ snd (fst before) = None)
  /\ (forall e, err = Some e -> e <> PanicNilPointer ->
        snd (fst before) = Some e /\ snd r = snd before)
  /\ (forall apps, entries = Some <$> apps ->
        let run := Config_clean (set_Apps apps c) os in
        r = (set_Apps (Apps c) (fst (fst run)), Some <$> Apps (fst (fst run)),
             snd (fst run), snd run)
        /\ err <> Some PanicNilPointer).
Proof.
  intros r err before. subst r err before.
  rewrite Config_clean_entries_spec. cbv zeta. simpl.
  set (run := Config_clean (set_Apps (beforeNil entries) c) os).
  assert (Hrun : forall e, snd (fst run) = Some e -> e <> PanicNilPointer).
  { intros e He. by eapply configError_not_panic, Config_clean_errors. }
  split_and!.
  - intros e. destruct (snd (fst run)) as [e1|] eqn:He.
    + intros [= <-]. left. by eapply Config_clean_errors.
    + destruct (drop _ entries); [done|]. intros [= <-]. by right.
  - destruct (snd (fst run)) as [e1|] eqn:He.
    + split; [|by intros [_ ?]]. intros [= ->]. by destruct (Hrun _ eq_refl).
    + destruct (beforeNil_rest entries) as [[Hno ->]|(Hin & tl & ->)]; split;
        try done. by intros [? _].
  - intros e. destruct (snd (fst run)) as [e1|] eqn:He.
    + by intros [= <-] _.
    + destruct (drop _ entries); [done|]. by intros [= <-] ?.
  - intros apps ->. subst run. rewrite beforeNil_Some.
    rewrite drop_ge, app_nil_r by (by rewrite length_fmap).
    set (run := Config_clean (set_Apps apps c) os) in *.
    destruct (snd (fst run)) as [e1|] eqn:He; [|done].
    split; [done|]. intros [= ->].
    by eapply (configError_not_panic PanicNilPointer); [eapply Config_clean_errors|].
Qed.

(** X10.  The order of [Config.clean]: a port range that is refused is
    reported first and before any call of the platform; then comes a failure
    to create the directory of the log file, then a failure to look up the
    global user.  In each of these cases the apps are left exactly as they
    were given and are not validated at all. *)
Theorem X10_config_order (c : Config) (os : OS) :
  let r := Config_clean c os in
  let logged := LoggerConfig_clean (givenLogger c) os in
  (snd (InternalPortsConfig_clean (givenPortRange c)) <> None ->
   snd (fst r) = Some ErrInvalidPortRange /\ snd r = os
   /\ Apps (fst (fst r)) = Apps c)
  /\ (snd (InternalPortsConfig_clean (givenPortRange c)) = None ->
      forall e, snd (fst logged) = Some e ->
        snd (fst r) = Some e /\ snd r = snd logged /\ Apps (fst (fst r)) = Apps c)
  /\ (snd (InternalPortsConfig_clean (givenPortRange c)) = None ->
      snd (fst logged) = None ->
      forall u e, GlobalUser c = Some u ->
        snd (UserConfig_clean u (snd logged)) = Some e ->
        snd (fst r) = Some e /\ snd r = snd logged /\ Apps (fst (fst r)) = Apps c).
Proof.
  intros r logged. subst r logged.
  pose proof (Config_clean_run c os) as Hrun. cbv zeta in Hrun.
  split_and!.
  - intros Hports.
    destruct (snd (InternalPortsConfig_clean (givenPortRange c))) as [e|] eqn:He;
      [|done].
    apply ports_clean_error in He as ->. exact Hrun.
  - intros Hports e Hlog. by rewrite Hports, Hlog in Hrun.
  - intros Hports Hlog u e Hu Hlook. rewrite Hports, Hlog, Hu in Hrun.
    simpl in Hrun. by rewrite Hlook in Hrun.
Qed.

End ConfigProperties.

(** X8 on a configuration of two apps on different ports. *)
Lemma X8_validated_config_witness :
  let c := configOf [appEntry "web" "run {port}" [];
                     set_ExternalPort 9000 (appEntry "api" "serve {port}" [])] in
  let r := @Config_clean testPlatform c tt in
  r = (fst (fst r), None, tt : @OS testPlatform)
  /\ NoDup (ExternalPort <$> Apps (fst (fst r)))
  /\ Forall appReady (Apps (fst (fst r))).
Proof.
  intros c r.
  assert (Hrun : r = (fst (fst r), None, tt : @OS testPlatform))
    by (vm_compute; reflexivity).
  destruct (@X8_validated_config testPlatform c tt _ _ Hrun)
    as (_ & _ & _ & Hready & _ & Hnodup).
  split_and!; [exact Hrun|exact Hnodup|exact Hready].
Defined.

(** X9 on a slice whose second entry is nil, between an app that passes and
    one without a command. *)
Lemma X9_config_errors_witness :
  let entries := [Some (appEntry "web" "run {port}" []); None;
                  Some (appEntry "api" "" [])] in
  None ∈ entries
  /\ snd (fst (@Config_clean_entries testPlatform (configOf []) entries tt))
     = Some PanicNilPointer.
Proof.
  intros entries.
  assert (Hnil : None ∈ entries).
  { apply list_elem_of_In. simpl. tauto. }
  split; [exact Hnil|].
  destruct (@X9_config_errors testPlatform (configOf []) entries tt)
    as (_ & Hpanic & _).
  apply Hpanic. split; [exact Hnil|vm_compute; reflexivity].
Defined.

(** X10 on a port range that is refused, before two apps without names. *)
Lemma X10_config_order_witness :
  let c := {| PortRange := Some {| From := 9; To := 3 |};
              Apps := [appEntry "" "" []; appEntry "" "" []];
              Rpc := None; Logger := None; GlobalUser := None |} in
  snd (InternalPortsConfig_clean (givenPortRange c)) <> None
  /\ snd (fst (@Config_clean testPlatform c tt)) = Some ErrInvalidPortRange
  /\ Apps (fst (fst (@Config_clean testPlatform c tt))) = Apps c.
Proof.
  intros c.
  assert (Hports : snd (InternalPortsConfig_clean (givenPortRange c)) <> None)
    by (vm_compute; discriminate).
  destruct (@X10_config_order testPlatform c tt) as (Hfirst & _).
  destruct (Hfirst Hports) as (Herr & _ & Happs).
  split_and!; [exact Hports|exact Herr|exact Happs].
Defined.

(** ** The sort of the status report *)

Section SortProperties.
Context `{InstanceOps}.
Implicit Types (w : World) (v l : list ptr) (x y z : ptr).

Lemma statusLess_false w x y :
  statusLess w x y = false <-> statusKey w x <= statusKey w y.
Proof.
  destruct (statusLess w x y) eqn:Hless.
  - apply statusLess_key in Hless. split; [done|lia].
  - split; [|done]. intros _.
    destruct (decide (statusKey w y < statusKey w x)) as [Hlt|]; [|lia].
    apply statusLess_key in Hlt. congruence.
Qed.

(** X11.  [InstanceStatusSort.Less] is a strict weak order on the
    instances, as [sort.Stable] needs it: no instance is less than itself,
    the comparison is transitive, and so is being incomparable.  Two
    terminal instances are incomparable whatever their status codes. *)
Theorem X11_Less_strict_weak_order w :
  (forall x, statusLess w x x = false)
  /\ (forall x y, statusLess w x y = true -> statusLess w y x = false)
  /\ (forall x y z, statusLess w x y = true -> statusLess w y z = true ->
                    statusLess w x z = true)
  /\ (forall x y z,
        statusLess w x y = false -> statusLess w y x = false ->
        statusLess w y z = false -> statusLess w z y = false ->
        statusLess w x z = false /\ statusLess w z x = false)
  /\ (forall x y, terminal w x -> terminal w y ->
                  statusLess w x y = false /\ statusLess w y x = false)
  /\ (forall v (i : nat), InstanceStatusSort_Less w v i i = false).
Proof.
  split_and!.
  - intros x. by apply statusLess_false.
  - intros x y Hxy. apply statusLess_key in Hxy. apply statusLess_false. lia.
  - intros x y z Hxy Hyz. apply statusLess_key in Hxy, Hyz.
    apply statusLess_key. lia.
  - intros x y z Hxy Hyx Hyz Hzy. apply statusLess_false in Hxy, Hyx, Hyz, Hzy.
    split; apply statusLess_false; lia.
  - intros x y Hx Hy. apply terminal_key in Hx, Hy.
    split; apply statusLess_false; lia.
  - intros v i. unfold InstanceStatusSort_Less.
    destruct (v !! i) as [x|]; [|done]. by apply statusLess_false.
Qed.

Lemma insert_moves (v : list ptr) (i : nat) (x a : ptr) :
  v !! i = Some x -> x :: <[i:=a]> v ≡ₚ a :: v.
Proof.
  revert i. induction v as [|b v IH]; intros [|i] Hi; simpl in *; simplify_eq.
  - apply Permutation_swap.
  - etrans; [apply Permutation_swap|].
    etrans; [apply Permutation_skip, (IH i Hi)|]. apply Permutation_swap.
Qed.

Lemma Swap_perm (v : list ptr) (i j : nat) (x y : ptr) :
  v !! i = Some x -> v !! j = Some y -> <[i:=y]> (<[j:=x]> v) ≡ₚ v.
Proof.
  revert i j. induction v as [|a v IH]; intros [|i] [|j] Hi Hj;
    simpl in *; simplify_eq; try done.
  - by apply insert_moves.
  - by apply insert_moves.
  - by rewrite (IH i j).
Qed.

(** X12.  [InstanceStatusSort.Swap] on two positions of the slice
    exchanges the two instances and touches no other position: the slice
    keeps its length and its instances, and swapping the same two positions
    again gives the slice back. *)
Theorem X12_Swap (v : list ptr) (i j : nat) (x y : ptr) :
  v !! i = Some x -> v !! j = Some y ->
  let v' := InstanceStatusSort_Swap v i j in
  v' !! i = Some y /\ v' !! j = Some x
  /\ (forall k, k <> i -> k <> j -> v' !! k = v !! k)
  /\ length v' = length v
  /\ v' ≡ₚ v
  /\ InstanceStatusSort_Swap v' i j = v.
Proof.
  intros Hi Hj v'. subst v'. unfold InstanceStatusSort_Swap. rewrite Hi, Hj.
  assert (Hli : (i < length v)%nat) by (by eapply lookup_lt_Some).
  assert (Hlj : (j < length v)%nat) by (by eapply lookup_lt_Some).
  assert (Hi' : <[i:=y]> (<[j:=x]> v) !! i = Some y).
  { apply list_lookup_insert_eq. by rewrite length_insert. }
  assert (Hj' : <[i:=y]> (<[j:=x]> v) !! j = Some x).
  { destruct (decide (i = j)) as [->|Hne].
    - rewrite list_lookup_insert_eq in Hi' by (by rewrite length_insert).
      rewrite list_lookup_insert_eq by (by rewrite length_insert). congruence.
    - rewrite list_lookup_insert_ne by done. by apply list_lookup_insert_eq. }
  split_and!; try done.
  - intros k Hki Hkj. by rewrite !list_lookup_insert_ne.
  - by rewrite !length_insert.
  - by apply Swap_perm.
  - rewrite Hi', Hj'. apply list_eq. intros k.
    destruct (decide (k = i)) as [->|Hki].
    { rewrite list_lookup_insert_eq by (by rewrite !length_insert). done. }
    rewrite list_lookup_insert_ne by done.
    destruct (decide (k = j)) as [->|Hkj].
    { rewrite list_lookup_insert_eq by (by rewrite !length_insert). done. }
    by rewrite !list_lookup_insert_ne.
Qed.

End SortProperties.

Section ReportProperties.
Context `{InstanceOps}.
Implicit Types (w : World) (v l : list ptr) (s : Sys).

(** X13.  A second status report finds the instances in the order the first
    one left them and leaves them so; asked for the same number of
    instances on an unchanged world, it returns the same report. *)
Theorem X13_Report_twice (n m : Z) (s : Sys) :
  let s1 := snd (Report n s) in
  instances (app (snd (Report m s1))) = instances (app s1)
  /\ fst (Report n s1) = fst (Report n s).
Proof.
  intros s1. subst s1.
  assert (Hfix : sort_Stable (world s) (sort_Stable (world s) (instances (app s)))
                 = sort_Stable (world s) (instances (app s))).
  { apply sort_Stable_fixed, sort_Stable_sorted. }
  split.
  - rewrite !Report_instances, Report_world. exact Hfix.
  - unfold Report at 1 3. simpl.
    rewrite !Report_instances, Report_world, Hfix, !sort_Stable_length.
    assert (Hcfg : config (app (snd (Report n s))) = config (app s)).
    { unfold Report. simpl. by destruct (Report_slice _ _). }
    rewrite Hcfg. by destruct (Report_slice _ _).
Qed.

(** X14.  After a status report the last instance of the App's list is one
    with the smallest status key: a live instance whenever the App has one.
    It is this last instance whose status decides the restart of the
    updater. *)
Theorem X14_Report_last (n : Z) (s : Sys) (l : list ptr) (x : ptr) :
  instances (app (snd (Report n s))) = l ++ [x] ->
  x ∈ instances (app s)
  /\ (forall y, y ∈ instances (app s) -> statusKey (world s) x <= statusKey (world s) y)
  /\ ((exists y, y ∈ instances (app s) /\ live (world s) y) -> live (world s) x).
Proof.
  rewrite Report_instances. intros Hsorted.
  pose proof (sort_Stable_sorted (world s) (instances (app s))) as Hs.
  unfold keySorted in Hs. rewrite Hsorted in Hs.
  apply StronglySorted_app in Hs as (Hcross & _ & _).
  assert (Hin : forall y, y ∈ instances (app s) <-> y ∈ l ++ [x]).
  { intros y. by rewrite <- Hsorted, sort_Stable_perm. }
  assert (Hmin : forall y, y ∈ instances (app s) ->
                           statusKey (world s) x <= statusKey (world s) y).
  { intros y Hy. apply Hin, elem_of_app in Hy as [Hy|Hy].
    - apply (Hcross y x Hy). apply list_elem_of_singleton. done.
    - apply list_elem_of_singleton in Hy as ->. lia. }
  split_and!.
  - apply Hin, elem_of_app. right. by apply list_elem_of_singleton.
  - exact Hmin.
  - intros (y & Hy & Hlive). apply live_key. apply live_key in Hlive.
    specialize (Hmin y Hy). lia.
Qed.

(** X15.  A status report asked for no instance returns an empty list; one
    asked for a negative number of instances ends in the panic of a slice
    out of range, after it has sorted the instances of the App. *)
Theorem X15_Report_bounds (displayN : Z) (s : Sys) :
  report_Instances <$> fst (Report 0 s) = Some []
  /\ (displayN < 0 ->
      fst (Report displayN s) = None
      /\ instances (app (snd (Report displayN s)))
         = sort_Stable (world s) (instances (app s))).
Proof.
  split.
  - rewrite Report_result.
    rewrite (Report_slice_nonneg _ (length (instances (app s))) 0)
      by (done || apply sort_Stable_length).
    simpl. rewrite Nat.sub_0_r, drop_ge by (by rewrite sort_Stable_length). done.
  - intros Hneg. split; [by apply Report_negative|apply Report_instances].
Qed.

End ReportProperties.

(** X12 on the second and the fourth instance of the example. *)
Lemma X12_Swap_witness :
  InstanceStatusSort_Swap [1; 2; 3; 4; 5]%nat 1 3 = [1; 4; 3; 2; 5]%nat
  /\ InstanceStatusSort_Swap (InstanceStatusSort_Swap [1; 2; 3; 4; 5]%nat 1 3) 1 3
     = [1; 2; 3; 4; 5]%nat.
Proof.
  split; [reflexivity|].
  destruct (X12_Swap [1; 2; 3; 4; 5]%nat 1 3 2%nat 4%nat eq_refl eq_refl)
    as (_ & _ & _ & _ & _ & Hback).
  exact Hback.
Defined.

(** X11 on the two exited instances and the failed one of the example. *)
Lemma X11_Less_strict_weak_order_witness :
  @terminal testOps exampleStatuses 1%nat
  /\ @terminal testOps exampleStatuses 3%nat
  /\ @statusLess testOps exampleStatuses 1%nat 3%nat = false
  /\ @statusLess testOps exampleStatuses 3%nat 1%nat = false.
Proof.
  assert (H1 : @terminal testOps exampleStatuses 1%nat) by (vm_compute; reflexivity).
  assert (H3 : @terminal testOps exampleStatuses 3%nat) by (vm_compute; reflexivity).
  destruct (@X11_Less_strict_weak_order testOps exampleStatuses)
    as (_ & _ & _ & _ & Hterm & _).
  destruct (Hterm 1%nat 3%nat H1 H3) as [Ha Hb].
  split_and!; [exact H1|exact H3|exact Ha|exact Hb].
Defined.

(** X14 on the example: the last instance after the report is the serving
    one. *)
Lemma X14_Report_last_witness :
  let s := testSys 5 [1; 2; 3; 4; 5]%nat None exampleStatuses in
  instances (app (snd (Report 5 s))) = [1; 3; 5; 4]%nat ++ [2%nat]
  /\ @live testOps exampleStatuses 2%nat.
Proof.
  intros s.
  assert (Hsorted : instances (app (snd (Report 5 s))) = [1; 3; 5; 4]%nat ++ [2%nat])
    by reflexivity.
  split; [exact Hsorted|].
  destruct (@X14_Report_last testOps 5 s _ _ Hsorted) as (_ & _ & Hlive).
  apply Hlive. exists 4%nat. split; [|vm_compute; discriminate].
  apply list_elem_of_In. simpl. tauto.
Defined.

(** X15 on a report asked for minus one instance. *)
Lemma X15_Report_bounds_witness :
  let s := testSys 5 [1; 2; 3; 4; 5]%nat None exampleStatuses in
  -1 < 0
  /\ fst (Report (-1) s) = None
  /\ instances (app (snd (Report (-1) s))) = [1; 3; 5; 4; 2]%nat.
Proof.
  intros s.
  destruct (@X15_Report_bounds testOps (-1) s) as (_ & Hneg).
  destruct (Hneg eq_refl) as (Hnone & Hinst).
  split_and!; [reflexivity|exact Hnone|].
  rewrite Hinst. reflexivity.
Defined.

(** ** Starting and stopping instances *)

Section StartProperties.
Context `{InstanceOps}.
Implicit Types (s : Sys) (n : nat).

Lemma StartNewInstance_once s :
  let id := (instanceId (app s) + 1) mod 2 ^ 32 in
  let r := fst (NewInstance (app (setInstanceId id s)) id (world s)) in
  let s' := snd (StartNewInstance s) in
  fst (StartNewInstance s) = match r with inl _ => None | inr e => Some e end
  /\ instanceId (app s') = id
  /\ instances (app s')
     = instances (app s) ++ match r with inl new => [new] | inr _ => [] end
  /\ activeInstance (app s') = activeInstance (app s)
  /\ config (app s') = config (app s)
  /\ events (trace s') = events (trace s) ++ [CallNewInstance id r].
Proof.
  intros id r s'. subst s' r. unfold StartNewInstance. fold id.
  destruct (NewInstance _ id _) as [[new|e] w]; simpl;
    split_and!; try done; try (by trace_out); by rewrite app_nil_r.
Qed.

(** X16.  [StartNewInstance] hands the next id to [NewInstance] on every
    call, whether or not the call before succeeded, and the ids wrap at
    2^32: after n calls the counter stands at the old value plus n, modulo
    2^32, so that the id after 4294967295 is 0.  The calls never change
    [activeInstance]; they leave the instances there were at the front of
    the list, in their order, and add at most one instance each. *)
Theorem X16_StartNewInstance_ids s n :
  0 <= instanceId (app s) < 2 ^ 32 ->
  let s' := startMany n s in
  instanceId (app s') = (instanceId (app s) + Z.of_nat n) mod 2 ^ 32
  /\ activeInstance (app s') = activeInstance (app s)
  /\ instances (app s) `prefix_of` instances (app s')
  /\ (length (instances (app s')) <= length (instances (app s)) + n)%nat
  /\ exists new,
       events (trace s') = events (trace s) ++ new
       /\ startedIds new
          = (fun k => (instanceId (app s) + Z.of_nat k) mod 2 ^ 32) <$> seq 1 n.
Proof.
  intros Hid s'. subst s'. induction n as [|n IH].
  - simpl. rewrite Z.add_0_r, Z.mod_small by done.
    split_and!; [done|done|done|lia|]. exists []. by rewrite app_nil_r.
  - destruct IH as (Hcount & Hactive & Hprefix & Hlen & new & Hev & Hids).
    unfold startMany in *. rewrite Nat.iter_succ.
    set (t := Nat.iter n _ s) in *.
    destruct (StartNewInstance_once t) as (_ & Hid' & Hin & Hact & _ & Hev').
    split_and!.
    + rewrite Hid', Hcount, Zplus_mod_idemp_l. f_equal. lia.
    + by rewrite Hact.
    + rewrite Hin. by apply prefix_app_r.
    + rewrite Hin, length_app.
      destruct (fst (NewInstance _ _ _)); simpl; lia.
    + eexists. rewrite Hev', Hev, <- app_assoc. split; [done|].
      unfold startedIds in *. rewrite seq_S, fmap_app, omap_app, Hids.
      simpl. do 2 f_equal.
      rewrite Hcount, Zplus_mod_idemp_l. f_equal. lia.
Qed.

End StartProperties.

Section StopProperties.
Context `{InstanceControl}.
Implicit Types (s : Sys) (w : World) (i : ptr) (l : list ptr).

Lemma StopInstances_visit_skip instanceId kill i (b : bool) calls w :
  ~ stoppable instanceId w i ->
  StopInstances_visit instanceId kill i (b, calls, w) = (b, calls, w).
Proof.
  intros Hnot. unfold StopInstances_visit, stoppable in *.
  destruct (instanceId >? 0) eqn:Hpos; rewrite Z.gtb_ltb in Hpos;
    destruct (Instance_id i w =? instanceId) eqn:Hid; simpl; try done;
    rewrite ?Z.ltb_lt, ?Z.ltb_ge, ?Z.eqb_eq, ?Z.eqb_neq in *;
    destruct (Instance_status i w =? InstanceStatusServing) eqn:Hs1;
    destruct (Instance_status i w =? InstanceStatusStarting) eqn:Hs2; simpl;
    try done; rewrite ?Z.eqb_eq in *; exfalso; apply Hnot; auto.
Qed.

Lemma StopInstances_visit_hit instanceId kill i (b : bool) calls w :
  stoppable instanceId w i ->
  StopInstances_visit instanceId kill i (b, calls, w)
  = (true, calls ++ [stopCall kill i],
     if kill then Instance_Kill i w else Instance_Stop i w).
Proof.
  intros [Hid Hst]. unfold StopInstances_visit, stopCall.
  assert (Hskip : (instanceId >? 0) && negb (Instance_id i w =? instanceId) = false).
  { destruct Hid as [Hle| ->].
    - rewrite Z.gtb_ltb. by replace (0 <? instanceId) with false by (symmetry; lia).
    - by rewrite Z.eqb_refl, andb_false_r. }
  rewrite Hskip.
  assert (Hrun : (Instance_status i w =? InstanceStatusServing)
                 || (Instance_status i w =? InstanceStatusStarting) = true).
  { destruct Hst as [-> | ->]; by rewrite Z.eqb_refl, ?orb_true_r. }
  rewrite Hrun. by destruct kill.
Qed.

Lemma StopCall_run_stopCall kill i w :
  StopCall_run (stopCall kill i) w
  = if kill then Instance_Kill i w else Instance_Stop i w.
Proof. by destruct kill. Qed.

Lemma stoppable_other instanceId kill i j w :
  stopsOneInstance -> i <> j ->
  stoppable instanceId (StopCall_run (stopCall kill i) w) j
  <-> stoppable instanceId w j.
Proof.
  intros Hframe Hij. destruct (Hframe i j w Hij) as (Hid1 & Hst1 & Hid2 & Hst2).
  unfold stoppable. destruct kill; simpl.
  - by rewrite Hid2, Hst2.
  - by rewrite Hid1, Hst1.
Qed.

Lemma filter_stoppable_other instanceId kill i l w :
  stopsOneInstance -> i ∉ l ->
  filter (stoppable instanceId (StopCall_run (stopCall kill i) w)) l
  = filter (stoppable instanceId w) l.
Proof.
  intros Hframe. induction l as [|j l IH]; intros Hnot; [done|].
  apply not_elem_of_cons in Hnot as [Hij Hnot].
  rewrite !filter_cons, (IH Hnot).
  destruct (decide (stoppable instanceId (StopCall_run _ w) j)) as [Hy|Hn];
    destruct (decide (stoppable instanceId w j)) as [Hy'|Hn']; try done; exfalso.
  - apply Hn'. by apply (stoppable_other instanceId kill i j w Hframe Hij) in Hy.
  - apply Hn. by apply (stoppable_other instanceId kill i j w Hframe Hij).
Qed.

(** The loop of [StopInstances] from any state: the calls it adds, each on
    an instance that is stoppable in the world the calls before it have
    made, and the world these calls make. *)
Lemma StopInstances_run instanceId kill l (b : bool) calls w :
  let r := fold_left (fun st i => StopInstances_visit instanceId kill i st) l
                     (b, calls, w) in
  exists new,
    snd (fst r) = calls ++ new
    /\ fst (fst r) = b || negb (bool_decide (new = []))
    /\ snd r = StopCalls_run new w
    /\ (new = [] <-> Forall (fun i => ~ stoppable instanceId w i) l)
    /\ (forall pre c post, new = pre ++ c :: post ->
          exists i, c = stopCall kill i /\ i ∈ l
                    /\ stoppable instanceId (StopCalls_run pre w) i)
    /\ (stopsOneInstance -> NoDup l ->
        new = stopCall kill <$> filter (stoppable instanceId w) l).
Proof.
  revert b calls w. induction l as [|i l IH]; intros b calls w;
    cbv zeta in *; cbn [fold_left].
  - exists []. simpl. rewrite app_nil_r, orb_false_r. split_and!; try done.
    intros pre c post Hnew. by destruct pre.
  - destruct (decide (stoppable instanceId w i)) as [Hyes|Hno].
    + rewrite (StopInstances_visit_hit _ _ _ _ _ _ Hyes).
      rewrite <- (StopCall_run_stopCall kill i w).
      destruct (IH true (calls ++ [stopCall kill i])
                   (StopCall_run (stopCall kill i) w))
        as (new & Hcalls & Hflag & Hworld & _ & Hpre & Hexact).
      exists (stopCall kill i :: new).
      rewrite Hcalls, Hflag, Hworld, <- app_assoc. simpl.
      split_and!; [done|by rewrite orb_true_r|done| | |].
      * split; [done|]. intros Hnone. by apply Forall_cons in Hnone as [? _].
      * intros [|c0 pre] c post Hnew; simplify_eq/=.
        -- exists i. split_and!; [done|by left|done].
        -- destruct (Hpre pre c post eq_refl) as (j & -> & Hj & Hstop).
           exists j. split_and!; [done|by right|done].
      * intros Hframe Hnodup. apply NoDup_cons in Hnodup as [Hnot Hnodup].
        rewrite filter_cons, decide_True by done. rewrite fmap_cons. f_equal.
        rewrite (Hexact Hframe Hnodup).
        by rewrite (filter_stoppable_other instanceId kill i l w Hframe Hnot).
    + rewrite (StopInstances_visit_skip _ _ _ _ _ _ Hno).
      destruct (IH b calls w) as (new & Hcalls & Hflag & Hworld & Hiff & Hpre & Hexact).
      exists new. split_and!; [done|done|done| | |].
      * rewrite Hiff. split; [by constructor|].
        intros Hnone. by apply Forall_cons in Hnone as [_ ?].
      * intros pre c post Hnew.
        destruct (Hpre pre c post Hnew) as (j & -> & Hj & Hstop).
        exists j. split_and!; [done|by right|done].
      * intros Hframe Hnodup. apply NoDup_cons in Hnodup as [_ Hnodup].
        rewrite filter_cons, decide_False by done. by apply Hexact.
Qed.

(** X17.  [StopInstances] calls [Stop], or [Kill] when asked to kill, only
    on instances of the App that it does not skip for their id and that are
    [Serving] or [Starting] when their turn comes, that is, in the world the
    calls before have made; the world it leaves is the one its calls make,
    in their order.  An id of zero or below means every instance.  When
    stopping one instance leaves the others alone and no instance is twice
    in the list, the calls go to exactly the instances that were stoppable
    at the start, in the order of the list.  It answers nil exactly when the
    App has an instance that is stoppable at the start, and
    [ErrInstanceNotRunning] otherwise, in which case it has made no call and
    changed nothing.  It never changes the list of instances nor
    [activeInstance], so the instance it stops stays the target of the
    requests until the updater clears it. *)
Theorem X17_StopInstances (instanceId : Z) (kill : bool) (s : Sys) :
  let err := fst (fst (StopInstances instanceId kill s)) in
  let calls := snd (fst (StopInstances instanceId kill s)) in
  let s' := snd (StopInstances instanceId kill s) in
  app s' = app s /\ trace s' = trace s
  /\ world s' = StopCalls_run calls (world s)
  /\ (forall pre c post, calls = pre ++ c :: post ->
        exists i, c = stopCall kill i /\ i ∈ instances (app s)
                  /\ stoppable instanceId (StopCalls_run pre (world s)) i)
  /\ (stopsOneInstance -> NoDup (instances (app s)) ->
      calls = stopCall kill
              <$> filter (stoppable instanceId (world s)) (instances (app s)))
  /\ (err = None
      <-> exists i, i ∈ instances (app s) /\ stoppable instanceId (world s) i)
  /\ (err = None \/ err = Some ErrInstanceNotRunning)
  /\ (err = Some ErrInstanceNotRunning -> calls = [] /\ world s' = world s)
  /\ (err = None -> calls <> [])
  /\ Forall (fun c => exists i, i ∈ instances (app s) /\ c = stopCall kill i) calls
  /\ fst (fst (reserveInstance s')) = fst (fst (reserveInstance s)).
Proof.
  intros err calls s'. subst err calls s'. unfold StopInstances.
  pose proof (StopInstances_run instanceId kill (instances (app s)) false []
                                (world s)) as Hrun.
  cbv zeta in Hrun.
  destruct (fold_left _ _ _) as [[stopped calls] w]. simpl in *.
  destruct Hrun as (new & -> & -> & -> & Hiff & Hpre & Hexact).
  split_and!; try done.
  - destruct new as [|c new]; simpl.
    + split; [done|]. intros (i & Hi & Hstop).
      assert (Hnone : Forall (fun i => ~ stoppable instanceId (world s) i)
                             (instances (app s))) by (by apply Hiff).
      rewrite Forall_forall in Hnone. by destruct (Hnone i Hi).
    + split; [|done]. intros _.
      destruct (decide (Exists (stoppable instanceId (world s)) (instances (app s))))
        as [Hex|Hnex].
      * apply Exists_exists in Hex as (i & Hi & Hstop). by exists i.
      * apply not_Exists_Forall in Hnex; [|apply _].
        by apply Hiff in Hnex.
  - destruct new; simpl; auto.
  - by destruct new as [|c new].
  - destruct new; simpl; done.
  - apply Forall_forall. intros c Hc.
    apply list_elem_of_split in Hc as (pre & post & Hsplit).
    destruct (Hpre pre c post Hsplit) as (i & -> & Hi & _). by exists i.
  - unfold reserveInstance. simpl. by destruct (activeInstance (app s)).
Qed.

End StopProperties.

(** X16 at the end of the range of the ids. *)
Lemma X16_StartNewInstance_ids_witness :
  let a := {| config := appEntry "web" "run {port}" []; instances := [];
              activeInstance := None; instanceId := 4294967295 |} in
  let s := @Build_Sys testOps a (fun _ => InstanceStatusStarting) [] in
  0 <= instanceId (app s) < 2 ^ 32
  /\ instanceId (app (startMany 2 s)) = 1
  /\ startedIds (events (trace (startMany 2 s))) = [0; 1].
Proof.
  intros a s.
  assert (Hid : 0 <= instanceId (app s) < 2 ^ 32) by (simpl; lia).
  destruct (@X16_StartNewInstance_ids testOps s 2 Hid) as (Hcount & _).
  split; [exact Hid|]. split; [rewrite Hcount; reflexivity|reflexivity].
Defined.

(** X17 on an App whose instance 1 serves, whose instance 2 has exited and
    whose instance 3 is starting: a stop of instance 2 finds nothing to
    stop, a stop of every instance stops instances 1 and 3 and leaves them
    stopping. *)
Lemma X17_StopInstances_witness :
  let w : testWorld := fun i => match i with
                                | 1%nat => InstanceStatusServing
                                | 3%nat => InstanceStatusStarting
                                | _ => InstanceStatusExited
                                end in
  let s := testSys 5 [1; 2; 3]%nat (Some 1%nat) w in
  let all := @StopInstances testOps testControl 0 false s in
  @stopsOneInstance testOps testControl
  /\ NoDup (instances (app s))
  /\ @StopInstances testOps testControl 2 false s = (Some ErrInstanceNotRunning, [], s)
  /\ fst (fst all) = None
  /\ snd (fst all) = [StopCalled 1; StopCalled 3]
  /\ world (snd all) 1%nat = InstanceStatusStopping
  /\ world (snd all) 3%nat = InstanceStatusStopping.
Proof.
  intros w s all.
  assert (Hframe : @stopsOneInstance testOps testControl).
  { intros i j w' Hij. simpl. destruct (Nat.eqb_spec j i) as [->|_]; [done|]. done. }
  assert (Hnodup : NoDup (instances (app s))).
  { apply NoDup_ListNoDup. repeat constructor; simpl; intuition lia. }
  destruct (@X17_StopInstances testOps testControl 0 false s)
    as (_ & _ & Hworld & _ & Hexact & Hiff & _).
  split_and!; [exact Hframe|exact Hnodup|reflexivity| | | |].
  - apply Hiff. exists 1%nat. split.
    + apply list_elem_of_In. simpl. tauto.
    + split; [left; reflexivity|left; reflexivity].
  - exact (eq_trans (Hexact Hframe Hnodup) eq_refl).
  - exact (eq_trans (f_equal (fun v : testWorld => v 1%nat) Hworld) eq_refl).
  - exact (eq_trans (f_equal (fun v : testWorld => v 3%nat) Hworld) eq_refl).
Defined.

(** ** A tick of the updater, step by step *)

Section TickSteps.
Context `{InstanceOps}.
Implicit Types (u : Updater) (s : Sys) (i j c : ptr) (l : list ptr)
  (es : list Event) (new : list Step).

Lemma polled_app es1 es2 : polled (es1 ++ es2) = polled es1 ++ polled es2.
Proof. unfold polled. apply omap_app. Qed.

Lemma lockRun_app es1 es2 (h h' : bool) :
  lockRun h es1 = Some h' -> lockRun h (es1 ++ es2) = lockRun h' es2.
Proof.
  revert h. induction es1 as [|e es1 IH]; intros h; simpl.
  - by intros [= ->].
  - destruct (lockStep h e) as [h1|]; [apply IH|done].
Qed.

(** What one visit adds to the trace: the poll of the instance; no step
    that breaks the lock; a [Stop] only of an instance another one has
    replaced; and an active instance only if the visit found it serving or
    it was active before and is not the one visited. *)
Lemma visit_new i u :
  exists new,
    trace (sys (visit i u)) = trace (sys u) ++ new
    /\ polled (events new) = [i]
    /\ lockRun false (events new) = Some false
    /\ Forall (fun st => forall c, ev st = CallStop c ->
                 exists j, activeAfter st = Some j /\ j <> c) new
    /\ (forall j, activeInstance (app (sys (visit i u))) = Some j ->
          CallUpdateStatus j InstanceStatusServing ∈ events new
          \/ (activeInstance (app (sys u)) = Some j /\ j <> i)).
Proof.
  unfold visit. destruct (Instance_UpdateStatus _ _) as [status w]. simpl.
  destruct (activeInstance (app (sys u))) as [a|] eqn:Hactive;
    repeat case_decide; simplify_eq; simpl; rewrite <- ?app_assoc; simpl;
    eexists; (split; [reflexivity|]); simpl;
    (split; [done|]); (split; [done|]);
    (split;
     [repeat (apply List.Forall_cons;
              [simpl; intros c' Hc'; simplify_eq;
               try (eexists; split; [done|congruence])|]);
      apply List.Forall_nil
     |intros j Hj; simplify_eq;
      first [left; apply list_elem_of_In; simpl; tauto
            |right; split; [done|congruence]]]).
Qed.

Lemma scan_new l u :
  exists new,
    trace (sys (scan l u)) = trace (sys u) ++ new
    /\ polled (events new) = l
    /\ lockRun false (events new) = Some false
    /\ Forall (fun st => forall c, ev st = CallStop c ->
                 exists j, activeAfter st = Some j /\ j <> c) new
    /\ (forall j, activeInstance (app (sys (scan l u))) = Some j ->
          CallUpdateStatus j InstanceStatusServing ∈ events new
          \/ (activeInstance (app (sys u)) = Some j /\ j ∉ l)).
Proof.
  revert u. induction l as [|i l IH]; intros u; simpl.
  - exists []. rewrite app_nil_r. split_and!; try done.
    intros j Hj. right. split; [done|]. apply not_elem_of_nil.
  - destruct (IH (visit i u)) as (new2 & -> & Hp2 & Hl2 & Hs2 & Ha2).
    destruct (visit_new i u) as (new1 & -> & Hp1 & Hl1 & Hs1 & Ha1).
    exists (new1 ++ new2). rewrite <- app_assoc. unfold events in *.
    rewrite map_app. split_and!.
    + done.
    + by rewrite polled_app, Hp1, Hp2.
    + by rewrite (lockRun_app _ _ _ _ Hl1).
    + by apply Forall_app.
    + intros j Hj. destruct (Ha2 j Hj) as [Hin|[Hact Hnot]].
      * left. apply elem_of_app. by right.
      * destruct (Ha1 j Hact) as [Hin|[Hact0 Hne]].
        -- left. apply elem_of_app. by left.
        -- right. split; [done|]. by apply not_elem_of_cons.
Qed.

Lemma restartStep_new u :
  exists post,
    trace (sys (restartStep u)) = trace (sys u) ++ post
    /\ polled (events post) = []
    /\ lockRun false (events post) = Some false
    /\ Forall (fun st => forall c, ev st <> CallStop c) post
    /\ Forall (fun st => forall i status, ev st <> CallUpdateStatus i status) post
    /\ activeInstance (app (sys (restartStep u))) = activeInstance (app (sys u)).
Proof.
  unfold restartStep.
  destruct (isRestartStatus (lastStatus u));
    [|exists []; rewrite app_nil_r; by split_and!].
  destruct (restartCount u <? MaxRetries (config (app (sys u))));
    [|exists []; rewrite app_nil_r; by split_and!].
  unfold StartNewInstance. simpl.
  destruct (NewInstance _ _ _) as [[new|e] w]; simpl;
    rewrite <- ?app_assoc; simpl; eexists; (split; [reflexivity|]);
    split_and!; try done; by repeat constructor.
Qed.

Lemma tick_new u :
  exists new post,
    trace (sys (tick u)) = trace (sys u) ++ new ++ post
    /\ tickSteps u = new ++ post
    /\ polled (events (new ++ post)) = instances (app (sys u))
    /\ lockRun false (events (new ++ post)) = Some false
    /\ Forall (fun st => forall c, ev st = CallStop c ->
                 exists j, activeAfter st = Some j /\ j <> c) (new ++ post)
    /\ (forall j, activeInstance (app (sys (tick u))) = Some j ->
          CallUpdateStatus j InstanceStatusServing ∈ events (new ++ post)
          \/ (activeInstance (app (sys u)) = Some j
              /\ j ∉ instances (app (sys u)))).
Proof.
  unfold tickSteps, tick. simpl.
  set (u0 := {| sys := sys u; restartCount := restartCount u; lastStatus := -1 |}).
  destruct (restartStep_new (scan (instances (app (sys u))) u0))
    as (post & -> & Hp2 & Hl2 & Hs2 & _ & ->).
  destruct (scan_new (instances (app (sys u))) u0)
    as (new & -> & Hp1 & Hl1 & Hs1 & Ha1).
  exists new, post. simpl. rewrite <- app_assoc, drop_app_length.
  unfold events in *. rewrite map_app. split_and!; try done.
  - by rewrite polled_app, Hp1, Hp2, app_nil_r.
  - by rewrite (lockRun_app _ _ _ _ Hl1).
  - apply Forall_app. split; [done|].
    eapply Forall_impl; [exact Hs2|]. simpl. intros st Hst c Hc. by destruct (Hst c).
  - intros j Hj. destruct (Ha1 j Hj) as [Hin|Hout]; [left|by right].
    apply elem_of_app. by left.
Qed.

(** X18.  A tick calls [UpdateStatus] on every instance of the App once, in
    the order of the instance list as the tick finds it, and on nothing
    else; so the tick that follows a status report polls the instances in
    the order the report has sorted them into. *)
Theorem X18_tick_polls_in_order (u : Updater) (displayN : Z) :
  polled (events (tickSteps u)) = instances (app (sys u))
  /\ polled (events (tickSteps
               {| sys := snd (Report displayN (sys u));
                  restartCount := restartCount u; lastStatus := lastStatus u |}))
     = sort_Stable (world (sys u)) (instances (app (sys u))).
Proof.
  split.
  - destruct (tick_new u) as (new & post & _ & -> & Hpolled & _). exact Hpolled.
  - destruct (tick_new {| sys := snd (Report displayN (sys u));
                          restartCount := restartCount u;
                          lastStatus := lastStatus u |})
      as (new & post & _ & -> & Hpolled & _).
    rewrite Hpolled. simpl. apply Report_instances.
Qed.

(** X19.  An instance of the App's list is the active one at the end of a
    tick only if [UpdateStatus] returned [Serving] for it in that tick; an
    active instance whose poll returns anything else does not stay active
    beyond the tick. *)
Theorem X19_active_was_serving (u : Updater) (i : ptr) :
  activeInstance (app (sys (tick u))) = Some i ->
  i ∈ instances (app (sys u)) ->
  CallUpdateStatus i InstanceStatusServing ∈ events (tickSteps u).
Proof.
  intros Hactive Hin.
  destruct (tick_new u) as (new & post & _ & -> & _ & _ & _ & Hserving).
  by destruct (Hserving i Hactive) as [Hev|[_ Hout]].
Qed.

(** X20.  Whenever the updater calls [Stop] on an instance, another instance
    is the active one: the updater stops an instance only after it has put
    a different instance in its place. *)
Theorem X20_stop_only_replaced (u : Updater) (st : Step) (c : ptr) :
  st ∈ tickSteps u ->
  ev st = CallStop c ->
  exists i, activeAfter st = Some i /\ i <> c.
Proof.
  intros Hin Hev.
  destruct (tick_new u) as (new & post & _ & Hsteps & _ & _ & Hstop & _).
  rewrite Hsteps in Hin. rewrite Forall_forall in Hstop. by apply (Hstop st).
Qed.

(** X21.  The lock of the App in a tick and in a request: every [Lock] is
    followed by its [Unlock]; the updater changes [activeInstance] to a new
    instance, and the router calls [Serve], while holding the lock; all
    other steps are taken with the lock free, among them the updater's
    [Stop] of the old instance and its clearing of [activeInstance], which
    the code does without taking the lock.  A request changes no field of
    the App. *)
Theorem X21_lock_discipline (u : Updater) (req : Request) (s : Sys) :
  lockRun false (events (tickSteps u)) = Some false
  /\ (exists es,
        events (trace (snd (ServeHTTP req s))) = events (trace s) ++ es
        /\ lockRun false es = Some false)
  /\ app (snd (ServeHTTP req s)) = app s.
Proof.
  split_and!.
  - destruct (tick_new u) as (new & post & _ & -> & _ & Hlock & _). exact Hlock.
  - unfold ServeHTTP, reserveInstance. simpl.
    destruct (activeInstance (app s)) as [i|]; simpl.
    + destruct (rp_ServeHTTP _ _) as [r w]. eexists. split; [by trace_out|done].
    + destruct (Body_Close _) as [[ce|] w]; simpl;
        eexists; (split; [by trace_out|done]).
  - unfold ServeHTTP, reserveInstance. simpl.
    destruct (activeInstance (app s)) as [i|]; simpl.
    + by destruct (rp_ServeHTTP _ _) as [r w].
    + by destruct (Body_Close _) as [[ce|] w].
Qed.

(** X22.  A new App has no instance, and the updater alone never gives it
    one: however many ticks pass, the App [NewApp] returns is as it was,
    nothing has been polled or started, and a request is answered with
    status 503. *)
Theorem X22_NewApp_idle (cfg : AppConfig) (w : World) (n : nat) (req : Request) :
  Nat.iter n tick (NewApp cfg w) = NewApp cfg w
  /\ instances (app (sys (NewApp cfg w))) = []
  /\ fst (ServeHTTP req (sys (Nat.iter n tick (NewApp cfg w)))) = Returned
  /\ exists logged,
       events (trace (snd (ServeHTTP req (sys (Nat.iter n tick (NewApp cfg w))))))
       = [Lock; Unlock; WriteHeader 503; CallBodyClose] ++ logged
       /\ (logged = [] \/ exists e, logged = [LogPrint e]).
Proof.
  assert (Hidle : Nat.iter n tick (NewApp cfg w) = NewApp cfg w).
  { induction n as [|n IH]; [done|]. rewrite Nat.iter_succ, IH. done. }
  rewrite Hidle. split_and!; [done|done| |].
  - by apply ServeHTTP_none.
  - destruct (ServeHTTP_none req (sys (NewApp cfg w)) eq_refl)
      as (_ & logged & Hev & Hlogged).
    by exists logged.
Qed.

(** X23.  From a new App to the first request served: the first
    [StartNewInstance] calls [NewInstance] with id 1, and when that call
    succeeds its instance is the only one of the App.  The tick in which
    [UpdateStatus] returns [Serving] for it makes it the active instance,
    taking the lock and stopping nothing, so that the world is as that
    status update left it; a request after that tick is proxied to it: the
    reverse proxy is given the request with the scheme http, the host and
    port of the instance and the header X-Real-IP, after [Serve] on the
    instance and before [Done] on it.  As long as its poll returns another
    status, the App has no active instance. *)
Theorem X23_first_instance (cfg : AppConfig) (w : World) (req : Request)
    (i : ptr) (s : Sys) :
  StartNewInstance (sys (NewApp cfg w)) = (None, s) ->
  instances (app s) = [i] ->
  let u := {| sys := s; restartCount := 0; lastStatus := -1 |} in
  let status := fst (Instance_UpdateStatus i (world s)) in
  NewInstance (app (setInstanceId 1 (sys (NewApp cfg w)))) 1 w = (inl i, world s)
  /\ startedIds (events (trace s)) = [1]
  /\ (status = InstanceStatusServing ->
      let ticked := sys (tick u) in
      let served := Instance_Serve i (world ticked) in
      let target := Instance_internalHostPort i served in
      let proxied :=
        rp_ServeHTTP {| URL_Scheme := "http"; URL_Host := target;
                        RemoteAddr := RemoteAddr req;
                        Header := Header req
                                  ++ [("X-Real-IP", net_SplitHostPort (RemoteAddr req))] |}
                     served in
      activeInstance (app ticked) = Some i
      /\ world ticked = snd (Instance_UpdateStatus i (world s))
      /\ events (tickSteps u)
         = [CallUpdateStatus i InstanceStatusServing; ResetRestartCount; Lock;
            SetActive i; Unlock]
      /\ fst (ServeHTTP req ticked) = fst proxied
      /\ events (trace (snd (ServeHTTP req ticked)))
         = events (trace ticked)
           ++ [Lock; CallServe i; Unlock; CallProxy target (fst proxied); CallDone i]
      /\ world (snd (ServeHTTP req ticked)) = Instance_Done i (snd proxied))
  /\ (status <> InstanceStatusServing ->
      activeInstance (app (sys (tick u))) = None).
Proof.
  intros Hstart Hinst u status.
  assert (Hnone : activeInstance (app s) = None
                  /\ NewInstance (app (setInstanceId 1 (sys (NewApp cfg w)))) 1 w
                     = (inl i, world s)
                  /\ startedIds (events (trace s)) = [1]).
  { revert Hstart Hinst. unfold StartNewInstance, NewApp. simpl.
    destruct (NewInstance _ _ _) as [[new|e] w']; [|done].
    intros [= <-]. simpl. intros [= ->]. by split_and!. }
  destruct Hnone as (Hnone & Hnew & Hids).
  assert (Htick : tick u = restartStep (visit i u)).
  { unfold tick. simpl. by rewrite Hinst. }
  assert (Hrestart : forall v, activeInstance (app (sys (restartStep v)))
                               = activeInstance (app (sys v))).
  { intros v. by destruct (restartStep_new v) as (? & _ & _ & _ & _ & _ & ?). }
  split_and!; [done|done| |].
  - intros Hserving ticked served target proxied.
    assert (Hprom : promotes i u).
    { split; [simpl; by rewrite Hnone|done]. }
    destruct (visit_promotes i u Hprom) as (Htrace & Hactive & Hcount).
    pose proof (visit_promotes_world i u Hprom) as Hworld.
    assert (Hidle : restartStep (visit i u) = visit i u).
    { apply restartStep_idle. left. rewrite visit_lastStatus. simpl.
      fold status. by rewrite Hserving. }
    assert (Hact : activeInstance (app ticked) = Some i)
      by (subst ticked; by rewrite Htick, Hidle).
    destruct (ServeHTTP_active_run req ticked i Hact) as (_ & Hr & Hev & Hdone).
    split_and!; [done| | |done|done|done].
    + subst ticked. rewrite Htick, Hidle, Hworld. simpl. by rewrite Hnone.
    + unfold tickSteps. rewrite Htick, Hidle, Htrace, drop_app_length.
      simpl. by rewrite Hnone.
  - intros Hother. rewrite Htick, Hrestart.
    unfold visit. simpl. destruct (Instance_UpdateStatus i (world s)) as [st w'] eqn:Hs.
    subst status. simpl in Hother. simpl. rewrite Hnone.
    case_decide; [done|]. by case_decide.
Qed.

End TickSteps.

(** X19 on a rollover: instance 2 is active after the tick that found it
    serving. *)
Lemma X19_active_was_serving_witness :
  let u := @startInstanceUpdater testOps
             (testSys 5 [1; 2]%nat (Some 1%nat) (fun _ => InstanceStatusServing)) in
  activeInstance (app (sys (tick u))) = Some 2%nat
  /\ 2%nat ∈ instances (app (sys u))
  /\ CallUpdateStatus 2 InstanceStatusServing ∈ events (tickSteps u).
Proof.
  intros u.
  assert (Hactive : activeInstance (app (sys (tick u))) = Some 2%nat) by reflexivity.
  assert (Hin : 2%nat ∈ instances (app (sys u))).
  { apply list_elem_of_In. simpl. tauto. }
  split; [exact Hactive|]. split; [exact Hin|].
  exact (@X19_active_was_serving testOps u 2%nat Hactive Hin).
Defined.

(** X20 on the same rollover: instance 1 is stopped once instance 2 is the
    active one. *)
Lemma X20_stop_only_replaced_witness :
  let u := @startInstanceUpdater testOps
             (testSys 5 [1; 2]%nat (Some 1%nat) (fun _ => InstanceStatusServing)) in
  let st := {| ev := CallStop 1; activeAfter := Some 2%nat |} in
  st ∈ tickSteps u
  /\ ev st = CallStop 1
  /\ exists i, activeAfter st = Some i /\ i <> 1%nat.
Proof.
  intros u st.
  assert (Hin : st ∈ tickSteps u).
  { apply list_elem_of_In. vm_compute. tauto. }
  split; [exact Hin|]. split; [reflexivity|].
  exact (@X20_stop_only_replaced testOps u st 1%nat Hin eq_refl).
Defined.

(** X23 on a new App whose first instance serves at once. *)
Lemma X23_first_instance_witness :
  let cfg := set_MaxRetries 5 (appEntry "web" "run {port}" []) in
  let w : testWorld := fun _ => InstanceStatusServing in
  let req := {| URL_Scheme := ""; URL_Host := ""; RemoteAddr := "192.0.2.7:4711";
                Header := [] |} in
  let s := snd (StartNewInstance (sys (@NewApp testOps cfg w))) in
  let ticked := sys (tick {| sys := s; restartCount := 0; lastStatus := -1 |}) in
  StartNewInstance (sys (@NewApp testOps cfg w)) = (None, s)
  /\ instances (app s) = [1%nat]
  /\ activeInstance (app ticked) = Some 1%nat
  /\ events (trace (snd (ServeHTTP req ticked)))
     = events (trace ticked)
       ++ [Lock; CallServe 1; Unlock; CallProxy "localhost:10000" Returned;
           CallDone 1].
Proof.
  intros cfg w req s ticked.
  assert (Hstart : StartNewInstance (sys (@NewApp testOps cfg w)) = (None, s))
    by reflexivity.
  assert (Hinst : instances (app s) = [1%nat]) by reflexivity.
  split; [exact Hstart|]. split; [exact Hinst|].
  destruct (@X23_first_instance testOps cfg w req 1%nat s Hstart Hinst)
    as (_ & _ & Hserving & _).
  destruct Hserving as (Hactive & _ & _ & _ & Hev & _); [reflexivity|].
  split; [exact Hactive|exact Hev].
Defined.
